(** * wifiServer: the resumable upload protocol of [server.py]

    A shallow embedding of the path helpers and of the three resumable
    routes ([/upload/status], [/upload/chunk], [/upload/finish]) of
    [server.py], of its file count ([/stats]) and of its form upload
    ([/upload]), with the filesystem as explicit state, followed by the
    properties of the protocol and by further properties of the code.

    Conventions of the model.
    - A Python [str] is a [string]; its characters are the code points
      U+0000..U+00FF, so that [str.strip] and [int] can be followed to the
      letter on them.
    - A [pathlib.Path] is the list of its components.
    - The filesystem is a finite map from paths to nodes (regular file with
      its bytes, or directory). It is only changed by the requests modelled
      here, one at a time: a call that the operating system would refuse
      for a reason outside the map (a lock, a full disk) is not modelled.
      Where operating systems differ on the error a call raises, the model
      follows Windows, the system the upload root is written for.
    - A view function is a computation in a monad of state and exceptions;
      [serve] is Flask around it: [abort] becomes its error page, any other
      exception that nobody caught becomes a 500.
    - [werkzeug.utils.secure_filename] and the size [os.stat] reports for a
      directory belong to the platform, not to [server.py]: they are the
      two fields of the class [Platform]. The instance [windows] is there
      to run the model on sample requests. *)

From Stdlib Require Import ZArith Lia Ascii String.
From stdpp Require Import base decidable option list strings pretty gmap.

Local Open Scope Z_scope.

(** ** Python strings *)

Module Py.

Definition code (c : ascii) : N := N_of_ascii c.

Definition in_range (lo hi : N) (c : ascii) : bool :=
  ((lo <=? code c) && (code c <=? hi))%N.

(** [str.isspace] on one character, for code points below 256. *)
Definition isspace (c : ascii) : bool :=
  in_range 9 13 c || in_range 28 32 c
  || (code c =? 133)%N || (code c =? 160)%N.

Definition isdigit (c : ascii) : bool := in_range 48 57 c.
Definition isupper (c : ascii) : bool := in_range 65 90 c.
Definition islower (c : ascii) : bool := in_range 97 122 c.
Definition isalnum (c : ascii) : bool := isupper c || islower c || isdigit c.

Fixpoint mem (c : ascii) (s : string) : bool :=
  match s with
  | EmptyString => false
  | String d s' => if decide (c = d) then true else mem c s'
  end.

Fixpoint lstrip (s : string) : string :=
  match s with
  | EmptyString => EmptyString
  | String c s' => if isspace c then lstrip s' else s
  end.

Fixpoint rstrip (s : string) : string :=
  match s with
  | EmptyString => EmptyString
  | String c s' =>
      match rstrip s' with
      | EmptyString => if isspace c then EmptyString else String c EmptyString
      | r => String c r
      end
  end.

(** [s.strip()] *)
Definition strip (s : string) : string := rstrip (lstrip s).

(** [s.split(sep)] for a one-character separator, here given as a
    predicate: [server.py] first replaces every backslash by a slash and
    then splits on the slash. *)
Fixpoint split (is_sep : ascii → bool) (s : string) : list string :=
  match s with
  | EmptyString => [EmptyString]
  | String c s' =>
      if is_sep c then EmptyString :: split is_sep s'
      else match split is_sep s' with
           | [] => [String c EmptyString]
           | w :: ws => String c w :: ws
           end
  end.

Fixpoint forallb (p : ascii → bool) (s : string) : bool :=
  match s with
  | EmptyString => true
  | String c s' => p c && forallb p s'
  end.

(** [s[:n]] *)
Fixpoint prefix (n : nat) (s : string) : string :=
  match n, s with
  | S n', String c s' => String c (prefix n' s')
  | _, _ => EmptyString
  end.

(** [s.rfind(".")]: the index of the last dot, if any. *)
Fixpoint rfind_dot (s : string) : option nat :=
  match s with
  | EmptyString => None
  | String c s' =>
      match rfind_dot s' with
      | Some i => Some (S i)
      | None => if decide (c = "."%char) then Some 0%nat else None
      end
  end.

(** [s[n:]] *)
Fixpoint suffix_from (n : nat) (s : string) : string :=
  match n, s with
  | S n', String _ s' => suffix_from n' s'
  | _, _ => s
  end.

Fixpoint digits_value (acc : Z) (s : string) : Z :=
  match s with
  | EmptyString => acc
  | String c s' =>
      if isdigit c then digits_value (10 * acc + Z.of_N (code c - 48)) s'
      else digits_value acc s'
  end.

(** The digit part of an integer literal: digits, with single
    underscores allowed between two digits. [prev] tells whether the
    previous character was a digit. *)
Fixpoint digits_ok (prev : bool) (s : string) : bool :=
  match s with
  | EmptyString => prev
  | String c s' =>
      if isdigit c then digits_ok true s'
      else if decide (c = "_"%char) then prev && digits_ok false s'
      else false
  end.

Fixpoint count_digits (s : string) : N :=
  match s with
  | EmptyString => 0
  | String c s' => ((if isdigit c then 1 else 0) + count_digits s')%N
  end.

(** [sys.int_info.default_max_str_digits] *)
Definition max_str_digits : N := 4300.

(** The value of a digit part, if it is one and has no more digits than
    [int] converts. *)
Definition digits (d : string) : option Z :=
  if digits_ok false d && (count_digits d <=? max_str_digits)%N
  then Some (digits_value 0 d)
  else None.

(** The white space [int] passes over at both ends of a string: that of
    [str.isspace] without the separators U+001C..U+001F, which [str.strip]
    takes off and [int] does not. *)
Definition int_space (c : ascii) : bool :=
  isspace c && negb (in_range 28 31 c).

Fixpoint int_lstrip (s : string) : string :=
  match s with
  | EmptyString => EmptyString
  | String c s' => if int_space c then int_lstrip s' else s
  end.

Fixpoint int_rstrip (s : string) : string :=
  match s with
  | EmptyString => EmptyString
  | String c s' =>
      match int_rstrip s' with
      | EmptyString => if int_space c then EmptyString else String c EmptyString
      | r => String c r
      end
  end.

(** [int(s)] in base ten: white space around, a sign, and the digit part.
    [None] stands for [ValueError]. *)
Definition int (s : string) : option Z :=
  match int_rstrip (int_lstrip s) with
  | String "+" d => digits d
  | String "-" d => Z.opp <$> digits d
  | d => digits d
  end.

(** [s.endswith(suffix)] *)
Fixpoint endswith (s suffix : string) : bool :=
  bool_decide (s = suffix)
  || match s with
     | EmptyString => false
     | String _ s' => endswith s' suffix
     end.

(** [l.remove(x)]: the list without the first [x]; [None] stands for
    [ValueError]. *)
Fixpoint remove (x : string) (l : list string) : option (list string) :=
  match l with
  | [] => None
  | y :: l' => if decide (x = y) then Some l' else (y ::.) <$> remove x l'
  end.

End Py.

(** ** Paths *)

Abbreviation path := (list string).

(** [UPLOAD_ROOT = Path("D:/iphone8OLD") / "PhoneUploads"] and
    [TMP_DIR = UPLOAD_ROOT / ".incoming"]. *)
Definition UPLOAD_ROOT : path := ["D:"; "iphone8OLD"; "PhoneUploads"]%string.
Definition TMP_DIR : path := UPLOAD_ROOT ++ [".incoming"%string].

(** The character class of [SAFE_SEG]:
    [[ .A-Za-z0-9_\-()+=@#,&{}!$%^~\[\]]]. *)
Definition safe_char (c : ascii) : bool :=
  Py.isalnum c || Py.mem c " ._-()+=@#,&{}!$%^~[]".

(** [^class{1,255}$] without its anchors: between 1 and 255 characters of
    the class. *)
Definition safe_body (s : string) : bool :=
  Py.forallb safe_char s
  && bool_decide (1 ≤ String.length s ≤ 255)%nat.

(** The string without the newline that ends it, if one does. *)
Fixpoint chop_newline (s : string) : option string :=
  match s with
  | EmptyString => None
  | String c EmptyString =>
      if bool_decide (c = "010"%char) then Some EmptyString else None
  | String c s' => String c <$> chop_newline s'
  end.

(** [SAFE_SEG.match(seg)]. In Python [$] also matches just before a
    newline that ends the string. *)
Definition SAFE_SEG_match (seg : string) : bool :=
  safe_body seg
  || match chop_newline seg with
     | Some b => safe_body b
     | None => false
     end.

Definition is_slash (c : ascii) : bool :=
  bool_decide (c = "/"%char) || bool_decide (c = "\"%char).

(** The loop of [_safe_relpath]: [parts] is the list built so far. *)
Fixpoint safe_relpath_loop (raws : list string) (parts : list string) : list string :=
  match raws with
  | [] => parts
  | raw :: raws' =>
      let seg := Py.strip raw in
      if bool_decide (seg = "" ∨ seg = "." ∨ seg = "..")%string
      then safe_relpath_loop raws' parts
      else
        let seg := if SAFE_SEG_match seg then seg else "_"%string in
        let parts := parts ++ [Py.prefix 255 seg] in
        if bool_decide (50 ≤ length parts)%nat then parts
        else safe_relpath_loop raws' parts
  end.

Definition _safe_relpath (rel : string) : path :=
  safe_relpath_loop (Py.split is_slash rel) [].

(** ** The platform: what [server.py] takes from its libraries and OS *)

Class Platform := {
  (** [werkzeug.utils.secure_filename] *)
  secure_filename : string → string;
  (** [st_size] of a directory, which depends on the operating system *)
  dir_st_size : Z
}.

(** What [secure_filename] promises of its result: only the characters
    [A-Za-z0-9_.-], and no leading dot. *)
Definition secure_char (c : ascii) : bool :=
  Py.isalnum c || Py.mem c "_.-".

Definition secure_result (s : string) : Prop :=
  Py.forallb secure_char s = true ∧ ∀ s', s ≠ String "."%char s'.

Class PlatformSecure `{Platform} :=
  secure_filename_result : ∀ name, secure_result (secure_filename name).

(** ** The filesystem *)

Inductive node :=
  | File (data : list Byte.byte)
  | Dir.

Abbreviation filesystem := (gmap path node).

(** [p.parent] and [p.name] *)
Definition parent (p : path) : path := removelast p.
Definition name_of (p : path) : string := List.last p ""%string.

(** [p.with_name(n)], for a path that has a name; for one that has none
    (the root, [Path(".")]) pathlib raises [ValueError], and the
    properties below are stated for paths with a name. *)
Definition with_name (p : path) (n : string) : path := parent p ++ [n].

(** [p.suffix] and [p.stem]: the name is cut at its last dot, unless that
    dot is the first or the last character. *)
Definition split_ext (n : string) : string * string :=
  match Py.rfind_dot n with
  | Some i =>
      if bool_decide (0 < i ∧ i < String.length n - 1)%nat
      then (Py.prefix i n, Py.suffix_from i n)
      else (n, ""%string)
  | None => (n, ""%string)
  end.
Definition stem (p : path) : string := (split_ext (name_of p)).1.
Definition suffix (p : path) : string := (split_ext (name_of p)).2.

(** [str(p)] *)
Definition path_str (p : path) : string := String.concat "/" p.

(** The root of the filesystem and every [Dir] node are directories. *)
Definition is_dir (s : filesystem) (p : path) : bool :=
  match p with
  | [] => true
  | _ => match s !! p with Some Dir => true | _ => false end
  end.

(** ** Exceptions, and the monad of a request handler

    A handler runs on the filesystem and either returns or raises; what it
    wrote before raising stays written. [Unfinished] is for a loop of the
    model that has used up its rounds; the loops are given enough of them,
    as [copy_loop_appends] and [unique_path_taken] show. *)

Inductive exn :=
  | HTTPException (code : Z) (description : string)
  | ValueError
  | FileNotFoundError
  | FileExistsError
  | PermissionError
  | ShutilError
  | Unfinished.

(** [except (PermissionError, OSError)] *)
Definition is_OSError (e : exn) : bool :=
  match e with
  | FileNotFoundError | FileExistsError | PermissionError | ShutilError => true
  | _ => false
  end.

Inductive result (A : Type) :=
  | Ok (a : A)
  | Raise (e : exn).
Arguments Ok {A} a.
Arguments Raise {A} e.

Definition M (A : Type) : Type := filesystem → filesystem * result A.

Global Instance M_ret : MRet M := λ A a s, (s, Ok a).
Global Instance M_bind : MBind M := λ A B f m s,
  match m s with
  | (s', Ok a) => f a s'
  | (s', Raise e) => (s', Raise e)
  end.

Definition raise {A} (e : exn) : M A := λ s, (s, Raise e).

(** [try: m except ... as e:] with the handler applied by the caller. *)
Definition try_ {A} (m : M A) : M (exn + A) := λ s,
  match m s with
  | (s', Ok a) => (s', Ok (inr a))
  | (s', Raise e) => (s', Ok (inl e))
  end.

(** [flask.abort] *)
Definition abort {A} (code : Z) (description : string) : M A :=
  raise (HTTPException code description).

(** *** Filesystem calls *)

Definition node_size `{Platform} (n : node) : Z :=
  match n with
  | File data => Z.of_nat (length data)
  | Dir => dir_st_size
  end.

(** [p.exists()] *)
Definition exists_ (p : path) : M bool := λ s,
  (s, Ok (bool_decide (is_Some (s !! p)))).

(** [p.stat().st_size] *)
Definition st_size `{Platform} (p : path) : M Z := λ s,
  match s !! p with
  | Some n => (s, Ok (node_size n))
  | None => (s, Raise FileNotFoundError)
  end.

(** [p.mkdir(parents=True, exist_ok=True)], on the reversed path: an
    existing directory is accepted, a regular file in the way is an error,
    and a missing directory is created after its parent. *)
Fixpoint mkdir_rev (s : filesystem) (rp : list string) : option filesystem :=
  match rp with
  | [] => Some s
  | _ :: rparent =>
      match s !! rev rp with
      | Some Dir => Some s
      | Some (File _) => None
      | None =>
          match mkdir_rev s rparent with
          | Some s' => Some (<[rev rp := Dir]> s')
          | None => None
          end
      end
  end.

Definition mkdir_parents (p : path) : M () := λ s,
  match mkdir_rev s (rev p) with
  | Some s' => (s', Ok ())
  | None => (s, Raise FileExistsError)
  end.

(** [open(p, "ab")]: the file is created empty if it is not there. *)
Definition open_append (p : path) : M () := λ s,
  match s !! p with
  | Some (File _) => (s, Ok ())
  | Some Dir => (s, Raise PermissionError)
  | None =>
      if is_dir s (parent p) then (<[p := File []]> s, Ok ())
      else (s, Raise FileNotFoundError)
  end.

(** [out.write(chunk)] on a file opened for append. *)
Definition write (p : path) (chunk : list Byte.byte) : M () := λ s,
  match s !! p with
  | Some (File data) => (<[p := File (data ++ chunk)]> s, Ok ())
  | _ => (s, Raise FileNotFoundError)
  end.

(** [p.unlink()] *)
Definition unlink (p : path) : M () := λ s,
  match s !! p with
  | Some (File _) => (delete p s, Ok ())
  | Some Dir => (s, Raise PermissionError)
  | None => (s, Raise FileNotFoundError)
  end.

(** Renaming a directory takes everything below it along. *)
Definition rekey (src dst k : path) : path :=
  if bool_decide (src `prefix_of` k) then dst ++ drop (length src) k else k.

Definition move_tree (src dst : path) (s : filesystem) : filesystem :=
  list_to_map ((λ kv : path * node, (rekey src dst kv.1, kv.2)) <$> map_to_list s).

(** [os.replace(src, dst)]: a regular file replaces a regular file or takes
    a free name; a directory only takes a free name outside itself. *)
Definition os_replace (src dst : path) : M () := λ s,
  match s !! src with
  | None => (s, Raise FileNotFoundError)
  | Some n =>
      if negb (is_dir s (parent dst)) then (s, Raise FileNotFoundError)
      else
        match n, s !! dst with
        | File data, Some Dir => (s, Raise PermissionError)
        | File data, _ => (<[dst := File data]> (delete src s), Ok ())
        | Dir, Some _ => (s, Raise PermissionError)
        | Dir, None =>
            if bool_decide (src `prefix_of` dst) then (s, Raise PermissionError)
            else (move_tree src dst s, Ok ())
        end
  end.

(** [shutil.move(src, dst)]: an existing directory [dst] receives [src]
    under its own name; on one volume copy-and-delete ends where the rename
    does. *)
Definition shutil_move (src dst : path) : M () := λ s,
  match s !! dst with
  | Some Dir =>
      let real_dst := dst ++ [name_of src] in
      if bool_decide (is_Some (s !! real_dst)) then (s, Raise ShutilError)
      else os_replace src real_dst s
  | _ => os_replace src dst s
  end.

(** ** Requests and responses *)

Record request := {
  (** [request.args] *)
  args : gmap string string;
  (** the bytes [request.stream] will deliver *)
  body : list Byte.byte
}.

(** [request.args.get(key, default)] *)
Definition args_get (req : request) (key default_ : string) : string :=
  default default_ (args req !! key).

(** The value of [int(request.args.get(key, "0") or 0)], where it has one. *)
Definition declared (req : request) (key : string) : option Z :=
  let v := args_get req key "0" in
  if bool_decide (v = ""%string) then Some 0 else Py.int v.

(** [int(request.args.get(key, "0") or 0)] *)
Definition int_arg (req : request) (key : string) : M Z :=
  match declared req key with
  | Some z => mret z
  | None => raise ValueError
  end.

Inductive json :=
  | JInt (n : Z)
  | JBool (b : bool)
  | JStr (s : string).

(** A response is the status and the fields of a [jsonify] call, or the
    error page of an [abort] or of an exception nobody caught. *)
Inductive response :=
  | Json (status : Z) (fields : list (string * json))
  | ErrorPage (status : Z) (description : string).

(** Flask around a view function. *)
Definition serve (view : M response) (s : filesystem) : filesystem * response :=
  match view s with
  | (s', Ok r) => (s', r)
  | (s', Raise (HTTPException code description)) => (s', ErrorPage code description)
  | (s', Raise _) => (s', ErrorPage 500 "Internal Server Error")
  end.

(** ** The helpers of [server.py] *)

Section Server.
Context `{Platform}.

Definition _safe_name (name : string) : string :=
  let s := secure_filename name in
  if bool_decide (s = ""%string) then "upload.bin"%string else s.

Definition _tmp_path (name rel : string) : path :=
  let rp := _safe_relpath rel in
  TMP_DIR ++ rp ++ [_safe_name name +:+ ".part"].

Definition _final_path (name rel : string) : path :=
  let rp := _safe_relpath rel in
  UPLOAD_ROOT ++ rp ++ [_safe_name name].

(** The candidate of [_unique_path] for the counter [i]:
    [p.with_name(f"{stem} ({i}){suffix}")]. *)
Definition candidate (p : path) (i : Z) : path :=
  with_name p (stem p +:+ " (" +:+ pretty i +:+ ")" +:+ suffix p).

(** The [while True] loop of [_unique_path]. *)
Fixpoint unique_path_loop (fuel : nat) (p : path) (i : Z) : M path :=
  match fuel with
  | O => raise Unfinished
  | S fuel' =>
      let cand := candidate p i in
      taken ← exists_ cand;
      if negb taken then mret cand
      else unique_path_loop fuel' p (i + 1)
  end.

(** The loop looks at one new name per round, and the filesystem holds
    finitely many: one round more than it has entries is enough. *)
Definition _unique_path (p : path) : M path :=
  taken ← exists_ p;
  if negb taken then mret p
  else λ s, unique_path_loop (S (size s)) p 1 s.

(** The ten [os.replace] attempts of [_atomic_move_with_retry]; the result
    tells whether one of them returned, and the last error. *)
Fixpoint replace_attempts (attempts : nat) (src dst : path)
    (last_err : option exn) : M (bool * option exn) :=
  match attempts with
  | O => mret (false, last_err)
  | S attempts' =>
      r ← try_ (os_replace src dst);
      match r with
      | inr _ => mret (true, last_err)
      | inl e =>
          if is_OSError e then replace_attempts attempts' src dst (Some e)
          else raise e
      end
  end.

Definition _atomic_move_with_retry (src dst : path) : M () :=
  '(moved, last_err) ← replace_attempts 10 src dst None;
  if moved : bool then mret ()
  else
    r ← try_ (shutil_move src dst);
    match r with
    | inr _ => mret ()
    | inl e => raise (default e last_err)
    end.

(** ** The routes *)

Definition received (n : Z) : list (string * json) :=
  [("received"%string, JInt n)].

(** [not size or p.stat().st_size == size] *)
Definition size_matches (size : Z) (p : path) : M bool :=
  if size =? 0 then mret true
  else n ← st_size p; mret (n =? size).

(** [GET /upload/status] *)
Definition upload_status (req : request) : M response :=
  let name := args_get req "name" "" in
  size ← int_arg req "size";
  let relpath := args_get req "relpath" "" in
  if bool_decide (name = ""%string) || (size <? 0)
  then abort 400 "name/size required"
  else
    let tmp := _tmp_path name relpath in
    tmp_exists ← exists_ tmp;
    if tmp_exists : bool then
      n ← st_size tmp; mret (Json 200 (received n))
    else
      let final := _final_path name relpath in
      final_exists ← exists_ final;
      if final_exists : bool then
        complete ← size_matches size final;
        if complete : bool then
          n ← (if size =? 0 then st_size final else mret size);
          mret (Json 200 [("received"%string, JInt n);
                          ("complete"%string, JBool true)])
        else
          n ← st_size final; mret (Json 200 (received n))
      else mret (Json 200 (received 0)).

(** [request.stream.read(n)]: the next [n] bytes, or all that is left
    if that is less, and what stays in the stream. *)
Fixpoint stream_read {A} (n : N) (stream : list A) : list A * list A :=
  match stream with
  | [] => ([], [])
  | b :: stream' =>
      if (n =? 0)%N then ([], stream)
      else let '(chunk, rest) := stream_read (N.pred n) stream' in
           (b :: chunk, rest)
  end.

Definition READ_SIZE : N := 8 * 1024 * 1024.

(** The [while True] loop of [upload_chunk]. Every round but the last
    takes at least one byte off the stream. *)
Fixpoint copy_loop (fuel : nat) (out : path) (stream : list Byte.byte)
    (written : Z) : M Z :=
  match fuel with
  | O => raise Unfinished
  | S fuel' =>
      let '(chunk, rest) := stream_read READ_SIZE stream in
      match chunk with
      | [] => mret written
      | _ =>
          write out chunk;;
          copy_loop fuel' out rest (written + Z.of_nat (length chunk))
      end
  end.

(** [upload_chunk] once the offset is accepted: from
    [tmp.parent.mkdir(...)] to the end. *)
Definition append_chunk (size current : Z) (tmp : path)
    (stream : list Byte.byte) : M response :=
  mkdir_parents (parent tmp);;
  open_append tmp;;
  written ← copy_loop (S (length stream)) tmp stream 0;
  let total := current + written in
  if (size <? total) && (0 <? size)
  then abort 400 "received more bytes than declared size"
  else mret (Json 200 (received total)).

(** [POST /upload/chunk] *)
Definition upload_chunk (req : request) : M response :=
  let name := args_get req "name" "" in
  size ← int_arg req "size";
  offset ← int_arg req "offset";
  let relpath := args_get req "relpath" "" in
  if bool_decide (name = ""%string) || (size <? 0) || (offset <? 0)
  then abort 400 "name/size/offset required"
  else
    let tmp := _tmp_path name relpath in
    tmp_exists ← exists_ tmp;
    current ← (if tmp_exists : bool then st_size tmp else mret 0);
    if negb (offset =? current) then mret (Json 409 (received current))
    else append_chunk size current tmp (body req).

Definition finished (p : path) (note : option string) : response :=
  Json 200 ([("ok"%string, JBool true); ("path"%string, JStr (path_str p))]
            ++ match note with
               | Some n => [("note"%string, JStr n)]
               | None => []
               end).

(** Stands for [str(e)] in the message of the last [abort]. *)
Definition exn_str (e : exn) : string :=
  match e with
  | HTTPException _ d => d
  | ValueError => "ValueError"
  | FileNotFoundError => "FileNotFoundError"
  | FileExistsError => "FileExistsError"
  | PermissionError => "PermissionError"
  | ShutilError => "shutil.Error"
  | Unfinished => ""
  end.

(** The [except Exception as e] block of [upload_finish]. *)
Definition finish_recover (size : Z) (tmp final_pref : path) (e : exn) : M response :=
  final_exists ← exists_ final_pref;
  settled ← (if final_exists : bool then
               try_ (matches ← size_matches size final_pref;
                     if matches : bool
                     then try_ (unlink tmp);; mret true
                     else mret false)
             else mret (inr false));
  match settled with
  | inr true =>
      mret (finished final_pref (Some "final existed after error"%string))
  | _ => abort 500 ("finalize failed: " +:+ exn_str e)
  end.

(** The [try] statement of [upload_finish]. *)
Definition finish_move (size : Z) (tmp final_pref : path) : M response :=
  r ← try_ (_atomic_move_with_retry tmp final_pref);
  match r with
  | inr _ => mret (finished final_pref None)
  | inl FileNotFoundError =>
      final_exists ← exists_ final_pref;
      if final_exists : bool
      then mret (finished final_pref (Some "finalized concurrently"%string))
      else abort 404 "partial vanished during finalize"
  | inl e => finish_recover size tmp final_pref e
  end.

(** [upload_finish] from its second [if not tmp.exists()] on, with the
    final path chosen so far. *)
Definition finish_from (size : Z) (tmp final_pref : path) : M response :=
  tmp_exists ← exists_ tmp;
  if negb tmp_exists then
    final_exists ← exists_ final_pref;
    if final_exists : bool
    then mret (finished final_pref (Some "already finalized"%string))
    else abort 404 "no partial upload found"
  else
    mkdir_parents (parent final_pref);;
    finish_move size tmp final_pref.

(** [POST /upload/finish] *)
Definition upload_finish (req : request) : M response :=
  let name := args_get req "name" "" in
  size ← int_arg req "size";
  let relpath := args_get req "relpath" "" in
  if bool_decide (name = ""%string) then abort 400 "name required"
  else
    let tmp := _tmp_path name relpath in
    let final_pref := _final_path name relpath in
    final_exists ← exists_ final_pref;
    if final_exists : bool then
      tmp_exists ← exists_ tmp;
      if negb tmp_exists then
        matches ← size_matches size final_pref;
        if matches : bool
        then mret (finished final_pref (Some "already finalized"%string))
        else finish_from size tmp final_pref
      else
        final_pref ← _unique_path final_pref;
        finish_from size tmp final_pref
    else finish_from size tmp final_pref.

End Server.

(** ** A concrete platform, to run the model *)

Module Werkzeug.

Fixpoint filter (p : ascii → bool) (s : string) : string :=
  match s with
  | EmptyString => EmptyString
  | String c s' => if p c then String c (filter p s') else filter p s'
  end.

Fixpoint map (f : ascii → ascii) (s : string) : string :=
  match s with
  | EmptyString => EmptyString
  | String c s' => String (f c) (map f s')
  end.

(** [s.split()]: the words between runs of white space; [cur] is the word
    being read, reversed. *)
Fixpoint words_go (cur : string) (s : string) : list string :=
  match s with
  | EmptyString =>
      if bool_decide (cur = EmptyString) then [] else [String.rev cur]
  | String c s' =>
      if Py.isspace c then
        (if bool_decide (cur = EmptyString) then [] else [String.rev cur])
        ++ words_go EmptyString s'
      else words_go (String c cur) s'
  end.
Definition words (s : string) : list string := words_go EmptyString s.

(** [s.strip("._")] *)
Definition is_dot_us (c : ascii) : bool := Py.mem c "._".
Fixpoint lstrip_dot_us (s : string) : string :=
  match s with
  | EmptyString => EmptyString
  | String c s' => if is_dot_us c then lstrip_dot_us s' else s
  end.
Fixpoint rstrip_dot_us (s : string) : string :=
  match s with
  | EmptyString => EmptyString
  | String c s' =>
      match rstrip_dot_us s' with
      | EmptyString => if is_dot_us c then EmptyString else String c EmptyString
      | r => String c r
      end
  end.
Definition strip_dot_us (s : string) : string :=
  rstrip_dot_us (lstrip_dot_us s).

Definition upper_char (c : ascii) : ascii :=
  if Py.islower c then ascii_of_N (Py.code c - 32) else c.

(** [unicodedata.normalize("NFKD", c).encode("ascii", "ignore")] for one
    character: an ASCII character stays, a character with a compatibility
    decomposition leaves the ASCII characters of it, any other goes. *)
Definition nfkd_ascii_char (c : ascii) : string :=
  if (Py.code c <? 128)%N then String c EmptyString
  else
    match Py.code c with
    | 160 | 168 | 175 | 180 | 184 => " "
    | 170 | 224 | 225 | 226 | 227 | 228 | 229 => "a"
    | 178 => "2"
    | 179 => "3"
    | 185 => "1"
    | 186 | 242 | 243 | 244 | 245 | 246 => "o"
    | 188 => "14"
    | 189 => "12"
    | 190 => "34"
    | 192 | 193 | 194 | 195 | 196 | 197 => "A"
    | 199 => "C"
    | 200 | 201 | 202 | 203 => "E"
    | 204 | 205 | 206 | 207 => "I"
    | 209 => "N"
    | 210 | 211 | 212 | 213 | 214 => "O"
    | 217 | 218 | 219 | 220 => "U"
    | 221 => "Y"
    | 231 => "c"
    | 232 | 233 | 234 | 235 => "e"
    | 236 | 237 | 238 | 239 => "i"
    | 241 => "n"
    | 249 | 250 | 251 | 252 => "u"
    | 253 | 255 => "y"
    | _ => EmptyString
    end%N%string.

Fixpoint nfkd_ascii (s : string) : string :=
  match s with
  | EmptyString => EmptyString
  | String c s' => nfkd_ascii_char c +:+ nfkd_ascii s'
  end.

Definition windows_device_files : list string :=
  ["CON"; "PRN"; "AUX"; "NUL";
   "COM1"; "COM2"; "COM3"; "COM4"; "COM5"; "COM6"; "COM7"; "COM8"; "COM9";
   "LPT1"; "LPT2"; "LPT3"; "LPT4"; "LPT5"; "LPT6"; "LPT7"; "LPT8"; "LPT9"
  ]%string.

(** The name before the look at the devices of Windows: the characters
    are normalized and those outside ASCII go, both separators become
    spaces, runs of white space become one underscore, characters outside
    [A-Za-z0-9_.-] go, and dots and underscores are stripped from both
    ends. *)
Definition ascii_name (filename : string) : string :=
  let filename := nfkd_ascii filename in
  let filename := map (λ c, if is_slash c then " "%char else c) filename in
  strip_dot_us (filter secure_char (String.concat "_" (words filename))).

(** [filename and filename.split(".")[0].upper() in _windows_device_files] *)
Definition is_device (filename : string) : bool :=
  bool_decide (filename ≠ EmptyString)
  && bool_decide
       (map upper_char
          (hd EmptyString (Py.split (λ c, bool_decide (c = "."%char)) filename))
        ∈ windows_device_files).

(** [secure_filename] as werkzeug computes it on Windows; the name of a
    device gets an underscore in front. *)
Definition secure_filename (filename : string) : string :=
  let filename := ascii_name filename in
  if is_device filename then String "_"%char filename else filename.

End Werkzeug.

Global Instance windows : Platform := {|
  secure_filename := Werkzeug.secure_filename;
  dir_st_size := 0
|}.

(** ** The vocabulary of the properties *)

Section Vocabulary.
Context `{Platform}.

(** What [upload_chunk] takes for the length received so far:
    [tmp.stat().st_size if tmp.exists() else 0]. *)
Definition current_length (s : filesystem) (tmp : path) : Z :=
  match s !! tmp with
  | Some n => node_size n
  | None => 0
  end.

(** The bytes of the partial file, none if it is not there. *)
Definition partial_bytes (s : filesystem) (tmp : path) : list Byte.byte :=
  match s !! tmp with
  | Some (File data) => data
  | _ => []
  end.

(** A status request for the target [(name, relpath, size)]: the name is
    there and the size is a byte count. *)
Definition status_request (req : request) (name : string) (size : Z)
    (relpath : string) : Prop :=
  args_get req "name" "" = name ∧ declared req "size" = Some size
  ∧ args_get req "relpath" "" = relpath
  ∧ name ≠ ""%string ∧ 0 ≤ size.

(** A chunk request [(name, size, offset, relpath)]: the name is there, and
    size and offset are byte counts. *)
Definition chunk_request (req : request) (name : string) (size offset : Z)
    (relpath : string) : Prop :=
  args_get req "name" "" = name ∧ declared req "size" = Some size
  ∧ declared req "offset" = Some offset
  ∧ args_get req "relpath" "" = relpath
  ∧ name ≠ ""%string ∧ 0 ≤ size ∧ 0 ≤ offset.

(** A finish request for the target [(name, relpath, size)]. *)
Definition finish_request (req : request) (name : string) (size : Z)
    (relpath : string) : Prop :=
  args_get req "name" "" = name ∧ declared req "size" = Some size
  ∧ args_get req "relpath" "" = relpath
  ∧ name ≠ ""%string.

(** A path component that is a plain name: not empty, not [.] or [..],
    and free of separators. *)
Definition plain_segment (seg : string) : Prop :=
  seg ≠ ""%string ∧ seg ≠ "."%string ∧ seg ≠ ".."%string
  ∧ Py.forallb (λ c, negb (is_slash c)) seg = true.

(** [p] lies strictly below [root], by plain names only. *)
Definition confined (root p : path) : Prop :=
  ∃ rest, p = root ++ rest ∧ rest ≠ [] ∧ Forall plain_segment rest.

(** The map is a tree: every entry lies in a directory. *)
Definition well_formed (s : filesystem) : bool :=
  forallb (λ kv : path * node, is_dir s (parent kv.1)) (map_to_list s).

(** The same, as a proposition on the entries. *)
Definition tree (s : filesystem) : Prop :=
  ∀ (k : path) (n : node), s !! k = Some n → is_dir s (parent k) = true.

(** A computation that leaves a tree a tree. *)
Definition keeps_tree {A} (m : M A) : Prop :=
  ∀ s : filesystem, tree s → tree (m s).1.

(** A string without a dot. *)
Definition no_dot (ext : string) : Prop :=
  ∀ b c : string, ext ≠ b +:+ String "."%char c.

(** The names tried from [i] on, [n] of them. *)
Definition candidates (p : path) (i : Z) (n : nat) : list path :=
  (λ k : nat, candidate p (i + Z.of_nat k)) <$> seq 0 n.

(** Where [upload_finish] moves a partial file: what [_unique_path] makes
    of the preferred path. *)
Definition destination (s : filesystem) (final : path) : path :=
  match _unique_path final s with
  | (_, Ok p) => p
  | _ => final
  end.

(** The partial file is where it was, with the bytes it had, or gone. *)
Definition kept (tmp : path) (data : list Byte.byte) (s : filesystem) : Prop :=
  s !! tmp = None ∨ s !! tmp = Some (File data).

(** The three resumable routes as operations on the filesystem. *)
Inductive operation :=
  | Status (req : request)
  | Chunk (req : request)
  | Finish (req : request).

Definition view (o : operation) : M response :=
  match o with
  | Status req => upload_status req
  | Chunk req => upload_chunk req
  | Finish req => upload_finish req
  end.

Definition request_of (o : operation) : request :=
  match o with Status req | Chunk req | Finish req => req end.

(** The filesystem after each request of a sequence, the first one first. *)
Fixpoint states_after (ops : list operation) (s : filesystem) : list filesystem :=
  match ops with
  | [] => []
  | o :: ops' =>
      let s' := (serve (view o) s).1 in
      s' :: states_after ops' s'
  end.

End Vocabulary.

(** ** Sample data *)

(** The two [mkdir] calls at the top of [server.py], on an empty disk. *)
Definition fresh : filesystem :=
  default ∅ (mkdir_rev (default ∅ (mkdir_rev ∅ (rev UPLOAD_ROOT))) (rev TMP_DIR)).

Definition query (params : list (string * string)) (data : list Byte.byte) : request :=
  {| args := list_to_map params; body := data |}.

Definition hello : list Byte.byte :=
  [Byte.x68; Byte.x65; Byte.x6c; Byte.x6c; Byte.x6f].

(** ** The file count ([_count_files_excluding_tmp], [stats]) *)

(** [os.scandir(top)]: the entries of the directory, each with its name. *)
Definition scandir (s : filesystem) (top : path) : list (string * node) :=
  omap (λ kv : path * node,
          if bool_decide (kv.1 ≠ [] ∧ parent kv.1 = top)
          then Some (name_of kv.1, kv.2) else None)
       (map_to_list s).

Definition is_file (n : node) : bool :=
  match n with File _ => true | Dir => false end.

(** The names [os.walk] hands out for one directory. *)
Definition dirnames_of (entries : list (string * node)) : list string :=
  (filter (λ e : string * node, is_file e.2 = false) entries).*1.
Definition filenames_of (entries : list (string * node)) : list string :=
  (filter (λ e : string * node, is_file e.2 = true) entries).*1.

(** [sum(1 for f in filenames if not f.endswith(".part"))] *)
Definition count_not_part (filenames : list string) : Z :=
  Z.of_nat (length (filter (λ f, Py.endswith f ".part" = false) filenames)).

(** The loop of [_count_files_excluding_tmp] over [os.walk(top,
    topdown=True)]: what the loop adds to [total] for [top] and for
    everything the walk still visits below it. A [top] that is not a
    directory is not visited. The walk goes on in the directories left
    in [dirnames] after the body of the loop has run. [None] is for a
    walk that has used up its rounds. *)
Fixpoint walk_count (fuel : nat) (tmp_name : string) (s : filesystem)
    (top : path) : option Z :=
  match fuel with
  | O => None
  | S fuel' =>
      if is_dir s top then
        let entries := scandir s top in
        let dirnames := dirnames_of entries in
        let filenames := filenames_of entries in
        let dirnames := default dirnames (Py.remove tmp_name dirnames) in
        let here := count_not_part filenames in
        below ← mapM (λ d, walk_count fuel' tmp_name s (top ++ [d])) dirnames;
        Some (here + foldr Z.add 0 below)
      else Some 0
  end.

(** Every level of the walk is one more entry of the filesystem on the
    way down: one round more than there are entries is enough. *)
Definition _count_files_excluding_tmp (root tmp_dir : path) : M Z := λ s,
  match walk_count (S (size s)) (name_of tmp_dir) s root with
  | Some total => (s, Ok total)
  | None => (s, Raise Unfinished)
  end.

(** [GET /stats] *)
Definition stats : M response :=
  total ← _count_files_excluding_tmp UPLOAD_ROOT TMP_DIR;
  mret (Json 200 [("files"%string, JInt total)]).

(** ** The form upload ([upload_legacy]) *)

(** A [FileStorage]: the file name the browser sent and the bytes of the
    file. *)
Record file_storage := {
  filename : string;
  stream : list Byte.byte
}.

(** [request.files]: the file fields of the form, in the order sent. *)
Record form := {
  files : list (string * file_storage)
}.

(** [key in request.files] and [request.files.getlist(key)] *)
Definition files_has (req : form) (key : string) : bool :=
  existsb (λ kv : string * file_storage, bool_decide (kv.1 = key)) (files req).
Definition files_getlist (req : form) (key : string) : list file_storage :=
  (List.filter (λ kv : string * file_storage, bool_decide (kv.1 = key))
     (files req)).*2.

(** [open(p, "wb")]: the file is created, or emptied if it is there. *)
Definition open_write (p : path) : M () := λ s,
  match s !! p with
  | Some (File _) => (<[p := File []]> s, Ok ())
  | Some Dir => (s, Raise PermissionError)
  | None =>
      if is_dir s (parent p) then (<[p := File []]> s, Ok ())
      else (s, Raise FileNotFoundError)
  end.

(** The text answer of a view, or the error page. *)
Inductive reply :=
  | Text (status : Z) (text : string)
  | Failed (status : Z) (description : string).

Definition serve_text (view : M (string * Z)) (s : filesystem) : filesystem * reply :=
  match view s with
  | (s', Ok (text, status)) => (s', Text status text)
  | (s', Raise (HTTPException code description)) => (s', Failed code description)
  | (s', Raise _) => (s', Failed 500 "Internal Server Error")
  end.

Section Legacy.
Context `{Platform}.

(** [not f or not f.filename.strip()]: a [FileStorage] is false when its
    file name is empty. *)
Definition skipped (f : file_storage) : bool :=
  bool_decide (filename f = ""%string)
  || bool_decide (Py.strip (filename f) = ""%string).

(** The [for f in files] loop of [upload_legacy]. *)
Fixpoint legacy_loop (fs : list file_storage) (saved : Z) : M Z :=
  match fs with
  | [] => mret saved
  | f :: fs' =>
      if skipped f then legacy_loop fs' saved
      else
        let name := _safe_name (filename f) in
        dst ← _unique_path (_final_path name "");
        mkdir_parents (parent dst);;
        open_write dst;;
        copy_loop (S (length (stream f))) dst (stream f) 0;;
        legacy_loop fs' (saved + 1)
  end.

Definition uploaded (saved : Z) : string :=
  "Uploaded " +:+ pretty saved +:+ " file(s). <a href='/'>Back</a>".

(** [POST /upload] *)
Definition upload_legacy (req : form) : M (string * Z) :=
  if negb (files_has req "files") then abort 400 "No files part"
  else
    let fs := files_getlist req "files" in
    saved ← legacy_loop fs 0;
    mret (uploaded saved, 200).

End Legacy.

(** ** The vocabulary of the further properties *)

(** What the loop of [_safe_relpath] leaves alone. *)
Definition clean_segment (seg : string) : Prop :=
  Py.strip seg = seg
  ∧ ¬ (seg = "" ∨ seg = "." ∨ seg = "..")%string
  ∧ SAFE_SEG_match seg = true
  ∧ Py.prefix 255 seg = seg.

(** Chunk requests for one target that follow one another: the first at
    [offset], each next one where the one before has ended. *)
Fixpoint in_order (name : string) (size : Z) (relpath : string) (offset : Z)
    (reqs : list request) : Prop :=
  match reqs with
  | [] => True
  | req :: reqs' =>
      chunk_request req name size offset relpath
      ∧ in_order name size relpath (offset + Z.of_nat (length (body req))) reqs'
  end.

(** The answers to chunks in order when each is taken: the running
    total. *)
Fixpoint running_totals (offset : Z) (reqs : list request) : list response :=
  match reqs with
  | [] => []
  | req :: reqs' =>
      let total := offset + Z.of_nat (length (body req)) in
      Json 200 [("received"%string, JInt total)] :: running_totals total reqs'
  end.

(** The bytes of the bodies, one after the other. *)
Definition bodies (reqs : list request) : list Byte.byte :=
  concat (body <$> reqs).

Section Sessions.
Context `{Platform}.

(** Requests served one after the other: the filesystem at the end, and
    the answers. *)
Fixpoint serve_all (ops : list operation) (s : filesystem)
    : filesystem * list response :=
  match ops with
  | [] => (s, [])
  | o :: ops' =>
      let '(s1, r) := serve (view o) s in
      let '(s2, rs) := serve_all ops' s1 in
      (s2, r :: rs)
  end.

End Sessions.

Section LegacyVocabulary.
Context `{Platform}.

(** The files of a form that [upload_legacy] does not skip. *)
Definition accepted (fs : list file_storage) : list file_storage :=
  List.filter (λ f, negb (skipped f)) fs.

(** Where one file of the form goes. *)
Definition legacy_path (s : filesystem) (f : file_storage) : path :=
  destination s (_final_path (_safe_name (filename f)) "").

End LegacyVocabulary.

(** A regular file that [_count_files_excluding_tmp] counts: it lies
    below [root], through directories none of which has the name of the
    staging directory, and its own name does not end in [.part]. *)
Definition counted (s : filesystem) (tmp_name : string) (root k : path) : Prop :=
  ∃ (rel : list string) (x : string) (data : list Byte.byte),
    k = root ++ rel ++ [x]
    ∧ s !! k = Some (File data)
    ∧ Py.endswith x ".part" = false
    ∧ (tmp_name ∉ rel)
    ∧ ∀ q, q `prefix_of` rel → is_dir s (root ++ q) = true.

(** What the walk finds below the directory [d] of [top]: the list [l] of
    the files counted from there, each once, and their number. *)
Definition walked (fuel : nat) (s : filesystem) (tmp_name : string) (top : path)
    (d : string) (l : list path) : Prop :=
  NoDup l
  ∧ (∀ k, k ∈ l ↔ counted s tmp_name (top ++ [d]) k)
  ∧ walk_count fuel tmp_name s (top ++ [d]) = Some (Z.of_nat (length l)).

Section CountVocabulary.
Context `{Platform}.

(** Whether the walk of [_count_files_excluding_tmp] comes to the final
    file of a target and counts it. *)
Definition shown (relpath : string) (dest : path) : bool :=
  bool_decide (".incoming"%string ∉ _safe_relpath relpath)
  && negb (Py.endswith (name_of dest) ".part").

End CountVocabulary.

(** * Properties *)

(** ** The model at work *)

Example safe_relpath_ex1 :
  _safe_relpath "../../etc" = ["etc"]%string.
Proof. vm_compute. reflexivity. Qed.

Example safe_relpath_ex2 :
  _safe_relpath "a\b/ c: /./x y" = ["a"; "b"; "_"; "x y"]%string.
Proof. vm_compute. reflexivity. Qed.

Example safe_relpath_ex3 :
  _safe_relpath "..\..\windows/system32/./.. /" = ["windows"; "system32"]%string.
Proof. vm_compute. reflexivity. Qed.

Example strip_ex :
  Py.strip "  a b   " = "a b"%string ∧ Py.strip "   " = ""%string
  ∧ Py.strip ".. " = ".."%string.
Proof. vm_compute. repeat split. Qed.

Example int_ex : Py.int " -1_0 " = Some (-10) ∧ Py.int "abc" = None ∧ Py.int "" = None
  ∧ Py.int "007" = Some 7 ∧ Py.int "1__0" = None ∧ Py.int "+5" = Some 5
  ∧ Py.int (String "028" "10") = None ∧ Py.strip (String "028" "10") = "10"%string
  ∧ Py.int (String "160" "10") = Some 10.
Proof. vm_compute. repeat split. Qed.

Example secure_filename_ex :
  secure_filename "My cool movie.mov" = "My_cool_movie.mov"%string
  ∧ secure_filename "../../../etc/passwd" = "etc_passwd"%string
  ∧ secure_filename "con.txt" = "_con.txt"%string
  ∧ secure_filename "..." = ""%string
  ∧ secure_filename "a.txt" = "a.txt"%string
  ∧ secure_filename (String "c" (String "a" (String "f" (String "233" ".txt"))))
    = "cafe.txt"%string
  ∧ secure_filename "com0.txt" = "com0.txt"%string
  ∧ secure_filename "lpt1" = "_lpt1"%string.
Proof. vm_compute. repeat split. Qed.

Example paths_ex :
  _tmp_path "a.txt" "../../secrets"
    = ["D:"; "iphone8OLD"; "PhoneUploads"; ".incoming"; "secrets"; "a.txt.part"]%string
  ∧ _final_path "a.txt" "../../secrets"
    = ["D:"; "iphone8OLD"; "PhoneUploads"; "secrets"; "a.txt"]%string
  ∧ candidate (_final_path "a.txt" "") 1
    = ["D:"; "iphone8OLD"; "PhoneUploads"; "a (1).txt"]%string
  ∧ candidate (_final_path "archive.tar.gz" "") 12
    = ["D:"; "iphone8OLD"; "PhoneUploads"; "archive.tar (12).gz"]%string
  ∧ candidate (_final_path "README" "") 2
    = ["D:"; "iphone8OLD"; "PhoneUploads"; "README (2)"]%string.
Proof. vm_compute. repeat split. Qed.

(** ** Running a handler *)

Ltac run_M :=
  cbv beta iota zeta delta
    [mbind M_bind mret M_ret raise abort try_ exists_ st_size int_arg
     size_matches].

(** ** The stream and the copy loop *)

Lemma stream_read_take_drop {A} (n : N) (stream : list A) :
  stream_read n stream = (take (N.to_nat n) stream, drop (N.to_nat n) stream).
Proof.
  revert n. induction stream as [|b stream IH]; intros n; simpl.
  - by rewrite take_nil, drop_nil.
  - destruct (N.eqb_spec n 0) as [->|Hn]; [done|].
    rewrite IH. replace (N.to_nat n) with (S (N.to_nat (N.pred n))) by lia.
    done.
Qed.

Lemma stream_read_nil {A} (stream : list A) :
  (stream_read READ_SIZE stream).1 = [] → stream = [].
Proof. destruct stream; [done|]. simpl. by destruct (stream_read _ _). Qed.

Lemma stream_read_app {A} (n : N) (stream : list A) :
  (stream_read n stream).1 ++ (stream_read n stream).2 = stream.
Proof. rewrite stream_read_take_drop. apply take_drop. Qed.

Lemma stream_read_rest {A} (stream : list A) :
  (stream_read READ_SIZE stream).1 ≠ [] →
  (length (stream_read READ_SIZE stream).2 < length stream)%nat.
Proof.
  intros Hne. pose proof (stream_read_app READ_SIZE stream) as Happ.
  apply (f_equal length) in Happ. rewrite length_app in Happ.
  destruct (stream_read READ_SIZE stream).1; [done|]. simpl in Happ. lia.
Qed.

(** The loop ends, having appended the whole stream and counted it. *)
Lemma copy_loop_appends (fuel : nat) (out : path) (stream data : list Byte.byte)
    (written : Z) (s : filesystem) :
  (length stream < fuel)%nat →
  s !! out = Some (File data) →
  copy_loop fuel out stream written s
  = (<[out := File (data ++ stream)]> s,
     Ok (written + Z.of_nat (length stream))).
Proof.
  revert stream written data s.
  induction fuel as [|fuel IH]; intros stream written data s Hfuel Hout; [lia|].
  cbn [copy_loop].
  pose proof (stream_read_app READ_SIZE stream) as Happ.
  pose proof (stream_read_rest stream) as Hrest.
  pose proof (stream_read_nil stream) as Hnil.
  destruct (stream_read READ_SIZE stream) as [chunk rest]. simpl in *.
  destruct chunk as [|b chunk].
  - rewrite Hnil by done. rewrite app_nil_r, insert_id by done.
    run_M. do 2 f_equal. simpl. lia.
  - run_M. unfold write at 1. rewrite Hout.
    rewrite (IH rest _ (data ++ b :: chunk)).
    + rewrite insert_insert_eq, <-(assoc_L (++)), Happ.
      do 2 f_equal. rewrite <-Happ, length_app. lia.
    + specialize (Hrest ltac:(done)). lia.
    + by rewrite lookup_insert_eq.
Qed.

(** ** Directories *)

Lemma parent_snoc (p : path) (x : string) : parent (p ++ [x]) = p.
Proof. apply removelast_last. Qed.

Lemma is_dir_lookup (s : filesystem) (p : path) :
  p ≠ [] → is_dir s p = true ↔ s !! p = Some Dir.
Proof.
  intros Hp. unfold is_dir. destruct p as [|x p]; [done|].
  cbn. destruct (s !! (x :: p)) as [[data|]|]; split; intros; congruence.
Qed.

(** [mkdir] only adds directories, at free names on the way to its
    argument. *)
Lemma mkdir_rev_lookup (s s' : filesystem) (rp : list string) (k : path) :
  mkdir_rev s rp = Some s' →
  s' !! k = s !! k
  ∨ (s !! k = None ∧ s' !! k = Some Dir ∧ k `prefix_of` rev rp).
Proof.
  revert s'. induction rp as [|x rp IH]; intros s' Hmk; simpl in Hmk.
  { left. congruence. }
  destruct (s !! (rev rp ++ [x])) as [[data|]|] eqn:Hhere; simplify_eq.
  { by left. }
  destruct (mkdir_rev s rp) as [s1|] eqn:Hrec; simplify_eq.
  destruct (decide (k = rev rp ++ [x])) as [->|Hne].
  - right. rewrite lookup_insert_eq. done.
  - rewrite lookup_insert_ne by done.
    destruct (IH s1 eq_refl) as [?|(? & ? & ?)]; [by left|].
    right. split_and!; [done..|]. simpl. by apply prefix_app_r.
Qed.

Lemma mkdir_rev_keeps (s s' : filesystem) (rp : list string) (k : path) (n : node) :
  mkdir_rev s rp = Some s' → s !! k = Some n → s' !! k = Some n.
Proof.
  intros Hmk Hk. destruct (mkdir_rev_lookup s s' rp k Hmk) as [->|(? & _)];
    congruence.
Qed.

Lemma mkdir_rev_longer (s s' : filesystem) (rp : list string) (k : path) :
  mkdir_rev s rp = Some s' → (length rp < length k)%nat → s' !! k = s !! k.
Proof.
  intros Hmk Hlen. destruct (mkdir_rev_lookup s s' rp k Hmk) as [?|(_ & _ & Hpre)];
    [done|].
  apply prefix_length in Hpre. rewrite length_rev in Hpre. lia.
Qed.

Lemma mkdir_rev_is_dir (s s' : filesystem) (rp : list string) :
  mkdir_rev s rp = Some s' → is_dir s' (rev rp) = true.
Proof.
  destruct rp as [|x rp]; [done|]. intros Hmk.
  apply is_dir_lookup; [simpl; by destruct (rev rp)|].
  simpl in *.
  destruct (s !! (rev rp ++ [x])) as [[data|]|] eqn:Hhere; simplify_eq; [done|].
  destruct (mkdir_rev s rp) as [s1|]; simplify_eq. by rewrite lookup_insert_eq.
Qed.

(** A directory that is there is left as it is. *)
Lemma mkdir_rev_present (s : filesystem) (p : path) :
  is_dir s p = true → mkdir_rev s (rev p) = Some s.
Proof.
  intros Hdir. destruct (rev p) as [|x rp] eqn:Hrev; [done|].
  assert (p = rev (x :: rp)) as Hp by (by rewrite <-Hrev, rev_involutive).
  apply is_dir_lookup in Hdir; [|intros ->; done].
  cbn [mkdir_rev]. by rewrite <-Hp, Hdir.
Qed.

(** One missing level below a directory that is there. *)
Lemma mkdir_rev_child (s : filesystem) (p : path) (x : string) :
  is_dir s p = true →
  s !! (p ++ [x]) = None →
  mkdir_rev s (rev (p ++ [x])) = Some (<[p ++ [x] := Dir]> s).
Proof.
  intros Hdir Hfree. rewrite rev_unit. cbn [mkdir_rev].
  change (rev (x :: rev p)) with (rev (rev p) ++ [x]).
  rewrite rev_involutive, Hfree. by rewrite (mkdir_rev_present s p).
Qed.

Section Routes.
Context `{Platform}.

Lemma current_length_file (s : filesystem) (tmp : path) (data : list Byte.byte) :
  s !! tmp = Some (File data) → current_length s tmp = Z.of_nat (length data).
Proof. intros Hs. unfold current_length. by rewrite Hs. Qed.

Lemma current_length_missing (s : filesystem) (tmp : path) :
  s !! tmp = None → current_length s tmp = 0.
Proof. intros Hs. unfold current_length. by rewrite Hs. Qed.

Lemma current_length_nonneg (s : filesystem) (tmp : path) :
  0 ≤ dir_st_size → 0 ≤ current_length s tmp.
Proof.
  intros Hd. unfold current_length.
  destruct (s !! tmp) as [[data|]|]; simpl; lia.
Qed.

(** The first lines of [upload_chunk], up to the comparison of the
    offset. *)
Lemma upload_chunk_accepted (req : request) (name : string) (size offset : Z)
    (relpath : string) (s : filesystem) :
  chunk_request req name size offset relpath →
  upload_chunk req s =
    (let tmp := _tmp_path name relpath in
     let current := current_length s tmp in
     if negb (offset =? current) then mret (Json 409 (received current))
     else append_chunk size current tmp (body req)) s.
Proof.
  intros (Hname & Hsize & Hoffset & Hrel & Hne & Hs0 & Ho0).
  unfold upload_chunk. run_M. rewrite Hsize, Hoffset, Hname, Hrel.
  rewrite bool_decide_eq_false_2 by done.
  replace (size <? 0) with false by (symmetry; apply Z.ltb_ge; lia).
  replace (offset <? 0) with false by (symmetry; apply Z.ltb_ge; lia).
  cbn [orb]. unfold current_length.
  destruct (s !! _tmp_path name relpath) as [n|] eqn:Htmp.
  - rewrite bool_decide_eq_true_2 by eauto. rewrite Htmp. done.
  - rewrite bool_decide_eq_false_2 by (intros [? ?]; done). done.
Qed.

Lemma tmp_path_snoc (name relpath : string) :
  _tmp_path name relpath
  = (TMP_DIR ++ _safe_relpath relpath) ++ [_safe_name name +:+ ".part"].
Proof. unfold _tmp_path. by rewrite (assoc_L (++)). Qed.

Lemma final_path_snoc (name relpath : string) :
  _final_path name relpath
  = (UPLOAD_ROOT ++ _safe_relpath relpath) ++ [_safe_name name].
Proof. unfold _final_path. by rewrite (assoc_L (++)). Qed.

Lemma current_length_partial_bytes (s : filesystem) (tmp : path) :
  s !! tmp ≠ Some Dir →
  current_length s tmp = Z.of_nat (length (partial_bytes s tmp)).
Proof.
  intros Hnd. unfold current_length, partial_bytes.
  destruct (s !! tmp) as [[data|]|]; done.
Qed.

(** The accepted chunk: directories made, body appended, total judged. *)
Lemma append_chunk_appends (size current : Z) (q : path) (x : string)
    (stream : list Byte.byte) (s s1 : filesystem) :
  let tmp := q ++ [x] in
  mkdir_rev s (rev q) = Some s1 →
  s !! tmp ≠ Some Dir →
  append_chunk size current tmp stream s
  = (<[tmp := File (partial_bytes s tmp ++ stream)]> s1,
     let total := current + Z.of_nat (length stream) in
     if (size <? total) && (0 <? size)
     then Raise (HTTPException 400 "received more bytes than declared size")
     else Ok (Json 200 (received total))).
Proof.
  intros tmp Hmk Hnd. unfold append_chunk. run_M.
  unfold mkdir_parents, tmp. rewrite parent_snoc, Hmk. fold tmp.
  assert (s1 !! tmp = s !! tmp) as Hsame.
  { apply (mkdir_rev_longer s s1 (rev q)); [done|].
    unfold tmp. rewrite length_rev, length_app. simpl. lia. }
  unfold open_append, partial_bytes. rewrite Hsame.
  destruct (s !! tmp) as [[data|]|] eqn:Htmp; [|done|].
  - rewrite (copy_loop_appends _ _ _ data) by (lia || congruence).
    rewrite Z.add_0_l. by destruct (_ && _).
  - unfold tmp at 1. rewrite parent_snoc.
    rewrite <-(rev_involutive q) at 1. rewrite (mkdir_rev_is_dir s s1) by done.
    rewrite (copy_loop_appends _ _ _ []) by (lia || by rewrite lookup_insert_eq).
    rewrite insert_insert_eq, Z.add_0_l. by destruct (_ && _).
Qed.

Lemma upload_chunk_appends (req : request) (name : string) (size offset : Z)
    (relpath : string) (s s1 : filesystem) :
  chunk_request req name size offset relpath →
  let tmp := _tmp_path name relpath in
  offset = current_length s tmp →
  mkdir_rev s (rev (parent tmp)) = Some s1 →
  s !! tmp ≠ Some Dir →
  serve (upload_chunk req) s
  = (<[tmp := File (partial_bytes s tmp ++ body req)]> s1,
     let total := offset + Z.of_nat (length (body req)) in
     if (size <? total) && (0 <? size)
     then ErrorPage 400 "received more bytes than declared size"
     else Json 200 (received total)).
Proof.
  intros Hreq tmp Hoff Hmk Hnd. unfold serve.
  rewrite (upload_chunk_accepted req name size offset relpath) by done.
  cbv zeta. fold tmp. rewrite <-Hoff, Z.eqb_refl. cbn [negb].
  revert Hmk Hnd. unfold tmp. rewrite tmp_path_snoc, parent_snoc.
  intros Hmk Hnd. rewrite (append_chunk_appends _ _ _ _ _ s s1) by done.
  cbv zeta. by destruct (_ && _).
Qed.

End Routes.

(** ** Offsets ([upload_chunk]) *)

Section Chunk.
Context `{Platform}.

(** C1. A chunk request [(name, size, offset, relpath)] whose offset is
    not the length received so far (the size of the partial file, zero when
    there is none) leaves the filesystem as it is and is answered 409 with
    a body of one field, [received], that holds that length. *)
Theorem chunk_offset_mismatch_conflict (req : request) (name : string)
    (size offset : Z) (relpath : string) (s : filesystem) :
  chunk_request req name size offset relpath →
  offset ≠ match s !! _tmp_path name relpath with
           | Some part => node_size part
           | None => 0
           end →
  serve (upload_chunk req) s
  = (s, Json 409 [("received"%string,
                   JInt match s !! _tmp_path name relpath with
                        | Some part => node_size part
                        | None => 0
                        end)]).
Proof.
  intros Hreq Hoff. unfold serve.
  rewrite (upload_chunk_accepted req name size offset relpath) by done.
  cbv zeta. unfold current_length. by rewrite (proj2 (Z.eqb_neq _ _) Hoff).
Qed.

(** C2, as the code has it. A chunk request whose offset is the length
    received so far, when the staging directory is there or can be made
    and the partial path is not a directory: the directories are made, the
    whole body is appended to the partial file, whose length becomes the
    former length plus the bytes written, and that total is returned in
    [received], unless it is above a declared size that is not zero: then
    the answer is 400, after the append. *)
Theorem chunk_append_received (req : request) (name : string)
    (size offset : Z) (relpath : string) (s s1 : filesystem) :
  chunk_request req name size offset relpath →
  offset = current_length s (_tmp_path name relpath) →
  mkdir_rev s (rev (parent (_tmp_path name relpath))) = Some s1 →
  s !! _tmp_path name relpath ≠ Some Dir →
  let tmp := _tmp_path name relpath in
  let appended := partial_bytes s tmp ++ body req in
  let total := offset + Z.of_nat (length (body req)) in
  is_dir s1 (parent tmp) = true
  ∧ Z.of_nat (length appended) = total
  ∧ serve (upload_chunk req) s
    = (<[tmp := File appended]> s1,
       if (size <? total) && (0 <? size)
       then ErrorPage 400 "received more bytes than declared size"
       else Json 200 [("received"%string, JInt total)]).
Proof.
  intros Hreq Hoff Hmk Hnd tmp appended total. split_and!.
  - rewrite <-(rev_involutive (parent tmp)). by eapply mkdir_rev_is_dir.
  - unfold appended, total. rewrite length_app, Hoff.
    rewrite current_length_partial_bytes by done. fold tmp. lia.
  - by apply upload_chunk_appends.
Qed.

(** C6. A chunk accepted at its offset (the request is well formed, the
    offset is the length received so far, and the body can be appended)
    whose total is above a declared size that is not zero is answered 400
    after the append: the partial file holds its former bytes and then the
    whole body, and nothing else has changed but the directories made for
    it. The declared size lives in the request only; the server keeps no
    record of it. *)
Theorem chunk_size_exceeded_after_append (req : request) (name : string)
    (size offset : Z) (relpath : string) (s s1 : filesystem) :
  chunk_request req name size offset relpath →
  offset = current_length s (_tmp_path name relpath) →
  mkdir_rev s (rev (parent (_tmp_path name relpath))) = Some s1 →
  s !! _tmp_path name relpath ≠ Some Dir →
  0 < size < offset + Z.of_nat (length (body req)) →
  let tmp := _tmp_path name relpath in
  serve (upload_chunk req) s
  = (<[tmp := File (partial_bytes s tmp ++ body req)]> s1,
     ErrorPage 400 "received more bytes than declared size")
  ∧ current_length (serve (upload_chunk req) s).1 tmp
    = offset + Z.of_nat (length (body req)).
Proof.
  intros Hreq Hoff Hmk Hnd [Hpos Hexc] tmp.
  rewrite (upload_chunk_appends req name size offset relpath s s1) by done.
  cbv zeta. fold tmp.
  rewrite (proj2 (Z.ltb_lt _ _) Hexc), (proj2 (Z.ltb_lt _ _) Hpos).
  split; [done|]. cbn [fst]. unfold current_length.
  rewrite lookup_insert_eq. cbn [node_size]. rewrite length_app, Hoff.
  rewrite current_length_partial_bytes by done. fold tmp. lia.
Qed.

End Chunk.

(** *** On sample requests *)

Ltac sample :=
  repeat match goal with
  | |- _ ∧ _ => split
  | |- _ ≠ _ => vm_compute; discriminate
  | |- _ => vm_compute; (reflexivity || discriminate || done)
  end.

Lemma chunk_offset_mismatch_conflict_witness :
  let req := query [("name", "photo.jpg"); ("size", "1000"); ("offset", "500")]%string hello in
  let s := <[_tmp_path "photo.jpg" "" := File hello]> fresh in
  serve (upload_chunk req) s = (s, Json 409 [("received"%string, JInt 5)]).
Proof.
  intros req s.
  rewrite (chunk_offset_mismatch_conflict req "photo.jpg" 1000 500 "" s).
  - apply (f_equal (pair s)). vm_compute. reflexivity.
  - unfold chunk_request. sample.
  - sample.
Defined.

(** C2 as stated fails on a body that takes the total above the declared
    size: the offset is the length received so far (zero), the five bytes
    are appended, and the answer is 400, not [received = 5]. *)
Lemma chunk_received_counterexample :
  let req := query [("name", "a.txt"); ("size", "3"); ("offset", "0")]%string hello in
  let tmp := _tmp_path "a.txt" "" in
  chunk_request req "a.txt" 3 0 ""
  ∧ current_length fresh tmp = 0
  ∧ (serve (upload_chunk req) fresh).2
    = ErrorPage 400 "received more bytes than declared size"
  ∧ (serve (upload_chunk req) fresh).1 !! tmp = Some (File hello).
Proof. intros req tmp. unfold chunk_request. sample. Qed.

Lemma chunk_append_received_witness :
  let req := query [("name", "photo.jpg"); ("size", "1000"); ("offset", "0");
                    ("relpath", "trip")]%string hello in
  let tmp := _tmp_path "photo.jpg" "trip" in
  let s1 := <[TMP_DIR ++ ["trip"%string] := Dir]> fresh in
  serve (upload_chunk req) fresh
  = (<[tmp := File hello]> s1, Json 200 [("received"%string, JInt 5)]).
Proof.
  intros req tmp s1.
  destruct (chunk_append_received req "photo.jpg" 1000 0 "trip" fresh s1)
    as (_ & _ & Hrun); [unfold chunk_request; sample|sample| |sample|].
  { replace (parent (_tmp_path "photo.jpg" "trip"))
      with (TMP_DIR ++ ["trip"%string]) by (vm_compute; reflexivity).
    apply mkdir_rev_child; sample. }
  rewrite Hrun. fold tmp.
  replace (partial_bytes fresh tmp) with (@nil Byte.byte) by (vm_compute; reflexivity).
  reflexivity.
Defined.

Lemma chunk_size_exceeded_after_append_witness :
  let req := query [("name", "a.txt"); ("size", "7"); ("offset", "5")]%string hello in
  let tmp := _tmp_path "a.txt" "" in
  let s := <[tmp := File hello]> fresh in
  serve (upload_chunk req) s
  = (<[tmp := File (hello ++ hello)]> s,
     ErrorPage 400 "received more bytes than declared size").
Proof.
  intros req tmp s.
  destruct (chunk_size_exceeded_after_append req "a.txt" 7 5 "" s s)
    as [Hrun _]; [unfold chunk_request; sample|sample| |sample..|].
  { apply mkdir_rev_present. sample. }
  rewrite Hrun. fold tmp.
  replace (partial_bytes s tmp) with hello by (vm_compute; reflexivity).
  reflexivity.
Defined.

(** ** Status ([upload_status]) *)

Section Status.
Context `{Platform}.

(** [upload_status] writes nothing, whatever the request. *)
Lemma upload_status_reads (req : request) (s : filesystem) :
  (upload_status req s).1 = s.
Proof.
  unfold upload_status. run_M.
  destruct (declared req "size") as [size|]; [|done].
  destruct (_ || _); [done|].
  destruct (s !! _tmp_path _ _) as [part|] eqn:Htmp.
  { rewrite bool_decide_eq_true_2 by eauto. by rewrite Htmp. }
  rewrite bool_decide_eq_false_2 by (intros [? ?]; done).
  destruct (s !! _final_path _ _) as [fin|] eqn:Hfin.
  - rewrite bool_decide_eq_true_2 by eauto.
    destruct (size =? 0); [by rewrite Hfin|].
    rewrite Hfin. destruct (_ =? _); [done|]. by rewrite Hfin.
  - by rewrite bool_decide_eq_false_2 by (intros [? ?]; done).
Qed.

(** C7. A status request for [(name, relpath, size)] leaves the filesystem
    as it is. If the partial file is there, the answer is its length in
    [received], with no [complete]. Otherwise, if the final file is there,
    the answer has [complete: true] exactly when the declared size is zero
    (none declared) or is the size of the final file, and [received] is the
    size of the final file either way. Otherwise [received] is zero. *)
Theorem status_answer (req : request) (name : string) (size : Z)
    (relpath : string) (s : filesystem) :
  status_request req name size relpath →
  serve (upload_status req) s
  = (s,
     match s !! _tmp_path name relpath with
     | Some part => Json 200 [("received"%string, JInt (node_size part))]
     | None =>
         match s !! _final_path name relpath with
         | Some fin =>
             if bool_decide (size = 0 ∨ node_size fin = size)
             then Json 200 [("received"%string, JInt (node_size fin));
                            ("complete"%string, JBool true)]
             else Json 200 [("received"%string, JInt (node_size fin))]
         | None => Json 200 [("received"%string, JInt 0)]
         end
     end).
Proof.
  intros (Hname & Hsize & Hrel & Hne & Hs0).
  unfold serve, upload_status. run_M. rewrite Hsize, Hname, Hrel.
  rewrite bool_decide_eq_false_2 by done.
  replace (size <? 0) with false by (symmetry; apply Z.ltb_ge; lia).
  cbn [orb].
  destruct (s !! _tmp_path name relpath) as [part|] eqn:Htmp.
  { rewrite bool_decide_eq_true_2 by eauto. by rewrite Htmp. }
  rewrite bool_decide_eq_false_2 by (intros [? ?]; done).
  destruct (s !! _final_path name relpath) as [fin|] eqn:Hfin.
  2: { by rewrite bool_decide_eq_false_2 by (intros [? ?]; done). }
  rewrite bool_decide_eq_true_2 by eauto.
  destruct (Z.eqb_spec size 0) as [->|Hsz].
  { rewrite Hfin. by rewrite bool_decide_eq_true_2 by (by left). }
  rewrite Hfin. destruct (Z.eqb_spec (node_size fin) size) as [Heq|Hneq].
  - rewrite bool_decide_eq_true_2 by (by right). by rewrite Heq.
  - rewrite Hfin. by rewrite bool_decide_eq_false_2 by (intros [?|?]; done).
Qed.

End Status.

Lemma status_answer_witness :
  let req := query [("name", "photo.jpg"); ("size", "5")]%string [] in
  let s := <[_final_path "photo.jpg" "" := File hello]> fresh in
  serve (upload_status req) s
  = (s, Json 200 [("received"%string, JInt 5); ("complete"%string, JBool true)]).
Proof.
  intros req s.
  rewrite (status_answer req "photo.jpg" 5 "" s);
    [|unfold status_request; sample].
  f_equal; vm_compute; reflexivity.
Defined.

(** ** Parameter checks ([upload_status], [upload_chunk]) *)

Section Validation.
Context `{Platform}.

Lemma declared_missing (req : request) (key : string) :
  args req !! key = None ∨ args req !! key = Some ""%string →
  declared req key = Some 0.
Proof.
  intros Hkey. unfold declared, args_get.
  destruct Hkey as [-> | ->]; done.
Qed.

(** Past their parameter checks, [upload_status] and [upload_chunk] never
    answer with the message of the check. *)
Lemma upload_status_past_check (req : request) (name : string) (size : Z)
    (relpath : string) (s : filesystem) :
  status_request req name size relpath →
  (serve (upload_status req) s).2 ≠ ErrorPage 400 "name/size required".
Proof.
  intros (Hname & Hsize & Hrel & Hne & Hs0).
  unfold serve, upload_status. run_M. rewrite Hsize, Hname, Hrel.
  rewrite bool_decide_eq_false_2 by done.
  replace (size <? 0) with false by (symmetry; apply Z.ltb_ge; lia).
  cbn [orb].
  destruct (s !! _tmp_path name relpath) as [part|] eqn:Htmp.
  { rewrite bool_decide_eq_true_2 by eauto. by rewrite Htmp. }
  rewrite bool_decide_eq_false_2 by (intros [? ?]; done).
  destruct (s !! _final_path name relpath) as [fin|] eqn:Hfin.
  2: { by rewrite bool_decide_eq_false_2 by (intros [? ?]; done). }
  rewrite bool_decide_eq_true_2 by eauto.
  destruct (size =? 0); [by rewrite Hfin|].
  rewrite Hfin. destruct (_ =? _); [done|]. by rewrite Hfin.
Qed.

Lemma upload_chunk_past_check (req : request) (name : string) (size offset : Z)
    (relpath : string) (s : filesystem) :
  chunk_request req name size offset relpath →
  (serve (upload_chunk req) s).2 ≠ ErrorPage 400 "name/size/offset required".
Proof.
  intros Hreq. unfold serve.
  rewrite (upload_chunk_accepted req name size offset relpath) by done.
  cbv zeta. destruct (negb _); [done|].
  unfold append_chunk. run_M. unfold mkdir_parents.
  destruct (mkdir_rev s _) as [s1|]; [|done].
  unfold open_append.
  destruct (s1 !! _tmp_path name relpath) as [[data|]|] eqn:Htmp; [|done|].
  - rewrite (copy_loop_appends _ _ _ data) by (lia || done).
    by destruct (_ && _).
  - destruct (is_dir s1 _); [|done].
    rewrite (copy_loop_appends _ _ _ []) by (lia || by rewrite lookup_insert_eq).
    by destruct (_ && _).
Qed.

(** C9, as the code has it. For a request whose size and offset, where
    given, are integer literals: [upload_status] answers 400 "name/size
    required", with the filesystem untouched, exactly when the name is
    missing or empty or the size is negative; [upload_chunk] answers 400
    "name/size/offset required", with the filesystem untouched, exactly
    when the name is missing or empty or the size or the offset is
    negative. A size or an offset that is missing or empty counts as zero,
    and zero is accepted. *)
Theorem parameter_check (req : request) (size offset : Z) (s : filesystem) :
  declared req "size" = Some size →
  declared req "offset" = Some offset →
  let name := args_get req "name" "" in
  (serve (upload_status req) s = (s, ErrorPage 400 "name/size required")
   ↔ name = ""%string ∨ size < 0)
  ∧ (serve (upload_chunk req) s = (s, ErrorPage 400 "name/size/offset required")
     ↔ name = ""%string ∨ size < 0 ∨ offset < 0)
  ∧ (args req !! "size"%string = None ∨ args req !! "size"%string = Some ""%string
     → size = 0)
  ∧ (args req !! "offset"%string = None ∨ args req !! "offset"%string = Some ""%string
     → offset = 0).
Proof.
  intros Hsize Hoffset name. split_and!.
  - split.
    + intros Hrun.
      destruct (decide (name = ""%string)) as [|Hne]; [by left|].
      destruct (decide (size < 0)) as [|Hs0]; [by right|]. exfalso.
      apply (upload_status_past_check req name size (args_get req "relpath" "") s).
      { unfold status_request; split_and!; (done || lia). }
      by rewrite Hrun.
    + intros Hbad. unfold serve, upload_status. run_M. rewrite Hsize. fold name.
      destruct Hbad as [-> | Hneg]; [done|].
      rewrite (proj2 (Z.ltb_lt _ _) Hneg). by rewrite orb_true_r.
  - split.
    + intros Hrun.
      destruct (decide (name = ""%string)) as [|Hne]; [by left|].
      destruct (decide (size < 0)) as [|Hs0]; [by right; left|].
      destruct (decide (offset < 0)) as [|Ho0]; [by right; right|]. exfalso.
      apply (upload_chunk_past_check req name size offset (args_get req "relpath" "") s).
      { unfold chunk_request; split_and!; (done || lia). }
      by rewrite Hrun.
    + intros Hbad. unfold serve, upload_chunk. run_M. rewrite Hsize, Hoffset.
      fold name.
      destruct Hbad as [-> | [Hneg | Hneg]]; [done|..];
        rewrite (proj2 (Z.ltb_lt _ _) Hneg); by rewrite ?orb_true_r.
  - intros Hkey. apply declared_missing in Hkey. congruence.
  - intros Hkey. apply declared_missing in Hkey. congruence.
Qed.

End Validation.

(** C9 as stated fails on a request that gives no size, and no offset:
    the status request is answered 200, and the chunk request is accepted
    and written. *)
Lemma parameter_check_counterexample :
  let status := query [("name", "photo.jpg")]%string [] in
  let chunk := query [("name", "photo.jpg")]%string hello in
  args status !! "size"%string = None
  ∧ (serve (upload_status status) fresh).2 = Json 200 [("received"%string, JInt 0)]
  ∧ args chunk !! "size"%string = None
  ∧ args chunk !! "offset"%string = None
  ∧ (serve (upload_chunk chunk) fresh).2 = Json 200 [("received"%string, JInt 5)]
  ∧ (serve (upload_chunk chunk) fresh).1 !! _tmp_path "photo.jpg" ""
    = Some (File hello).
Proof. intros status chunk. sample. Qed.

Lemma parameter_check_witness :
  let req := query [("size", "-1"); ("offset", "3")]%string hello in
  serve (upload_status req) fresh = (fresh, ErrorPage 400 "name/size required")
  ∧ serve (upload_chunk req) fresh
    = (fresh, ErrorPage 400 "name/size/offset required").
Proof.
  intros req.
  destruct (parameter_check req (-1) 3 fresh) as (Hstatus & Hchunk & _);
    [sample..|].
  split; [apply Hstatus|apply Hchunk]; left; vm_compute; reflexivity.
Defined.

(** A size that is no integer literal makes [int] raise, which nobody
    catches. *)
Example status_size_not_a_number :
  (serve (upload_status (query [("name", "photo.jpg"); ("size", "1e3")]%string [])) fresh).2
  = ErrorPage 500 "Internal Server Error".
Proof. sample. Qed.

(** ** Free names ([_unique_path]) *)

Lemma string_app_cons (c : ascii) (s t : string) :
  String c s +:+ t = String c (s +:+ t).
Proof. reflexivity. Qed.

Lemma string_app_length (s1 s2 : string) :
  String.length (s1 +:+ s2) = (String.length s1 + String.length s2)%nat.
Proof.
  induction s1 as [|c s1 IH]; [done|].
  rewrite string_app_cons. simpl. by rewrite IH.
Qed.

Lemma string_app_inv_tail (s1 s2 t : string) :
  s1 +:+ t = s2 +:+ t → s1 = s2.
Proof.
  revert s2. induction s1 as [|c s1 IH]; intros [|d s2] Heq.
  - done.
  - apply (f_equal String.length) in Heq.
    rewrite !string_app_length in Heq. simpl in Heq. lia.
  - apply (f_equal String.length) in Heq.
    rewrite !string_app_length in Heq. simpl in Heq. lia.
  - rewrite !string_app_cons in Heq. injection Heq as -> Heq.
    f_equal. by apply IH.
Qed.

Lemma parent_with_name (p : path) (n : string) : parent (with_name p n) = parent p.
Proof. unfold with_name. apply parent_snoc. Qed.

Section Unique.
Context `{Platform}.

Lemma parent_candidate (p : path) (i : Z) : parent (candidate p i) = parent p.
Proof. apply parent_with_name. Qed.

Global Instance candidate_inj (p : path) : Inj (=) (=) (candidate p).
Proof.
  intros i j Heq. unfold candidate, with_name in Heq.
  apply app_inj_tail in Heq as [_ Heq].
  apply (inj (String.app _)), (inj (String.app _)) in Heq.
  apply string_app_inv_tail in Heq. by apply (inj pretty).
Qed.

Lemma candidates_NoDup (p : path) (i : Z) (n : nat) : NoDup (candidates p i n).
Proof.
  unfold candidates. apply NoDup_fmap_2_strong; [|apply NoDup_seq].
  intros k1 k2 _ _ Heq. apply (inj (candidate p)) in Heq. lia.
Qed.

(** No more names can be taken than the filesystem has entries. *)
Lemma candidates_taken (p : path) (i : Z) (n : nat) (s : filesystem) :
  (∀ k : nat, (k < n)%nat → is_Some (s !! candidate p (i + Z.of_nat k))) →
  (n ≤ size s)%nat.
Proof.
  intros Htaken.
  assert (list_to_set (candidates p i n) ⊆ dom s) as Hsub.
  { intros q Hq. apply elem_of_list_to_set in Hq.
    unfold candidates in Hq. apply list_elem_of_fmap in Hq as (k & -> & Hk).
    apply elem_of_seq in Hk. apply elem_of_dom, Htaken. lia. }
  apply subseteq_size in Hsub.
  rewrite size_list_to_set in Hsub by apply candidates_NoDup.
  rewrite size_dom in Hsub. unfold candidates in Hsub.
  by rewrite length_fmap, length_seq in Hsub.
Qed.

(** Among the first [n] names from [i] on, either all are taken or there
    is a first free one. *)
Lemma first_free (p : path) (i : Z) (n : nat) (s : filesystem) :
  (∀ k : nat, (k < n)%nat → is_Some (s !! candidate p (i + Z.of_nat k)))
  ∨ ∃ k : nat, (k < n)%nat ∧ s !! candidate p (i + Z.of_nat k) = None
      ∧ ∀ j : nat, (j < k)%nat → is_Some (s !! candidate p (i + Z.of_nat j)).
Proof.
  induction n as [|n [IH|IH]].
  - left. lia.
  - destruct (s !! candidate p (i + Z.of_nat n)) as [x|] eqn:Hn.
    + left. intros k Hk. destruct (decide (k = n)) as [->|]; [eauto|].
      apply IH. lia.
    + right. exists n. split_and!; [lia|done|done].
  - right. destruct IH as (k & ? & ? & ?). exists k. split_and!; [lia|done..].
Qed.

(** The loop returns the first free name, given rounds to reach it. *)
Lemma unique_path_loop_first (fuel : nat) (p : path) (i : Z) (k : nat)
    (s : filesystem) :
  (k < fuel)%nat →
  s !! candidate p (i + Z.of_nat k) = None →
  (∀ j : nat, (j < k)%nat → is_Some (s !! candidate p (i + Z.of_nat j))) →
  unique_path_loop fuel p i s = (s, Ok (candidate p (i + Z.of_nat k))).
Proof.
  revert i k. induction fuel as [|fuel IH]; intros i k Hfuel Hfree Htaken; [lia|].
  cbn [unique_path_loop]. run_M. destruct k as [|k].
  - rewrite Z.add_0_r in Hfree |- *. rewrite Hfree.
    by rewrite bool_decide_eq_false_2 by (intros [? ?]; done).
  - specialize (Htaken 0%nat ltac:(lia)) as Hnow. rewrite Z.add_0_r in Hnow.
    rewrite bool_decide_eq_true_2 by done. cbn [negb].
    rewrite (IH (i + 1) k); [|lia|..].
    + do 3 f_equal. lia.
    + rewrite <-Hfree. do 2 f_equal. lia.
    + intros j Hj. specialize (Htaken (S j) ltac:(lia)).
      replace (i + 1 + Z.of_nat j) with (i + Z.of_nat (S j)) by lia. done.
Qed.

(** [_unique_path] on a taken name: it ends, on the name with the least
    counter from 1 on that is free, and leaves the filesystem as it is. *)
Lemma unique_path_taken (p : path) (s : filesystem) :
  is_Some (s !! p) →
  ∃ i, 1 ≤ i
    ∧ s !! candidate p i = None
    ∧ (∀ j, 1 ≤ j < i → is_Some (s !! candidate p j))
    ∧ _unique_path p s = (s, Ok (candidate p i)).
Proof.
  intros Hp.
  destruct (first_free p 1 (S (size s)) s) as [Hall|(k & Hk & Hfree & Htaken)].
  { apply candidates_taken in Hall. lia. }
  exists (1 + Z.of_nat k). split_and!; [lia|done|..].
  - intros j Hj. specialize (Htaken (Z.to_nat (j - 1)) ltac:(lia)).
    by replace (1 + Z.of_nat (Z.to_nat (j - 1))) with j in Htaken by lia.
  - unfold _unique_path. run_M. rewrite bool_decide_eq_true_2 by done.
    cbn [negb]. by apply unique_path_loop_first.
Qed.

Lemma unique_path_free (p : path) (s : filesystem) :
  s !! p = None → _unique_path p s = (s, Ok p).
Proof.
  intros Hp. unfold _unique_path. run_M.
  by rewrite bool_decide_eq_false_2 by (intros [? ?]; congruence).
Qed.

End Unique.

(** ** Finishing ([upload_finish]) *)

Lemma well_formed_parent (s : filesystem) (p : path) (n : node) :
  well_formed s = true → s !! p = Some n → is_dir s (parent p) = true.
Proof.
  unfold well_formed. rewrite forallb_forall. intros Hwf Hp.
  apply (Hwf (p, n)), list_elem_of_In, elem_of_map_to_list. done.
Qed.

Lemma prefix_suffix_from (i : nat) (n : string) :
  Py.prefix i n +:+ Py.suffix_from i n = n.
Proof.
  revert n. induction i as [|i IH]; intros [|c n]; try done.
  cbn [Py.prefix Py.suffix_from]. rewrite string_app_cons. by rewrite IH.
Qed.

Lemma string_app_nil_r (s : string) : s +:+ "" = s.
Proof.
  induction s as [|c s IH]; [done|]. by rewrite string_app_cons, IH.
Qed.

(** Stem and suffix make up the name. *)
Lemma stem_suffix (p : path) : stem p +:+ suffix p = name_of p.
Proof.
  unfold stem, suffix, split_ext.
  destruct (Py.rfind_dot (name_of p)) as [i|]; [|apply string_app_nil_r].
  case_bool_decide; cbn [fst snd].
  - apply prefix_suffix_from.
  - apply string_app_nil_r.
Qed.

Lemma suffix_from_rfind_dot (n : string) (i : nat) :
  Py.rfind_dot n = Some i →
  ∃ rest, Py.suffix_from i n = String "."%char rest ∧ Py.rfind_dot rest = None.
Proof.
  revert i. induction n as [|c n IH]; intros i Hi; [done|].
  cbn [Py.rfind_dot] in Hi. destruct (Py.rfind_dot n) as [j|] eqn:Hn.
  - injection Hi as <-. cbn [Py.suffix_from]. by apply IH.
  - destruct (decide (c = "."%char)) as [->|]; [|done].
    injection Hi as <-. by exists n.
Qed.

(** The suffix is empty, or a dot and then a part without a dot. *)
Lemma suffix_shape (p : path) :
  suffix p = ""%string
  ∨ ∃ rest, suffix p = String "."%char rest ∧ Py.rfind_dot rest = None.
Proof.
  unfold suffix, split_ext.
  destruct (Py.rfind_dot (name_of p)) as [i|] eqn:Hdot; [|by left].
  case_bool_decide; cbn [snd]; [|by left].
  right. by apply suffix_from_rfind_dot.
Qed.

Lemma rfind_dot_app (a rest : string) :
  Py.rfind_dot rest = None →
  Py.rfind_dot (a +:+ String "."%char rest) = Some (String.length a).
Proof.
  intros Hrest. induction a as [|c a IH].
  - change (Py.rfind_dot (String "." rest) = Some 0%nat).
    cbn [Py.rfind_dot]. rewrite Hrest. by rewrite decide_True.
  - rewrite string_app_cons. cbn [Py.rfind_dot]. by rewrite IH.
Qed.

Lemma py_prefix_app (a b : string) :
  Py.prefix (String.length a) (a +:+ b) = a.
Proof.
  induction a as [|c a IH]; [by destruct b|].
  rewrite string_app_cons. cbn. by rewrite IH.
Qed.

Lemma py_suffix_from_app (a b : string) :
  Py.suffix_from (String.length a) (a +:+ b) = b.
Proof.
  induction a as [|c a IH]; [by destruct b|].
  rewrite string_app_cons. cbn. by rewrite IH.
Qed.

Lemma name_of_snoc (p : path) (x : string) : name_of (p ++ [x]) = x.
Proof. unfold name_of. apply last_last. Qed.

Lemma string_app_assoc (a b c : string) : (a +:+ b) +:+ c = a +:+ (b +:+ c).
Proof.
  induction a as [|d a IH]; [done|]. by rewrite !string_app_cons, IH.
Qed.

(** A name that ends in a dot and a part without dots, with something
    before the dot and something after it, is cut at that dot. *)
Lemma split_ext_app (a rest : string) :
  a ≠ ""%string → rest ≠ ""%string → Py.rfind_dot rest = None →
  split_ext (a +:+ String "."%char rest) = (a, String "."%char rest).
Proof.
  intros Ha Hr Hdot. unfold split_ext. rewrite rfind_dot_app by done.
  rewrite bool_decide_eq_true_2.
  - by rewrite py_prefix_app, py_suffix_from_app.
  - rewrite string_app_length. destruct a; [done|]. destruct rest; [done|].
    simpl. lia.
Qed.

(** The suffix of a path, when there is one, has a character after its
    dot. *)
Lemma py_prefix_length (i : nat) (n : string) :
  String.length (Py.prefix i n) = (i `min` String.length n)%nat.
Proof.
  revert n. induction i as [|i IH]; intros [|c n]; try done.
  cbn. by rewrite IH.
Qed.

Lemma suffix_rest (p : path) (rest : string) :
  suffix p = String "."%char rest → rest ≠ ""%string ∧ stem p ≠ ""%string.
Proof.
  unfold suffix, stem, split_ext.
  destruct (Py.rfind_dot (name_of p)) as [i|]; [|done].
  case_bool_decide as Hi; [|done]. cbn [fst snd]. intros Hsuf.
  pose proof (prefix_suffix_from i (name_of p)) as Happ.
  apply (f_equal String.length) in Happ.
  rewrite string_app_length, Hsuf, py_prefix_length in Happ.
  cbn [String.length] in Happ.
  split.
  - intros ->. simpl in Happ. lia.
  - intros Hstem%(f_equal String.length). rewrite py_prefix_length in Hstem.
    simpl in Hstem. lia.
Qed.

(** A string has no dot in it. The other direction of [rfind_dot]. *)
Lemma rfind_dot_no_dot (ext : string) :
  no_dot ext → Py.rfind_dot ext = None.
Proof.
  unfold no_dot. induction ext as [|c ext IH]; intros Hno; [done|].
  cbn [Py.rfind_dot]. rewrite IH.
  - destruct (decide (c = "."%char)) as [->|]; [|done].
    by destruct (Hno ""%string ext).
  - intros b d ->. by destruct (Hno (String c b) d).
Qed.

Lemma rfind_dot_some_dot (ext : string) :
  Py.rfind_dot ext = None → no_dot ext.
Proof.
  intros Hnone b c ->. revert Hnone. induction b as [|x b IH].
  - change (Py.rfind_dot (String "." c) = None → False).
    cbn [Py.rfind_dot]. destruct (Py.rfind_dot c); [done|]. by rewrite decide_True.
  - rewrite string_app_cons. cbn [Py.rfind_dot].
    destruct (Py.rfind_dot (b +:+ String "." c)); [done|]. intros _. by apply IH.
Qed.

(** A name with no dot, or whose last dot is its first or its last
    character, is not cut. *)
Lemma split_ext_none (n : string) :
  (∀ a ext, n = a +:+ String "."%char ext → no_dot ext →
     a = ""%string ∨ ext = ""%string) →
  split_ext n = (n, ""%string).
Proof.
  intros Hno. unfold split_ext.
  destruct (Py.rfind_dot n) as [i|] eqn:Hdot; [|done].
  case_bool_decide as Hi; [|done].
  destruct (suffix_from_rfind_dot n i Hdot) as (rest & Hsuf & Hrest).
  pose proof (prefix_suffix_from i n) as Happ. rewrite Hsuf in Happ.
  pose proof (f_equal String.length Happ) as Hlen.
  rewrite string_app_length, py_prefix_length in Hlen. cbn [String.length] in Hlen.
  destruct (Hno (Py.prefix i n) rest) as [Ha| ->];
    [done|by apply rfind_dot_some_dot|..].
  - apply (f_equal String.length) in Ha. rewrite py_prefix_length in Ha.
    simpl in Ha. lia.
  - simpl in Hlen. lia.
Qed.

Lemma os_replace_file (src dst : path) (data : list Byte.byte) (s : filesystem) :
  s !! src = Some (File data) →
  is_dir s (parent dst) = true →
  s !! dst = None →
  os_replace src dst s = (<[dst := File data]> (delete src s), Ok ()).
Proof. intros Hsrc Hdir Hdst. unfold os_replace. by rewrite Hsrc, Hdir, Hdst. Qed.

Section Finish.
Context `{Platform}.

Lemma atomic_move_file (src dst : path) (data : list Byte.byte) (s : filesystem) :
  s !! src = Some (File data) →
  is_dir s (parent dst) = true →
  s !! dst = None →
  _atomic_move_with_retry src dst s = (<[dst := File data]> (delete src s), Ok ()).
Proof.
  intros Hsrc Hdir Hdst. unfold _atomic_move_with_retry.
  cbn [replace_attempts]. run_M. by rewrite (os_replace_file src dst data).
Qed.

(** The partial file is there, the final name [q ++ [x]] is free and its
    directory can be made: the partial file is moved there. *)
Lemma finish_from_moves (size : Z) (tmp q : path) (x : string)
    (data : list Byte.byte) (s s1 : filesystem) :
  let dest := q ++ [x] in
  s !! tmp = Some (File data) →
  s !! dest = None →
  mkdir_rev s (rev q) = Some s1 →
  finish_from size tmp dest s
  = (<[dest := File data]> (delete tmp s1), Ok (finished dest None)).
Proof.
  intros dest Htmp Hdest Hmk. unfold finish_from. run_M.
  rewrite bool_decide_eq_true_2 by eauto. cbn [negb].
  unfold mkdir_parents, dest. rewrite parent_snoc, Hmk. fold dest.
  unfold finish_move. run_M.
  rewrite (atomic_move_file tmp dest data); [done|..].
  - by eapply mkdir_rev_keeps.
  - unfold dest. rewrite parent_snoc, <-(rev_involutive q).
    by eapply mkdir_rev_is_dir.
  - rewrite <-Hdest. apply (mkdir_rev_longer s s1 (rev q)); [done|].
    unfold dest. rewrite length_rev, length_app. simpl. lia.
Qed.

Lemma tmp_final_length (name relpath : string) :
  length (_tmp_path name relpath) = S (length (_final_path name relpath)).
Proof.
  unfold _tmp_path, _final_path, TMP_DIR. rewrite !length_app. simpl. lia.
Qed.

Lemma candidate_final_snoc (name relpath : string) (i : Z) :
  ∃ x, candidate (_final_path name relpath) i
       = (UPLOAD_ROOT ++ _safe_relpath relpath) ++ [x].
Proof.
  unfold candidate, with_name. rewrite final_path_snoc, parent_snoc. eauto.
Qed.

(** The first lines of [upload_finish], up to the look at the final
    path. *)
Lemma upload_finish_named (req : request) (name : string) (size : Z)
    (relpath : string) (s : filesystem) :
  finish_request req name size relpath →
  upload_finish req s =
    (let tmp := _tmp_path name relpath in
     let final_pref := _final_path name relpath in
     final_exists ← exists_ final_pref;
     if final_exists : bool then
       tmp_exists ← exists_ tmp;
       if negb tmp_exists then
         matches ← size_matches size final_pref;
         if matches : bool
         then mret (finished final_pref (Some "already finalized"%string))
         else finish_from size tmp final_pref
       else
         final_pref ← _unique_path final_pref;
         finish_from size tmp final_pref
     else finish_from size tmp final_pref) s.
Proof.
  intros (Hname & Hsize & Hrel & Hne).
  unfold upload_finish. run_M. rewrite Hsize, Hname, Hrel.
  by rewrite bool_decide_eq_false_2 by done.
Qed.

Lemma destination_free (s : filesystem) (final : path) :
  s !! final = None → destination s final = final.
Proof. intros Hfree. unfold destination. by rewrite unique_path_free. Qed.

Lemma destination_taken (s : filesystem) (final : path) :
  is_Some (s !! final) →
  ∃ i, 1 ≤ i
    ∧ destination s final = candidate final i
    ∧ s !! candidate final i = None
    ∧ ∀ j, 1 ≤ j < i → is_Some (s !! candidate final j).
Proof.
  intros Htaken. unfold destination.
  destruct (unique_path_taken final s Htaken) as (i & ? & ? & ? & ->). eauto.
Qed.

Lemma destination_is_free (s : filesystem) (final : path) :
  s !! destination s final = None.
Proof.
  destruct (s !! final) as [fin|] eqn:Hfin.
  - destruct (destination_taken s final) as (i & _ & -> & ? & _); eauto.
  - by rewrite destination_free.
Qed.

(** A finish request whose partial file is there, when the directory of
    the final file is there or can be made: the partial file is moved to
    its destination, and the answer is ok with that path. *)
Lemma upload_finish_moves (req : request) (name : string) (size : Z)
    (relpath : string) (data : list Byte.byte) (s s1 : filesystem) :
  finish_request req name size relpath →
  let tmp := _tmp_path name relpath in
  let final := _final_path name relpath in
  let dest := destination s final in
  s !! tmp = Some (File data) →
  mkdir_rev s (rev (parent final)) = Some s1 →
  serve (upload_finish req) s
  = (<[dest := File data]> (delete tmp s1), finished dest None).
Proof.
  intros Hreq tmp final dest Htmp Hmk. unfold serve.
  rewrite (upload_finish_named req name size relpath) by done.
  cbv zeta. fold tmp final. run_M.
  revert Hmk. unfold final at 1. rewrite final_path_snoc, parent_snoc. intros Hmk.
  pose proof (destination_is_free s final) as Hfree. fold dest in Hfree.
  destruct (s !! final) as [fin|] eqn:Hfin.
  - rewrite bool_decide_eq_true_2 by eauto.
    rewrite bool_decide_eq_true_2 by eauto. cbn [negb].
    destruct (unique_path_taken final s) as (i & Hi & _ & _ & Hrun); [eauto|].
    assert (dest = candidate final i) as Hdest.
    { unfold dest, destination. by rewrite Hrun. }
    rewrite Hrun.
    destruct (candidate_final_snoc name relpath i) as [x Hx]. fold final in Hx.
    rewrite Hdest in Hfree |- *. rewrite Hx in Hfree |- *.
    by rewrite (finish_from_moves size tmp _ x data s s1).
  - rewrite bool_decide_eq_false_2 by (intros [? ?]; done).
    assert (dest = final) as Hdest by (by apply destination_free).
    rewrite Hdest in Hfree |- *. clear Hfin.
    revert Hfree. unfold final. rewrite final_path_snoc. intros Hfree.
    by rewrite (finish_from_moves size tmp _ _ data s s1).
Qed.

(** The final file is there and the partial file is not: nothing to do. *)
Lemma upload_finish_already (req : request) (name : string) (size : Z)
    (relpath : string) (fin : node) (s : filesystem) :
  finish_request req name size relpath →
  s !! _final_path name relpath = Some fin →
  s !! _tmp_path name relpath = None →
  serve (upload_finish req) s
  = (s, finished (_final_path name relpath) (Some "already finalized"%string)).
Proof.
  intros Hreq Hfin Htmp. unfold serve.
  rewrite (upload_finish_named req name size relpath) by done.
  cbv zeta. run_M.
  rewrite bool_decide_eq_true_2 by eauto.
  rewrite bool_decide_eq_false_2 by (intros [? ?]; congruence). cbn [negb].
  destruct (size =? 0); [done|]. rewrite Hfin.
  destruct (node_size fin =? size); [done|].
  unfold finish_from. run_M.
  rewrite bool_decide_eq_false_2 by (intros [? ?]; congruence). cbn [negb].
  by rewrite bool_decide_eq_true_2 by eauto.
Qed.

(** C3, as the code has it. A finish request for [(name, relpath,
    size)]. When the final file is there and the partial file is not, the
    answer is 200 with [ok: true], the preferred path and the note "already
    finalized", and the filesystem is left as it is; so a second call gets
    the same answer and no second file appears, whether the declared size
    is the size of the file or not. When the partial file is there and the
    preferred path is free (and the directory of the final file is there
    or can be made), the first call moves the partial file to the preferred
    path and answers 200 with [ok: true] and that path; the second call
    changes nothing and answers with the same path and the note. *)
Theorem finish_idempotent (req : request) (name : string) (size : Z)
    (relpath : string) (s : filesystem) :
  finish_request req name size relpath →
  let tmp := _tmp_path name relpath in
  let final := _final_path name relpath in
  let moved :=
    Json 200 [("ok"%string, JBool true);
              ("path"%string, JStr (path_str final))] in
  let already :=
    Json 200 [("ok"%string, JBool true);
              ("path"%string, JStr (path_str final));
              ("note"%string, JStr "already finalized")] in
  (∀ fin : node,
     s !! final = Some fin → s !! tmp = None →
     serve (upload_finish req) s = (s, already)
     ∧ serve (upload_finish req) (serve (upload_finish req) s).1 = (s, already))
  ∧ (∀ (data : list Byte.byte) (s1 : filesystem),
       s !! tmp = Some (File data) → s !! final = None →
       mkdir_rev s (rev (parent final)) = Some s1 →
       let first := serve (upload_finish req) s in
       first = (<[final := File data]> (delete tmp s1), moved)
       ∧ serve (upload_finish req) first.1 = (first.1, already)).
Proof.
  intros Hreq tmp final moved already. split.
  - intros fin Hfin Htmp.
    pose proof (upload_finish_already req name size relpath fin s Hreq Hfin Htmp)
      as Hrun.
    by rewrite Hrun.
  - intros data s1 Htmp Hfin Hmk first.
    pose proof (upload_finish_moves req name size relpath data s s1 Hreq Htmp Hmk)
      as Hrun. cbv zeta in Hrun. fold tmp final in Hrun.
    rewrite (destination_free s final Hfin) in Hrun.
    unfold first. rewrite Hrun. cbn [fst]. split; [done|].
    apply (upload_finish_already req name size relpath (File data)); [done|..].
    + fold final. by rewrite lookup_insert_eq.
    + fold tmp final. rewrite lookup_insert_ne, lookup_delete_eq; [done|].
      intros Heq. apply (f_equal length) in Heq. unfold tmp, final in Heq.
      rewrite tmp_final_length in Heq. lia.
Qed.

(** The candidates of a name with an extension, and of one without. *)
Lemma candidate_extension (p : path) (i : Z) (a ext : string) :
  name_of p = a +:+ String "."%char ext →
  a ≠ ""%string → ext ≠ ""%string → no_dot ext →
  candidate p i
  = parent p ++ [a +:+ " (" +:+ pretty i +:+ ")" +:+ String "."%char ext].
Proof.
  intros Hname Ha Hext Hno. unfold candidate, with_name, stem, suffix.
  rewrite Hname, split_ext_app by (done || by apply rfind_dot_no_dot).
  done.
Qed.

Lemma candidate_no_extension (p : path) (i : Z) :
  (∀ a ext, name_of p = a +:+ String "."%char ext → no_dot ext →
     a = ""%string ∨ ext = ""%string) →
  candidate p i = parent p ++ [name_of p +:+ " (" +:+ pretty i +:+ ")"].
Proof.
  intros Hno. unfold candidate, with_name, stem, suffix.
  rewrite split_ext_none by done. reflexivity.
Qed.

(** C4. A finish request for [(name, relpath, size)] whose final file and
    whose partial file are both there, on a filesystem that is a tree (as
    is every filesystem the routes make of a tree): the partial file is
    moved to the candidate with the least counter [i] from 1 on whose name
    is free; the answer is 200 with [ok: true] and that path; and what is
    at the preferred path stays as it was. The candidate with the counter
    [j] lies in the directory of the final file, and its name has " (j)"
    before the extension: when the name of the final file is [a.ext], with
    [a] and [ext] not empty and no dot in [ext], the candidate is
    [a (j).ext]; when the name has no such extension (no dot, or its last
    dot in front or at the end), the candidate is the name followed by
    " (j)". *)
Theorem finish_collision (req : request) (name : string) (size : Z)
    (relpath : string) (fin : node) (data : list Byte.byte) (s : filesystem) :
  finish_request req name size relpath →
  well_formed s = true →
  s !! _final_path name relpath = Some fin →
  s !! _tmp_path name relpath = Some (File data) →
  let tmp := _tmp_path name relpath in
  let final := _final_path name relpath in
  (∃ i, 1 ≤ i
     ∧ (∀ j, 1 ≤ j < i → is_Some (s !! candidate final j))
     ∧ s !! candidate final i = None
     ∧ serve (upload_finish req) s
       = (<[candidate final i := File data]> (delete tmp s),
          Json 200 [("ok"%string, JBool true);
                    ("path"%string, JStr (path_str (candidate final i)))])
     ∧ (serve (upload_finish req) s).1 !! final = Some fin)
  ∧ (∀ (j : Z) (a ext : string),
       name_of final = a +:+ String "."%char ext →
       a ≠ ""%string → ext ≠ ""%string → no_dot ext →
       candidate final j
       = parent final ++ [a +:+ " (" +:+ pretty j +:+ ")" +:+ String "."%char ext])
  ∧ ((∀ a ext, name_of final = a +:+ String "."%char ext → no_dot ext →
        a = ""%string ∨ ext = ""%string) →
     ∀ j : Z,
       candidate final j
       = parent final ++ [name_of final +:+ " (" +:+ pretty j +:+ ")"]).
Proof.
  intros Hreq Hwf Hfin Htmp tmp final. split_and!.
  - assert (mkdir_rev s (rev (parent final)) = Some s) as Hmk.
    { apply mkdir_rev_present. by eapply well_formed_parent. }
    pose proof (upload_finish_moves req name size relpath data s s Hreq Htmp Hmk)
      as Hrun. cbv zeta in Hrun. fold tmp final in Hrun.
    destruct (destination_taken s final) as (i & Hi & Hdest & Hfree & Htaken);
      [eauto|].
    rewrite Hdest in Hrun.
    exists i. split_and!; [done..|].
    rewrite Hrun. cbn [fst].
    rewrite lookup_insert_ne by (intros Heq; fold final in Hfin; congruence).
    rewrite lookup_delete_ne; [done|].
    intros Heq. apply (f_equal length) in Heq. unfold tmp, final in Heq.
    rewrite tmp_final_length in Heq. lia.
  - intros j a ext. apply candidate_extension.
  - intros Hno j. by apply candidate_no_extension.
Qed.

(** C10, as the code has it. A finish request for [(name, relpath, size)]
    whose partial file is there, when the directory of the final file is
    there or can be made: the partial file is moved, bytes unchanged, to its
    destination (the preferred path when that is free, else the candidate
    with the least counter from 1 on that is free) and the answer is 200
    with [ok: true] and that path. Neither the declared
    size nor the length of the partial file has a say: any other declared
    size gets the same outcome. *)
Theorem finish_promotes_any_length (req : request) (name : string) (size : Z)
    (relpath : string) (data : list Byte.byte) (s s1 : filesystem) :
  finish_request req name size relpath →
  s !! _tmp_path name relpath = Some (File data) →
  mkdir_rev s (rev (parent (_final_path name relpath))) = Some s1 →
  let tmp := _tmp_path name relpath in
  let final := _final_path name relpath in
  let dest := destination s final in
  s !! dest = None
  ∧ ((s !! final = None ∧ dest = final)
     ∨ (is_Some (s !! final)
        ∧ ∃ i, 1 ≤ i ∧ dest = candidate final i
            ∧ ∀ j, 1 ≤ j < i → is_Some (s !! candidate final j)))
  ∧ serve (upload_finish req) s
    = (<[dest := File data]> (delete tmp s1),
       Json 200 [("ok"%string, JBool true);
                 ("path"%string, JStr (path_str dest))])
  ∧ (serve (upload_finish req) s).1 !! dest = Some (File data)
  ∧ (serve (upload_finish req) s).1 !! tmp = None
  ∧ (∀ req' size', finish_request req' name size' relpath →
       serve (upload_finish req') s = serve (upload_finish req) s).
Proof.
  intros Hreq Htmp Hmk tmp final dest.
  pose proof (upload_finish_moves req name size relpath data s s1 Hreq Htmp Hmk)
    as Hrun. cbv zeta in Hrun. fold tmp final dest in Hrun.
  assert (dest = final ∨ ∃ i, 1 ≤ i ∧ dest = candidate final i) as Hdest.
  { destruct (s !! final) as [fin|] eqn:Hfin.
    - right. destruct (destination_taken s final) as (i & ? & ? & _); eauto.
    - left. by apply destination_free. }
  split_and!.
  - apply destination_is_free.
  - destruct (s !! final) as [fin|] eqn:Hfin.
    + right. split; [eauto|].
      destruct (destination_taken s final) as (i & ? & ? & _ & ?); eauto.
    + left. split; [done|]. by apply destination_free.
  - done.
  - rewrite Hrun. cbn [fst]. by rewrite lookup_insert_eq.
  - rewrite Hrun. cbn [fst].
    rewrite lookup_insert_ne, lookup_delete_eq; [done|].
    intros Heq%(f_equal length). unfold tmp in Heq.
    rewrite tmp_final_length in Heq.
    destruct Hdest as [->|(i & _ & ->)]; [unfold final in Heq; lia|].
    destruct (candidate_final_snoc name relpath i) as [x Hx]. fold final in Hx.
    rewrite Hx in Heq. unfold final in Heq.
    rewrite final_path_snoc, !length_app in Heq. simpl in Heq. lia.
  - intros req' size' Hreq'. rewrite Hrun.
    by rewrite (upload_finish_moves req' name size' relpath data s s1).
Qed.

End Finish.

(** *** On sample requests *)

(** C3 as stated fails when the preferred name is taken at the first
    call: the five bytes announced are all there, the first finish request
    moves them to [a (1).txt] and says so, and the second, finding [a.txt]
    and no partial file, answers with the path of [a.txt]. *)
Lemma finish_twice_counterexample :
  let req := query [("name", "a.txt"); ("size", "5")]%string [] in
  let s := <[_tmp_path "a.txt" "" := File hello]>
             (<[_final_path "a.txt" "" := File [Byte.x61]]> fresh) in
  let first := serve (upload_finish req) s in
  let second := serve (upload_finish req) first.1 in
  finish_request req "a.txt" 5 ""
  ∧ s !! _tmp_path "a.txt" "" = Some (File hello)
  ∧ first.2 = Json 200 [("ok", JBool true);
                        ("path", JStr "D:/iphone8OLD/PhoneUploads/a (1).txt")]%string
  ∧ second.2 = Json 200 [("ok", JBool true);
                         ("path", JStr "D:/iphone8OLD/PhoneUploads/a.txt");
                         ("note", JStr "already finalized")]%string
  ∧ second.1 !! _final_path "a.txt" "" = Some (File [Byte.x61])
  ∧ second.1 !! (UPLOAD_ROOT ++ ["a (1).txt"%string]) = Some (File hello).
Proof. intros req s first second. unfold finish_request. sample. Qed.

Lemma finish_idempotent_witness :
  let req := query [("name", "photo.jpg"); ("size", "5")]%string [] in
  let final := _final_path "photo.jpg" "" in
  let tmp := _tmp_path "photo.jpg" "" in
  let there := <[final := File hello]> fresh in
  let staged := <[tmp := File hello]> fresh in
  let moved :=
    Json 200 [("ok", JBool true);
              ("path", JStr "D:/iphone8OLD/PhoneUploads/photo.jpg")]%string in
  let already :=
    Json 200 [("ok", JBool true);
              ("path", JStr "D:/iphone8OLD/PhoneUploads/photo.jpg");
              ("note", JStr "already finalized")]%string in
  (serve (upload_finish req) there = (there, already)
   ∧ serve (upload_finish req) (serve (upload_finish req) there).1
     = (there, already))
  ∧ (serve (upload_finish req) staged
     = (<[final := File hello]> (delete tmp staged), moved)
     ∧ serve (upload_finish req) (serve (upload_finish req) staged).1
       = ((serve (upload_finish req) staged).1, already)).
Proof.
  intros req final tmp there staged moved already. split.
  - destruct (finish_idempotent req "photo.jpg" 5 "" there) as [Hfirst _];
      [unfold finish_request; sample|].
    apply (Hfirst (File hello)); sample.
  - destruct (finish_idempotent req "photo.jpg" 5 "" staged) as [_ Hsecond];
      [unfold finish_request; sample|].
    apply (Hsecond hello staged); [sample..|].
    apply mkdir_rev_present. sample.
Defined.

Lemma finish_collision_witness :
  let req := query [("name", "a.txt"); ("size", "5")]%string [] in
  let final := _final_path "a.txt" "" in
  let tmp := _tmp_path "a.txt" "" in
  let s := <[tmp := File hello]>
             (<[UPLOAD_ROOT ++ ["a (1).txt"%string] := File []]>
                (<[final := File [Byte.x61]]> fresh)) in
  serve (upload_finish req) s
  = (<[UPLOAD_ROOT ++ ["a (2).txt"%string] := File hello]> (delete tmp s),
     Json 200 [("ok", JBool true);
               ("path", JStr "D:/iphone8OLD/PhoneUploads/a (2).txt")]%string).
Proof.
  intros req final tmp s.
  destruct (finish_collision req "a.txt" 5 "" (File [Byte.x61]) hello s)
    as ((i & Hi & Htaken & Hfree & Hrun & _) & Hshape & _);
    [unfold finish_request; sample|sample..|].
  fold final tmp in Htaken, Hfree, Hrun, Hshape.
  assert (∀ j, candidate final j
               = UPLOAD_ROOT ++ ["a" +:+ " (" +:+ pretty j +:+ ")" +:+ ".txt"])
    as Hname.
  { intros j. apply (Hshape j "a" "txt")%string;
      [reflexivity|discriminate|discriminate|].
    apply rfind_dot_some_dot. reflexivity. }
  assert (i = 2) as ->.
  { destruct (decide (i = 1)) as [->|].
    { rewrite Hname in Hfree. vm_compute in Hfree. discriminate. }
    destruct (decide (2 < i)) as [Hlt|]; [|lia].
    destruct (Htaken 2 ltac:(lia)) as [x Hx].
    rewrite Hname in Hx. vm_compute in Hx. discriminate. }
  rewrite Hrun, Hname. reflexivity.
Defined.

(** C10 as stated fails after four requests on a fresh upload root: a
    file [a] is uploaded and finished, a file [b] is uploaded into the
    folder [a]; the finish request for [b] finds its partial file, cannot
    make the directory [a] because the file [a] is in the way, and is
    answered 500, with the partial file where it was. *)
Lemma finish_promotes_counterexample :
  let s1 := (serve (upload_chunk
               (query [("name", "a"); ("size", "5"); ("offset", "0")]%string hello))
               fresh).1 in
  let s2 := (serve (upload_finish (query [("name", "a"); ("size", "5")]%string []))
               s1).1 in
  let s3 := (serve (upload_chunk
               (query [("name", "b"); ("size", "5"); ("offset", "0");
                       ("relpath", "a")]%string hello))
               s2).1 in
  let req := query [("name", "b"); ("size", "5"); ("relpath", "a")]%string [] in
  finish_request req "b" 5 "a"
  ∧ s3 !! _tmp_path "b" "a" = Some (File hello)
  ∧ s3 !! _final_path "a" "" = Some (File hello)
  ∧ (serve (upload_finish req) s3).2 = ErrorPage 500 "Internal Server Error"
  ∧ (serve (upload_finish req) s3).1 !! _tmp_path "b" "a" = Some (File hello).
Proof. intros s1 s2 s3 req. unfold finish_request. sample. Qed.

Lemma finish_promotes_any_length_witness :
  let req := query [("name", "photo.jpg"); ("size", "1000");
                    ("relpath", "trip")]%string [] in
  let tmp := _tmp_path "photo.jpg" "trip" in
  let final := _final_path "photo.jpg" "trip" in
  let s := <[tmp := File hello]> fresh in
  let s1 := <[UPLOAD_ROOT ++ ["trip"%string] := Dir]> s in
  serve (upload_finish req) s
  = (<[final := File hello]> (delete tmp s1),
     Json 200 [("ok", JBool true);
               ("path", JStr "D:/iphone8OLD/PhoneUploads/trip/photo.jpg")]%string).
Proof.
  intros req tmp final s s1.
  destruct (finish_promotes_any_length req "photo.jpg" 1000 "trip" hello s s1)
    as (_ & _ & Hrun & _); [unfold finish_request; sample|sample| |].
  { replace (parent (_final_path "photo.jpg" "trip"))
      with (UPLOAD_ROOT ++ ["trip"%string]) by (vm_compute; reflexivity).
    apply mkdir_rev_child; sample. }
  fold tmp final in Hrun. rewrite Hrun.
  assert (destination s final = final) as ->; [|done].
  apply destination_free. sample.
Defined.

(** ** The partial file only grows *)

Lemma serve_state (view : M response) (s : filesystem) :
  (serve view s).1 = (view s).1.
Proof. unfold serve. destruct (view s) as [s' [r|[]]]; done. Qed.

Lemma os_replace_kept (tmp dst : path) (data : list Byte.byte) (s : filesystem) :
  kept tmp data s → kept tmp data (os_replace tmp dst s).1.
Proof.
  intros Hkept. unfold os_replace.
  destruct Hkept as [Htmp|Htmp]; rewrite Htmp; [by left|].
  destruct (negb _); [by right|].
  destruct (s !! dst) as [[other|]|]; cbn [fst]; try by right.
  all: destruct (decide (dst = tmp)) as [->|Hne];
    [right; by rewrite lookup_insert_eq
    |left; by rewrite lookup_insert_ne, lookup_delete_eq].
Qed.

Lemma shutil_move_kept (tmp dst : path) (data : list Byte.byte) (s : filesystem) :
  kept tmp data s → kept tmp data (shutil_move tmp dst s).1.
Proof.
  intros Hkept. unfold shutil_move.
  destruct (s !! dst) as [[other|]|]; try by apply os_replace_kept.
  case_bool_decide; [done|]. by apply os_replace_kept.
Qed.

Lemma unlink_kept (tmp : path) (data : list Byte.byte) (s : filesystem) :
  kept tmp data s → kept tmp data (unlink tmp s).1.
Proof.
  intros Hkept. unfold unlink.
  destruct (s !! tmp) as [[other|]|]; [|done..].
  left. apply lookup_delete_eq.
Qed.

Lemma mkdir_parents_keeps (p tmp : path) (data : list Byte.byte) (s : filesystem) :
  s !! tmp = Some (File data) →
  (mkdir_parents p s).1 !! tmp = Some (File data).
Proof.
  intros Htmp. unfold mkdir_parents.
  destruct (mkdir_rev s (rev p)) as [s1|] eqn:Hmk; [|done].
  by eapply mkdir_rev_keeps.
Qed.

Section Monotone.
Context `{Platform}.

Lemma replace_attempts_kept (attempts : nat) (tmp dst : path)
    (last_err : option exn) (data : list Byte.byte) (s : filesystem) :
  kept tmp data s → kept tmp data (replace_attempts attempts tmp dst last_err s).1.
Proof.
  revert last_err s. induction attempts as [|n IH]; intros last_err s Hkept; [done|].
  cbn [replace_attempts]. run_M.
  pose proof (os_replace_kept tmp dst data s Hkept) as Hstep.
  destruct (os_replace tmp dst s) as [s' [[]|e]]; [done|].
  destruct (is_OSError e); [by apply IH|done].
Qed.

Lemma atomic_move_kept (tmp dst : path) (data : list Byte.byte) (s : filesystem) :
  kept tmp data s → kept tmp data (_atomic_move_with_retry tmp dst s).1.
Proof.
  intros Hkept. unfold _atomic_move_with_retry. run_M.
  pose proof (replace_attempts_kept 10 tmp dst None data s Hkept) as Hstep.
  destruct (replace_attempts 10 tmp dst None s) as [s' [[moved last_err]|e]];
    [|done].
  destruct moved; [done|].
  pose proof (shutil_move_kept tmp dst data s' Hstep) as Hstep'.
  by destruct (shutil_move tmp dst s') as [s'' [[]|e]].
Qed.

Lemma size_matches_reads (size : Z) (p : path) (s : filesystem) :
  (size_matches size p s).1 = s.
Proof.
  unfold size_matches. run_M. destruct (size =? 0); [done|].
  by destruct (s !! p).
Qed.

Lemma finish_recover_kept (size : Z) (tmp final_pref : path) (e : exn)
    (data : list Byte.byte) (s : filesystem) :
  kept tmp data s → kept tmp data (finish_recover size tmp final_pref e s).1.
Proof.
  intros Hkept. unfold finish_recover. run_M.
  case_bool_decide; [|done].
  pose proof (size_matches_reads size final_pref s) as Hread.
  unfold size_matches in Hread. revert Hread. run_M. intros Hread.
  destruct (if size =? 0 then _ else _) as [s' [[]|e']];
    cbn [fst] in Hread; subst s'; [|done..].
  pose proof (unlink_kept tmp data s Hkept) as Hun.
  by destruct (unlink tmp s) as [s' [[]|e']].
Qed.

Lemma finish_move_kept (size : Z) (tmp final_pref : path) (data : list Byte.byte)
    (s : filesystem) :
  kept tmp data s → kept tmp data (finish_move size tmp final_pref s).1.
Proof.
  intros Hkept. unfold finish_move. run_M.
  pose proof (atomic_move_kept tmp final_pref data s Hkept) as Hstep.
  destruct (_atomic_move_with_retry tmp final_pref s) as [s' [[]|e]]; [done|].
  destruct e; try by apply finish_recover_kept.
  by case_bool_decide.
Qed.

Lemma finish_from_kept (size : Z) (tmp final_pref : path) (data : list Byte.byte)
    (s : filesystem) :
  s !! tmp = Some (File data) →
  kept tmp data (finish_from size tmp final_pref s).1.
Proof.
  intros Htmp. unfold finish_from. run_M.
  rewrite bool_decide_eq_true_2 by eauto. cbn [negb].
  pose proof (mkdir_parents_keeps (parent final_pref) tmp data s Htmp) as Hmk.
  destruct (mkdir_parents (parent final_pref) s) as [s1 [[]|e]]; cbn [fst] in Hmk;
    [|by right].
  apply finish_move_kept. by right.
Qed.

Lemma unique_path_reads (p : path) (s : filesystem) :
  ∃ q, _unique_path p s = (s, Ok q).
Proof.
  destruct (s !! p) as [n|] eqn:Hp.
  - destruct (unique_path_taken p s) as (i & _ & _ & _ & ->); eauto.
  - rewrite unique_path_free by done. eauto.
Qed.

(** [upload_finish] on a target whose partial file is there: the partial
    file is moved away, or stays as it is. *)
Lemma upload_finish_kept (req : request) (data : list Byte.byte) (s : filesystem) :
  let tmp := _tmp_path (args_get req "name" "") (args_get req "relpath" "") in
  s !! tmp = Some (File data) →
  kept tmp data (upload_finish req s).1.
Proof.
  intros tmp Htmp.
  destruct (declared req "size") as [size|] eqn:Hsize.
  2: { unfold upload_finish. run_M. rewrite Hsize. by right. }
  destruct (decide (args_get req "name" "" = ""%string)) as [Hname|Hname].
  { unfold upload_finish. run_M. rewrite Hsize.
    rewrite bool_decide_eq_true_2 by done. by right. }
  rewrite (upload_finish_named req _ size (args_get req "relpath" "")) by done.
  cbv zeta. fold tmp. run_M.
  case_bool_decide.
  - rewrite bool_decide_eq_true_2 by eauto. cbn [negb].
    destruct (unique_path_reads
      (_final_path (args_get req "name" "") (args_get req "relpath" "")) s)
      as [q ->].
    by apply finish_from_kept.
  - by apply finish_from_kept.
Qed.

(** [upload_chunk] on a target whose partial file is there: the partial
    file stays as it is, or has the body of the request after its bytes. *)
Lemma upload_chunk_grows (req : request) (data : list Byte.byte) (s : filesystem) :
  let tmp := _tmp_path (args_get req "name" "") (args_get req "relpath" "") in
  s !! tmp = Some (File data) →
  (upload_chunk req s).1 !! tmp = Some (File data)
  ∨ (upload_chunk req s).1 !! tmp = Some (File (data ++ body req)).
Proof.
  intros tmp Htmp.
  destruct (declared req "size") as [size|] eqn:Hsize.
  2: { unfold upload_chunk. run_M. rewrite Hsize. by left. }
  destruct (declared req "offset") as [offset|] eqn:Hoffset.
  2: { unfold upload_chunk. run_M. rewrite Hsize, Hoffset. by left. }
  destruct (decide (args_get req "name" "" = ""%string ∨ size < 0 ∨ offset < 0))
    as [Hbad|Hok].
  { unfold upload_chunk. run_M. rewrite Hsize, Hoffset.
    assert (bool_decide (args_get req "name" "" = ""%string)
            || (size <? 0) || (offset <? 0) = true) as ->; [|by left].
    destruct Hbad as [Hbad|[Hbad|Hbad]].
    - by rewrite bool_decide_eq_true_2.
    - rewrite (proj2 (Z.ltb_lt _ _) Hbad). by rewrite orb_true_r.
    - rewrite (proj2 (Z.ltb_lt _ _) Hbad). by rewrite orb_true_r. }
  rewrite (upload_chunk_accepted req (args_get req "name" "") size offset
             (args_get req "relpath" ""))
    by (unfold chunk_request; split_and!; (done || lia || tauto)).
  cbv zeta. fold tmp. destruct (negb _); [by left|].
  destruct (mkdir_rev s (rev (parent tmp))) as [s1|] eqn:Hmk.
  - right. revert Hmk Htmp. unfold tmp. rewrite tmp_path_snoc, parent_snoc.
    intros Hmk Htmp.
    rewrite (append_chunk_appends _ _ _ _ _ s s1) by (done || congruence).
    cbn [fst]. rewrite lookup_insert_eq. unfold partial_bytes. by rewrite Htmp.
  - left. unfold append_chunk. run_M. unfold mkdir_parents. by rewrite Hmk.
Qed.

(** One request on the target of a partial file that is there: the partial
    file is gone, or has its former bytes first. *)
Lemma request_grows (name relpath : string) (o : operation)
    (data : list Byte.byte) (s : filesystem) :
  args_get (request_of o) "name" "" = name →
  args_get (request_of o) "relpath" "" = relpath →
  s !! _tmp_path name relpath = Some (File data) →
  (serve (view o) s).1 !! _tmp_path name relpath = None
  ∨ ∃ more,
      (serve (view o) s).1 !! _tmp_path name relpath = Some (File (data ++ more)).
Proof.
  intros <- <- Htmp. rewrite serve_state. destruct o as [req|req|req]; cbn.
  - right. exists []. by rewrite upload_status_reads, app_nil_r.
  - right. destruct (upload_chunk_grows req data s Htmp) as [Hsame|Hmore].
    + exists []. by rewrite app_nil_r.
    + by exists (body req).
  - destruct (upload_finish_kept req data s Htmp) as [Hgone|Hsame]; [by left|].
    right. exists []. by rewrite app_nil_r.
Qed.

(** C8. Status, chunk and finish requests on one target, in any number and
    order, from a filesystem in which the partial file of the target is
    there: after each of them the partial file holds the bytes it had at
    the start followed by what was appended since, unless a request up to
    then has left no partial file. So while it is there it is never
    shorter than before, and no byte of it is written again. *)
Theorem partial_file_grows (name relpath : string) (ops : list operation)
    (data : list Byte.byte) (s : filesystem) (i : nat) (s_i : filesystem) :
  Forall (λ o, args_get (request_of o) "name" "" = name
               ∧ args_get (request_of o) "relpath" "" = relpath) ops →
  s !! _tmp_path name relpath = Some (File data) →
  states_after ops s !! i = Some s_i →
  (∃ more, s_i !! _tmp_path name relpath = Some (File (data ++ more)))
  ∨ (∃ (j : nat) (s_j : filesystem),
       (j ≤ i)%nat ∧ states_after ops s !! j = Some s_j
       ∧ s_j !! _tmp_path name relpath = None).
Proof.
  intros Hops. revert data s i s_i.
  induction Hops as [|o ops [Hname Hrel] _ IH]; intros data s i s_i Htmp Hi; [done|].
  cbn [states_after] in *.
  destruct (request_grows name relpath o data s Hname Hrel Htmp)
    as [Hgone|[more Hmore]].
  { right. exists 0%nat, (serve (view o) s).1. split_and!; [lia|done..]. }
  destruct i as [|i].
  { left. injection Hi as <-. eauto. }
  destruct (IH _ _ i s_i Hmore Hi) as [[more' Hleft]|(j & s_j & Hj & Hsj & Hnone)].
  - left. exists (more ++ more'). by rewrite (assoc_L (++)).
  - right. exists (S j), s_j. split_and!; [lia|done..].
Qed.

End Monotone.

Lemma partial_file_grows_witness :
  let status := Status (query [("name", "photo.jpg"); ("size", "15")]%string []) in
  let chunk := Chunk (query [("name", "photo.jpg"); ("size", "15"); ("offset", "5")]%string hello) in
  let again := Chunk (query [("name", "photo.jpg"); ("size", "15"); ("offset", "5")]%string hello) in
  let tmp := _tmp_path "photo.jpg" "" in
  let s := <[tmp := File hello]> fresh in
  let s3 := (serve (view again) (serve (view chunk) (serve (view status) s).1).1).1 in
  s3 !! tmp = Some (File (hello ++ hello)).
Proof.
  intros status chunk again tmp s s3.
  destruct (partial_file_grows "photo.jpg" "" [status; chunk; again] hello s 2 s3)
    as [[more Hmore]|(j & s_j & _ & _ & _)].
  - repeat constructor.
  - sample.
  - reflexivity.
  - sample.
  - sample.
Defined.

(** ** Sanitized paths ([_safe_relpath], [_tmp_path], [_final_path]) *)

Lemma safe_char_not_slash (c : ascii) :
  safe_char c = true → negb (is_slash c) = true.
Proof. destruct c as [[] [] [] [] [] [] [] []]; vm_compute; done. Qed.

Lemma secure_char_not_slash (c : ascii) :
  secure_char c = true → negb (is_slash c) = true.
Proof. destruct c as [[] [] [] [] [] [] [] []]; vm_compute; done. Qed.

Lemma forallb_impl (p q : ascii → bool) (s : string) :
  (∀ c, p c = true → q c = true) →
  Py.forallb p s = true → Py.forallb q s = true.
Proof.
  intros Hpq. induction s as [|c s IH]; [done|]. cbn [Py.forallb].
  rewrite !andb_true_iff. intros [Hc Hs]. auto.
Qed.

Lemma forallb_app (p : ascii → bool) (s t : string) :
  Py.forallb p (s +:+ t) = Py.forallb p s && Py.forallb p t.
Proof.
  induction s as [|c s IH]; [done|].
  rewrite string_app_cons. cbn [Py.forallb]. by rewrite IH, andb_assoc.
Qed.

Lemma forallb_prefix (p : ascii → bool) (n : nat) (s : string) :
  Py.forallb p s = true → Py.forallb p (Py.prefix n s) = true.
Proof.
  revert s. induction n as [|n IH]; intros [|c s]; try done.
  cbn [Py.forallb Py.prefix]. rewrite !andb_true_iff. intros [Hc Hs]. auto.
Qed.

(** A cut that comes out shorter than asked for has cut nothing. *)
Lemma prefix_short (n : nat) (s t : string) :
  Py.prefix n s = t → (String.length t < n)%nat → s = t.
Proof.
  revert s t. induction n as [|n IH]; intros s t Hcut Hlen; [lia|].
  destruct s as [|c s]; [done|]. cbn [Py.prefix] in Hcut. subst t.
  cbn [String.length] in Hlen. f_equal. apply IH; [done|lia].
Qed.

Lemma forallb_chop_newline (p : ascii → bool) (s b : string) :
  chop_newline s = Some b → p "010"%char = true →
  Py.forallb p b = true → Py.forallb p s = true.
Proof.
  intros Hchop Hnl. revert b Hchop.
  induction s as [|c s IH]; intros b Hchop Hb; [done|].
  cbn [chop_newline] in Hchop. destruct s as [|d s].
  - case_bool_decide; [|done]. subst c. cbn. by rewrite Hnl.
  - destruct (chop_newline (String d s)) as [b'|] eqn:Hrec; [|done].
    injection Hchop as <-. cbn [Py.forallb] in Hb |- *.
    apply andb_true_iff in Hb as [Hc Hb]. rewrite Hc. by apply IH with b'.
Qed.

(** What [SAFE_SEG] lets through has no separator in it. *)
Lemma SAFE_SEG_match_no_slash (seg : string) :
  SAFE_SEG_match seg = true →
  Py.forallb (λ c, negb (is_slash c)) seg = true.
Proof.
  unfold SAFE_SEG_match, safe_body. intros Hmatch.
  apply orb_true_iff in Hmatch as [Hbody|Hnl].
  - apply andb_true_iff in Hbody as [Hall _].
    by apply (forallb_impl safe_char), Hall; apply safe_char_not_slash.
  - destruct (chop_newline seg) as [b|] eqn:Hchop; [|done].
    apply andb_true_iff in Hnl as [Hall _].
    apply (forallb_chop_newline _ seg b); [done..|].
    by apply (forallb_impl safe_char), Hall; apply safe_char_not_slash.
Qed.

(** The segment that [_safe_relpath] keeps for a stripped segment that is
    not empty, [.] or [..]. *)
Lemma kept_segment_plain (seg : string) :
  ¬ (seg = "" ∨ seg = "." ∨ seg = "..")%string →
  plain_segment (Py.prefix 255 (if SAFE_SEG_match seg then seg else "_"%string)).
Proof.
  intros Hseg. destruct (SAFE_SEG_match seg) eqn:Hmatch; [|by vm_compute].
  unfold plain_segment. split_and!.
  - intros Hcut. apply prefix_short in Hcut; [tauto|simpl; lia].
  - intros Hcut. apply prefix_short in Hcut; [tauto|simpl; lia].
  - intros Hcut. apply prefix_short in Hcut; [tauto|simpl; lia].
  - by apply forallb_prefix, SAFE_SEG_match_no_slash.
Qed.

Lemma safe_relpath_loop_plain (raws parts : list string) :
  Forall plain_segment parts →
  Forall plain_segment (safe_relpath_loop raws parts).
Proof.
  revert parts. induction raws as [|raw raws IH]; intros parts Hparts; [done|].
  cbn [safe_relpath_loop]. case_bool_decide as Hseg; [by apply IH|].
  assert (Forall plain_segment
            (parts ++ [Py.prefix 255 (if SAFE_SEG_match (Py.strip raw)
                                      then Py.strip raw else "_"%string)]))
    as Hnext.
  { apply Forall_app. split; [done|].
    apply Forall_singleton. by apply kept_segment_plain. }
  case_bool_decide; [done|]. by apply IH.
Qed.

Lemma safe_relpath_plain (rel : string) :
  Forall plain_segment (_safe_relpath rel).
Proof. apply safe_relpath_loop_plain. constructor. Qed.

(** The depth of a sanitized path is capped. *)
Lemma safe_relpath_loop_length (raws parts : list string) :
  (length parts < 50)%nat →
  (length (safe_relpath_loop raws parts) ≤ 50)%nat.
Proof.
  revert parts. induction raws as [|raw raws IH]; intros parts Hlen;
    cbn [safe_relpath_loop]; [lia|].
  case_bool_decide; [by apply IH|].
  case_bool_decide as Hcap.
  - rewrite length_app. simpl. lia.
  - apply IH. lia.
Qed.

Section Confinement.
Context `{Platform} `{!PlatformSecure}.

Lemma safe_name_secure (name : string) : secure_result (_safe_name name).
Proof.
  unfold _safe_name. case_bool_decide; [|apply secure_filename_result].
  split; [by vm_compute|done].
Qed.

Lemma safe_name_plain (name : string) : plain_segment (_safe_name name).
Proof.
  destruct (safe_name_secure name) as [Hchars Hdot].
  unfold plain_segment. split_and!.
  - unfold _safe_name. by case_bool_decide.
  - apply Hdot.
  - apply Hdot.
  - by apply (forallb_impl secure_char), Hchars; apply secure_char_not_slash.
Qed.

Lemma part_name_plain (name : string) : plain_segment (_safe_name name +:+ ".part").
Proof.
  destruct (safe_name_plain name) as (Hne & _ & _ & Hslash).
  destruct (safe_name_secure name) as [_ Hdot].
  destruct (_safe_name name) as [|c n]; [done|].
  unfold plain_segment. rewrite string_app_cons. split_and!; [done|..].
  - intros [= -> Htail]. by eapply Hdot.
  - intros [= -> Htail]. by eapply Hdot.
  - rewrite <-string_app_cons, forallb_app, Hslash. by vm_compute.
Qed.

(** C5. Whatever the relative path a client sends, every segment of the
    sanitized path is a plain name: not empty, not [.], not [..], and with
    no slash or backslash in it. With the file name that
    [secure_filename] returns (characters of [A-Za-z0-9_.-] only, no dot
    in front), the staging path is the staging root followed by plain
    names, and the final path is the upload root followed by plain names:
    both lie strictly below their root. *)
Theorem sanitized_paths_confined (name rel : string) :
  Forall plain_segment (_safe_relpath rel)
  ∧ confined TMP_DIR (_tmp_path name rel)
  ∧ confined UPLOAD_ROOT (_final_path name rel).
Proof.
  split_and!.
  - apply safe_relpath_plain.
  - exists (_safe_relpath rel ++ [_safe_name name +:+ ".part"]).
    split_and!; [done|by destruct (_safe_relpath rel)|].
    apply Forall_app. split; [apply safe_relpath_plain|].
    apply Forall_singleton, part_name_plain.
  - exists (_safe_relpath rel ++ [_safe_name name]).
    split_and!; [done|by destruct (_safe_relpath rel)|].
    apply Forall_app. split; [apply safe_relpath_plain|].
    apply Forall_singleton, safe_name_plain.
Qed.

End Confinement.

(** *** [secure_filename] keeps its promise *)

Lemma forallb_filter (p : ascii → bool) (s : string) :
  Py.forallb p (Werkzeug.filter p s) = true.
Proof.
  induction s as [|c s IH]; [done|]. cbn [Werkzeug.filter].
  destruct (p c) eqn:Hc; [|done]. cbn [Py.forallb]. by rewrite Hc.
Qed.

Lemma forallb_lstrip_dot_us (p : ascii → bool) (s : string) :
  Py.forallb p s = true → Py.forallb p (Werkzeug.lstrip_dot_us s) = true.
Proof.
  induction s as [|c s IH]; [done|]. cbn [Werkzeug.lstrip_dot_us].
  destruct (Werkzeug.is_dot_us c); [|done].
  cbn [Py.forallb]. rewrite andb_true_iff. intros [_ Hs]. auto.
Qed.

Lemma forallb_rstrip_dot_us (p : ascii → bool) (s : string) :
  Py.forallb p s = true → Py.forallb p (Werkzeug.rstrip_dot_us s) = true.
Proof.
  induction s as [|c s IH]; [done|]. cbn [Py.forallb Werkzeug.rstrip_dot_us].
  rewrite andb_true_iff. intros [Hc Hs]. specialize (IH Hs).
  destruct (Werkzeug.rstrip_dot_us s) as [|d r].
  - destruct (Werkzeug.is_dot_us c); [done|]. cbn. by rewrite Hc.
  - cbn [Py.forallb] in IH |- *. by rewrite Hc.
Qed.

Lemma lstrip_dot_us_head (s : string) (c : ascii) (r : string) :
  Werkzeug.lstrip_dot_us s = String c r → Werkzeug.is_dot_us c = false.
Proof.
  induction s as [|d s IH]; [done|]. cbn [Werkzeug.lstrip_dot_us].
  destruct (Werkzeug.is_dot_us d) eqn:Hd; [done|]. by intros [= <- _].
Qed.

Lemma rstrip_dot_us_head (c : ascii) (s : string) :
  Werkzeug.is_dot_us c = false →
  ∃ r, Werkzeug.rstrip_dot_us (String c s) = String c r.
Proof.
  intros Hc. cbn [Werkzeug.rstrip_dot_us]. rewrite Hc.
  destruct (Werkzeug.rstrip_dot_us s); eauto.
Qed.

Lemma strip_dot_us_no_dot (s s' : string) :
  Werkzeug.strip_dot_us s ≠ String "."%char s'.
Proof.
  unfold Werkzeug.strip_dot_us.
  destruct (Werkzeug.lstrip_dot_us s) as [|c r] eqn:Hl; [done|].
  apply lstrip_dot_us_head in Hl.
  destruct (rstrip_dot_us_head c r Hl) as [r' ->].
  intros [= -> _]. done.
Qed.

Global Instance windows_secure : @PlatformSecure windows.
Proof.
  intros name. unfold secure_filename, windows, Werkzeug.secure_filename.
  assert (Py.forallb secure_char (Werkzeug.ascii_name name) = true) as Hchars.
  { unfold Werkzeug.ascii_name, Werkzeug.strip_dot_us.
    apply forallb_rstrip_dot_us, forallb_lstrip_dot_us, forallb_filter. }
  destruct (Werkzeug.is_device _).
  - split; [cbn [Py.forallb]; by rewrite Hchars|done].
  - split; [done|]. intros s'. apply strip_dot_us_no_dot.
Qed.

Lemma sanitized_paths_confined_witness :
  Forall plain_segment (_safe_relpath "../../etc")
  ∧ confined TMP_DIR (_tmp_path "a.txt" "../../etc")
  ∧ confined UPLOAD_ROOT (_final_path "a.txt" "../../etc").
Proof. apply (@sanitized_paths_confined windows windows_secure). Defined.

(** ** The filesystem stays a tree *)

Lemma well_formed_tree (s : filesystem) : well_formed s = true ↔ tree s.
Proof.
  unfold well_formed, tree. rewrite forallb_forall. split.
  - intros Hwf k n Hk. apply (Hwf (k, n)), list_elem_of_In, elem_of_map_to_list. done.
  - intros Htree [k n] Hin. apply list_elem_of_In, elem_of_map_to_list in Hin.
    by apply (Htree k n).
Qed.

Lemma is_dir_insert_dir (s : filesystem) (p q : path) :
  is_dir s p = true → is_dir (<[q := Dir]> s) p = true.
Proof.
  destruct p as [|x p]; [done|]. intros Hdir.
  apply is_dir_lookup in Hdir; [|done]. apply is_dir_lookup; [done|].
  destruct (decide (q = x :: p)) as [->|Hne].
  - by rewrite lookup_insert_eq.
  - by rewrite lookup_insert_ne.
Qed.

Lemma is_dir_insert_ne (s : filesystem) (p q : path) (n : node) :
  is_dir s p = true → s !! q ≠ Some Dir → is_dir (<[q := n]> s) p = true.
Proof.
  destruct p as [|x p]; [done|]. intros Hdir Hq.
  apply is_dir_lookup in Hdir; [|done]. apply is_dir_lookup; [done|].
  rewrite lookup_insert_ne; [done|]. intros ->. done.
Qed.

Lemma is_dir_delete_ne (s : filesystem) (p q : path) :
  is_dir s p = true → s !! q ≠ Some Dir → is_dir (delete q s) p = true.
Proof.
  destruct p as [|x p]; [done|]. intros Hdir Hq.
  apply is_dir_lookup in Hdir; [|done]. apply is_dir_lookup; [done|].
  rewrite lookup_delete_ne; [done|]. intros ->. done.
Qed.

Lemma tree_insert_dir (s : filesystem) (q : path) :
  tree s → is_dir s (parent q) = true → tree (<[q := Dir]> s).
Proof.
  intros Htree Hparent k n Hk. apply is_dir_insert_dir.
  destruct (decide (q = k)) as [->|Hne]; [done|].
  rewrite lookup_insert_ne in Hk by done. by eapply Htree.
Qed.

(** A regular file put where no directory was. *)
Lemma tree_insert_file (s : filesystem) (q : path) (data : list Byte.byte) :
  tree s → is_dir s (parent q) = true → s !! q ≠ Some Dir →
  tree (<[q := File data]> s).
Proof.
  intros Htree Hparent Hq k n Hk. apply is_dir_insert_ne; [|done].
  destruct (decide (q = k)) as [->|Hne]; [done|].
  rewrite lookup_insert_ne in Hk by done. by eapply Htree.
Qed.

Lemma tree_delete_file (s : filesystem) (q : path) :
  tree s → s !! q ≠ Some Dir → tree (delete q s).
Proof.
  intros Htree Hq k n Hk. apply is_dir_delete_ne; [|done].
  destruct (decide (q = k)) as [->|Hne]; [by rewrite lookup_delete_eq in Hk|].
  rewrite lookup_delete_ne in Hk by done. by eapply Htree.
Qed.

Lemma tree_mkdir_rev (s s' : filesystem) (rp : list string) :
  tree s → mkdir_rev s rp = Some s' → tree s'.
Proof.
  revert s'. induction rp as [|x rp IH]; intros s' Htree Hmk; simpl in Hmk.
  { by injection Hmk as <-. }
  destruct (s !! (rev rp ++ [x])) as [[data|]|] eqn:Hhere; simplify_eq; [done|].
  destruct (mkdir_rev s rp) as [s1|] eqn:Hrec; simplify_eq.
  apply tree_insert_dir; [by apply IH|].
  rewrite parent_snoc. by eapply mkdir_rev_is_dir.
Qed.

(** Below a name that is free in a tree there is nothing. *)
Lemma tree_nothing_below (s : filesystem) (p : path) (r : list string) :
  tree s → p ≠ [] → s !! p = None → s !! (p ++ r) = None.
Proof.
  intros Htree Hp Hfree. induction r as [|x r IH] using rev_ind.
  { by rewrite app_nil_r. }
  destruct (s !! (p ++ r ++ [x])) as [n|] eqn:Hk; [|done].
  apply Htree in Hk. rewrite (assoc_L (++)), parent_snoc in Hk.
  apply is_dir_lookup in Hk; [congruence|]. by destruct p.
Qed.

Lemma rekey_under (src dst r : path) : rekey src dst (src ++ r) = dst ++ r.
Proof.
  unfold rekey. rewrite bool_decide_eq_true_2 by (by exists r).
  by rewrite drop_app_length.
Qed.

Lemma rekey_other (src dst k : path) :
  ¬ src `prefix_of` k → rekey src dst k = k.
Proof. intros Hk. unfold rekey. by rewrite bool_decide_eq_false_2. Qed.

(** The entries of the moved tree, when no two entries end on one name. *)
Lemma move_tree_lookup (src dst : path) (s : filesystem) (k' : path) (n : node) :
  (∀ k1 k2, is_Some (s !! k1) → is_Some (s !! k2) →
     rekey src dst k1 = rekey src dst k2 → k1 = k2) →
  move_tree src dst s !! k' = Some n
  ↔ ∃ k, rekey src dst k = k' ∧ s !! k = Some n.
Proof.
  intros Hinj. unfold move_tree. rewrite <-elem_of_list_to_map.
  - rewrite list_elem_of_fmap. split.
    + intros ([k m] & [= -> ->] & Hin). exists k. split; [done|].
      by apply elem_of_map_to_list.
    + intros (k & <- & Hk). exists (k, n). split; [done|].
      by apply elem_of_map_to_list.
  - rewrite <-list_fmap_compose.
    apply NoDup_fmap_2_strong; [|apply NoDup_map_to_list].
    intros [k1 n1] [k2 n2] Hin1 Hin2 Heq. simpl in Heq.
    apply elem_of_map_to_list in Hin1, Hin2.
    assert (k1 = k2) as -> by (apply Hinj; eauto). congruence.
Qed.

(** A directory renamed to a free name outside itself, in a tree. *)
Lemma tree_move_tree (src dst : path) (s : filesystem) :
  tree s → s !! src = Some Dir → dst ≠ [] → s !! dst = None →
  is_dir s (parent dst) = true → ¬ src `prefix_of` dst →
  tree (move_tree src dst s).
Proof.
  intros Htree Hsrc Hdst_ne Hdst Hparent Houtside.
  assert (src ≠ []) as Hsrc_ne.
  { intros ->. apply Houtside, prefix_nil. }
  assert (∀ k, is_Some (s !! k) → ¬ dst `prefix_of` k) as Hbelow.
  { intros k [n Hk] [r ->]. by rewrite (tree_nothing_below s dst r) in Hk. }
  assert (∀ k1 k2, is_Some (s !! k1) → is_Some (s !! k2) →
            rekey src dst k1 = rekey src dst k2 → k1 = k2) as Hinj.
  { intros k1 k2 Hk1 Hk2.
    destruct (decide (src `prefix_of` k1)) as [[r1 ->]|Hn1];
      destruct (decide (src `prefix_of` k2)) as [[r2 ->]|Hn2];
      rewrite ?rekey_under, ?rekey_other by done.
    - by intros ->%(inj (app dst)).
    - intros <-. destruct (Hbelow _ Hk2). by exists r1.
    - intros ->. destruct (Hbelow _ Hk1). by exists r2.
    - done. }
  assert (∀ p, is_dir s p = true → ¬ src `prefix_of` p →
            is_dir (move_tree src dst s) p = true) as Hstay.
  { intros p Hp Hout. destruct p as [|x p]; [done|].
    apply is_dir_lookup in Hp; [|done]. apply is_dir_lookup; [done|].
    apply move_tree_lookup; [done|]. exists (x :: p).
    by rewrite rekey_other. }
  intros k' n Hk'. apply move_tree_lookup in Hk' as (k & <- & Hk); [|done].
  destruct (decide (src `prefix_of` k)) as [[r ->]|Hout].
  - rewrite rekey_under. destruct r as [|x r _] using rev_ind.
    + rewrite app_nil_r. apply Hstay; [done|].
      intros [r Hr]. apply Houtside. exists (r ++ [List.last dst ""%string]).
      rewrite (assoc_L (++)), <-Hr. unfold parent.
      by rewrite <-app_removelast_last.
    + rewrite !(assoc_L (++)), parent_snoc.
      apply Htree in Hk. rewrite (assoc_L (++)), parent_snoc in Hk.
      apply is_dir_lookup in Hk; [|by destruct src].
      apply is_dir_lookup; [by destruct dst|].
      apply move_tree_lookup; [done|]. exists (src ++ r).
      by rewrite rekey_under.
  - rewrite rekey_other by done. apply Hstay; [by eapply Htree|].
    intros [r Hr]. apply Hout.
    destruct k as [|x k _] using rev_ind.
    + cbn in Hr. by destruct src.
    + rewrite parent_snoc in Hr. rewrite Hr. apply prefix_app_r. by exists r.
Qed.

Lemma keeps_tree_ret {A} (a : A) : keeps_tree (mret a).
Proof. by intros s Hs. Qed.

Lemma keeps_tree_raise {A} (e : exn) : keeps_tree (@raise A e).
Proof. by intros s Hs. Qed.

Lemma keeps_tree_bind {A B} (m : M A) (f : A → M B) :
  keeps_tree m → (∀ a, keeps_tree (f a)) → keeps_tree (m ≫= f).
Proof.
  intros Hm Hf s Hs. specialize (Hm s Hs). unfold mbind, M_bind.
  destruct (m s) as [s' [a|e]]; [by apply Hf|done].
Qed.

Lemma keeps_tree_try {A} (m : M A) : keeps_tree m → keeps_tree (try_ m).
Proof.
  intros Hm s Hs. specialize (Hm s Hs). unfold try_.
  by destruct (m s) as [s' [a|e]].
Qed.

Lemma keeps_tree_reads {A} (m : M A) :
  (∀ s, (m s).1 = s) → keeps_tree m.
Proof. intros Hm s Hs. by rewrite Hm. Qed.

Lemma keeps_tree_exists (p : path) : keeps_tree (exists_ p).
Proof. by apply keeps_tree_reads. Qed.

Lemma keeps_tree_mkdir_parents (p : path) : keeps_tree (mkdir_parents p).
Proof.
  intros s Hs. unfold mkdir_parents.
  destruct (mkdir_rev s (rev p)) as [s1|] eqn:Hmk; [|done].
  by eapply tree_mkdir_rev.
Qed.

Lemma keeps_tree_open_append (p : path) : keeps_tree (open_append p).
Proof.
  intros s Hs. unfold open_append.
  destruct (s !! p) as [[data|]|] eqn:Hp; [done..|].
  destruct (is_dir s (parent p)) eqn:Hdir; [|done].
  apply tree_insert_file; [done..|congruence].
Qed.

Lemma keeps_tree_write (p : path) (chunk : list Byte.byte) :
  keeps_tree (write p chunk).
Proof.
  intros s Hs. unfold write.
  destruct (s !! p) as [[data|]|] eqn:Hp; [|done..].
  apply tree_insert_file; [done|by eapply Hs|congruence].
Qed.

Lemma keeps_tree_unlink (p : path) : keeps_tree (unlink p).
Proof.
  intros s Hs. unfold unlink.
  destruct (s !! p) as [[data|]|] eqn:Hp; [|done..].
  apply tree_delete_file; [done|congruence].
Qed.

Lemma tree_move_file (src dst : path) (data : list Byte.byte) (s : filesystem) :
  tree s → s !! src = Some (File data) → is_dir s (parent dst) = true →
  s !! dst ≠ Some Dir → tree (<[dst := File data]> (delete src s)).
Proof.
  intros Hs Hsrc Hdir Hdst. apply tree_insert_file.
  - apply tree_delete_file; [done|congruence].
  - apply is_dir_delete_ne; [done|congruence].
  - destruct (decide (dst = src)) as [->|Hne];
      [by rewrite lookup_delete_eq|by rewrite lookup_delete_ne].
Qed.

Lemma keeps_tree_os_replace (src dst : path) :
  dst ≠ [] → keeps_tree (os_replace src dst).
Proof.
  intros Hdst s Hs. unfold os_replace.
  destruct (s !! src) as [[data|]|] eqn:Hsrc; [| |done];
    (destruct (is_dir s (parent dst)) eqn:Hdir; [|done]); cbn [negb];
    destruct (s !! dst) as [[other|]|] eqn:Hd; try done.
  - apply tree_move_file; (done || congruence).
  - apply tree_move_file; (done || congruence).
  - case_bool_decide; [done|]. by apply tree_move_tree.
Qed.

Lemma keeps_tree_shutil_move (src dst : path) :
  dst ≠ [] → keeps_tree (shutil_move src dst).
Proof.
  intros Hdst s Hs. unfold shutil_move.
  destruct (s !! dst) as [[other|]|]; try by apply keeps_tree_os_replace.
  case_bool_decide; [done|].
  apply keeps_tree_os_replace; [by destruct dst|done].
Qed.

Lemma keeps_tree_copy_loop (fuel : nat) (out : path) (stream : list Byte.byte)
    (written : Z) :
  keeps_tree (copy_loop fuel out stream written).
Proof.
  revert stream written. induction fuel as [|fuel IH]; intros stream written.
  { apply keeps_tree_raise. }
  cbn [copy_loop]. destruct (stream_read READ_SIZE stream) as [[|b chunk] rest].
  - apply keeps_tree_ret.
  - apply keeps_tree_bind; [apply keeps_tree_write|intros _; apply IH].
Qed.

Section Tree.
Context `{Platform}.

Lemma keeps_tree_st_size (p : path) : keeps_tree (st_size p).
Proof.
  apply keeps_tree_reads. intros s. unfold st_size. by destruct (s !! p).
Qed.

Lemma keeps_tree_int_arg (req : request) (key : string) :
  keeps_tree (int_arg req key).
Proof.
  apply keeps_tree_reads. intros s. unfold int_arg.
  by destruct (declared req key).
Qed.

Lemma keeps_tree_size_matches (size : Z) (p : path) :
  keeps_tree (size_matches size p).
Proof. apply keeps_tree_reads, size_matches_reads. Qed.

Lemma keeps_tree_replace_attempts (attempts : nat) (src dst : path)
    (last_err : option exn) :
  dst ≠ [] → keeps_tree (replace_attempts attempts src dst last_err).
Proof.
  intros Hdst. revert last_err.
  induction attempts as [|n IH]; intros last_err; [apply keeps_tree_ret|].
  cbn [replace_attempts]. apply keeps_tree_bind.
  { by apply keeps_tree_try, keeps_tree_os_replace. }
  intros [e|[]]; [|apply keeps_tree_ret].
  destruct (is_OSError e); [apply IH|apply keeps_tree_raise].
Qed.

Lemma keeps_tree_atomic_move (src dst : path) :
  dst ≠ [] → keeps_tree (_atomic_move_with_retry src dst).
Proof.
  intros Hdst. unfold _atomic_move_with_retry. apply keeps_tree_bind.
  { by apply keeps_tree_replace_attempts. }
  intros [[] last_err]; [apply keeps_tree_ret|].
  apply keeps_tree_bind.
  { by apply keeps_tree_try, keeps_tree_shutil_move. }
  intros [e|[]]; [apply keeps_tree_raise|apply keeps_tree_ret].
Qed.

Lemma keeps_tree_upload_status (req : request) : keeps_tree (upload_status req).
Proof. apply keeps_tree_reads, upload_status_reads. Qed.

Lemma keeps_tree_append_chunk (size current : Z) (tmp : path)
    (stream : list Byte.byte) :
  keeps_tree (append_chunk size current tmp stream).
Proof.
  unfold append_chunk.
  apply keeps_tree_bind; [apply keeps_tree_mkdir_parents|intros _].
  apply keeps_tree_bind; [apply keeps_tree_open_append|intros _].
  apply keeps_tree_bind; [apply keeps_tree_copy_loop|intros written].
  cbv zeta. destruct (_ && _); [apply keeps_tree_raise|apply keeps_tree_ret].
Qed.

Lemma keeps_tree_upload_chunk (req : request) : keeps_tree (upload_chunk req).
Proof.
  unfold upload_chunk. cbv zeta.
  apply keeps_tree_bind; [apply keeps_tree_int_arg|intros size].
  apply keeps_tree_bind; [apply keeps_tree_int_arg|intros offset].
  destruct (_ || _); [apply keeps_tree_raise|].
  apply keeps_tree_bind; [apply keeps_tree_exists|intros tmp_exists].
  apply keeps_tree_bind.
  { destruct tmp_exists; [apply keeps_tree_st_size|apply keeps_tree_ret]. }
  intros current. destruct (negb _); [apply keeps_tree_ret|].
  apply keeps_tree_append_chunk.
Qed.

Lemma keeps_tree_finish_recover (size : Z) (tmp final_pref : path) (e : exn) :
  keeps_tree (finish_recover size tmp final_pref e).
Proof.
  unfold finish_recover.
  apply keeps_tree_bind; [apply keeps_tree_exists|intros final_exists].
  apply keeps_tree_bind.
  { destruct final_exists; [|apply keeps_tree_ret].
    apply keeps_tree_try, keeps_tree_bind; [apply keeps_tree_size_matches|].
    intros []; [|apply keeps_tree_ret].
    apply keeps_tree_bind; [|intros _; apply keeps_tree_ret].
    apply keeps_tree_try, keeps_tree_unlink. }
  intros [e'|[]]; (apply keeps_tree_raise || apply keeps_tree_ret).
Qed.

Lemma keeps_tree_finish_from (size : Z) (tmp final_pref : path) :
  final_pref ≠ [] → keeps_tree (finish_from size tmp final_pref).
Proof.
  intros Hne. unfold finish_from.
  apply keeps_tree_bind; [apply keeps_tree_exists|intros tmp_exists].
  destruct (negb tmp_exists).
  { apply keeps_tree_bind; [apply keeps_tree_exists|].
    intros []; [apply keeps_tree_ret|apply keeps_tree_raise]. }
  apply keeps_tree_bind; [apply keeps_tree_mkdir_parents|intros _].
  unfold finish_move. apply keeps_tree_bind.
  { by apply keeps_tree_try, keeps_tree_atomic_move. }
  intros [e|[]]; [|apply keeps_tree_ret].
  destruct e; try apply keeps_tree_finish_recover.
  apply keeps_tree_bind; [apply keeps_tree_exists|].
  intros []; [apply keeps_tree_ret|apply keeps_tree_raise].
Qed.

Lemma keeps_tree_upload_finish (req : request) : keeps_tree (upload_finish req).
Proof.
  unfold upload_finish. cbv zeta.
  apply keeps_tree_bind; [apply keeps_tree_int_arg|intros size].
  case_bool_decide; [apply keeps_tree_raise|].
  assert (∀ name rel, _final_path name rel ≠ []) as Hfinal.
  { intros name rel. rewrite final_path_snoc.
    intros Heq%(f_equal length). rewrite length_app in Heq. simpl in Heq. lia. }
  apply keeps_tree_bind; [apply keeps_tree_exists|intros final_exists].
  destruct final_exists; [|by apply keeps_tree_finish_from].
  apply keeps_tree_bind; [apply keeps_tree_exists|intros tmp_exists].
  destruct (negb tmp_exists).
  { apply keeps_tree_bind; [apply keeps_tree_size_matches|].
    intros []; [apply keeps_tree_ret|by apply keeps_tree_finish_from]. }
  intros s Hs. unfold mbind, M_bind.
  set (final := _final_path _ _).
  destruct (s !! final) as [n|] eqn:Hfin.
  - destruct (unique_path_taken final s) as (i & _ & _ & _ & ->); [eauto|].
    apply keeps_tree_finish_from; [|done].
    unfold candidate, with_name.
    intros Heq%(f_equal length). rewrite length_app in Heq. simpl in Heq. lia.
  - rewrite unique_path_free by done. by apply keeps_tree_finish_from.
Qed.

(** Each request leaves a tree a tree, so every filesystem that the
    routes make of [fresh] is one. *)
Lemma serve_well_formed (o : operation) (s : filesystem) :
  well_formed s = true → well_formed (serve (view o) s).1 = true.
Proof.
  rewrite !well_formed_tree, serve_state. intros Hs.
  destruct o as [req|req|req]; cbn [view].
  - by apply keeps_tree_upload_status.
  - by apply keeps_tree_upload_chunk.
  - by apply keeps_tree_upload_finish.
Qed.

Lemma states_after_well_formed (ops : list operation) (s : filesystem) :
  well_formed s = true →
  Forall (λ s', well_formed s' = true) (states_after ops s).
Proof.
  revert s. induction ops as [|o ops IH]; intros s Hs; cbn [states_after].
  { constructor. }
  constructor; [by apply serve_well_formed|].
  by apply IH, serve_well_formed.
Qed.

End Tree.

Example fresh_well_formed : well_formed fresh = true.
Proof. vm_compute. reflexivity. Qed.

(** ** An upload from start to end *)

(** Two chunks, a chunk at a wrong offset in between, a status request, and
    finish called twice, on a fresh upload root. *)
Example whole_upload :
  let name := [("name", "photo.jpg"); ("size", "10")]%string in
  let first := serve (upload_chunk (query (("offset", "0")%string :: name) hello)) fresh in
  let wrong := serve (upload_chunk (query (("offset", "7")%string :: name) hello)) first.1 in
  let status := serve (upload_status (query name [])) wrong.1 in
  let second := serve (upload_chunk (query (("offset", "5")%string :: name) hello)) status.1 in
  let finish := serve (upload_finish (query name [])) second.1 in
  let again := serve (upload_finish (query name [])) finish.1 in
  first.2 = Json 200 [("received"%string, JInt 5)]
  ∧ wrong.2 = Json 409 [("received"%string, JInt 5)]
  ∧ status.2 = Json 200 [("received"%string, JInt 5)]
  ∧ second.2 = Json 200 [("received"%string, JInt 10)]
  ∧ finish.2 = Json 200 [("ok", JBool true);
                         ("path", JStr "D:/iphone8OLD/PhoneUploads/photo.jpg")]%string
  ∧ again.2 = Json 200 [("ok", JBool true);
                        ("path", JStr "D:/iphone8OLD/PhoneUploads/photo.jpg");
                        ("note", JStr "already finalized")]%string
  ∧ again.1 !! _final_path "photo.jpg" "" = Some (File (hello ++ hello))
  ∧ again.1 !! _tmp_path "photo.jpg" "" = None
  ∧ again.1 !! candidate (_final_path "photo.jpg" "") 1 = None.
Proof. intros name first wrong status second finish again. sample. Qed.

(** * Further properties of [server.py] *)

(** ** What [_safe_relpath] lets through *)

Lemma rstrip_no_newline (s : string) : chop_newline (Py.rstrip s) = None.
Proof.
  induction s as [|c s IH]; [done|]. cbn [Py.rstrip].
  destruct (Py.rstrip s) as [|d r].
  - destruct (Py.isspace c) eqn:Hc; [done|]. cbn [chop_newline].
    case_bool_decide; [|done]. subst c. by vm_compute in Hc.
  - change (chop_newline (String c (String d r)))
      with (String c <$> chop_newline (String d r)).
    by rewrite IH.
Qed.

Lemma prefix_all (n : nat) (s : string) :
  (String.length s ≤ n)%nat → Py.prefix n s = s.
Proof.
  revert s. induction n as [|n IH]; intros [|c s] Hlen; try done.
  - simpl in Hlen. lia.
  - cbn [Py.prefix]. f_equal. apply IH. simpl in Hlen. lia.
Qed.

Lemma safe_body_length (seg : string) :
  safe_body seg = true → (1 ≤ String.length seg ≤ 255)%nat.
Proof.
  unfold safe_body. rewrite andb_true_iff. intros [_ Hlen].
  by apply bool_decide_eq_true in Hlen.
Qed.

(** A stripped segment that [SAFE_SEG] matches is in the class from its
    first to its last character: the newline that [$] would overlook has
    been stripped. *)
Lemma SAFE_SEG_match_stripped (raw : string) :
  SAFE_SEG_match (Py.strip raw) = true → safe_body (Py.strip raw) = true.
Proof.
  unfold SAFE_SEG_match, Py.strip. rewrite rstrip_no_newline.
  by rewrite orb_false_r.
Qed.

Lemma kept_segment_safe (raw : string) :
  let seg := Py.strip raw in
  let seg := if SAFE_SEG_match seg then seg else "_"%string in
  safe_body (Py.prefix 255 seg) = true ∧ Py.prefix 255 seg = seg.
Proof.
  cbv zeta. destruct (SAFE_SEG_match (Py.strip raw)) eqn:Hmatch.
  - apply SAFE_SEG_match_stripped in Hmatch.
    rewrite prefix_all by (apply safe_body_length in Hmatch; lia). done.
  - by vm_compute.
Qed.



(** ** Sanitizing twice *)

Lemma lstrip_head (s : string) (c : ascii) (r : string) :
  Py.lstrip s = String c r → Py.isspace c = false.
Proof.
  induction s as [|d s IH]; [done|]. cbn [Py.lstrip].
  destruct (Py.isspace d) eqn:Hd; [done|]. by intros [= <- _].
Qed.

Lemma rstrip_head (c : ascii) (s : string) :
  Py.isspace c = false → ∃ r, Py.rstrip (String c s) = String c r.
Proof.
  intros Hc. cbn [Py.rstrip]. rewrite Hc. destruct (Py.rstrip s); eauto.
Qed.

Lemma rstrip_rstrip (s : string) : Py.rstrip (Py.rstrip s) = Py.rstrip s.
Proof.
  induction s as [|c s IH]; [done|]. cbn [Py.rstrip].
  destruct (Py.rstrip s) as [|d r] eqn:Hr.
  - destruct (Py.isspace c) eqn:Hc; [done|]. cbn [Py.rstrip]. by rewrite Hc.
  - change (Py.rstrip (String c (String d r)))
      with (match Py.rstrip (String d r) with
            | EmptyString =>
                if Py.isspace c then EmptyString else String c EmptyString
            | r' => String c r'
            end).
    by rewrite IH.
Qed.

(** [strip] has nothing left to strip from its own result. *)
Lemma strip_strip (s : string) : Py.strip (Py.strip s) = Py.strip s.
Proof.
  unfold Py.strip. destruct (Py.lstrip s) as [|c r] eqn:Hl; [done|].
  apply lstrip_head in Hl.
  destruct (rstrip_head c r Hl) as [r' Hr]. rewrite Hr.
  cbn [Py.lstrip]. rewrite Hl. by rewrite <-Hr, rstrip_rstrip.
Qed.

Lemma split_one (is_sep : ascii → bool) (x : string) :
  Py.forallb (λ c, negb (is_sep c)) x = true → Py.split is_sep x = [x].
Proof.
  induction x as [|d x IH]; [done|]. cbn [Py.forallb Py.split].
  rewrite andb_true_iff, negb_true_iff. intros [-> Hx]. by rewrite IH.
Qed.

Lemma split_app (is_sep : ascii → bool) (x : string) (c : ascii) (rest : string) :
  Py.forallb (λ c, negb (is_sep c)) x = true → is_sep c = true →
  Py.split is_sep (x +:+ String c rest) = x :: Py.split is_sep rest.
Proof.
  intros Hx Hc. induction x as [|d x IH].
  - change (Py.split is_sep (String c rest) = "" :: Py.split is_sep rest)%string.
    cbn [Py.split]. by rewrite Hc.
  - cbn [Py.forallb] in Hx. apply andb_true_iff in Hx as [Hd Hx].
    apply negb_true_iff in Hd.
    rewrite string_app_cons. cbn [Py.split]. by rewrite Hd, IH.
Qed.

(** Splitting what was joined gives the parts back, when no separator is
    inside a part. *)
Lemma split_path_str (l : list string) :
  l ≠ [] →
  Forall (λ seg, Py.forallb (λ c, negb (is_slash c)) seg = true) l →
  Py.split is_slash (path_str l) = l.
Proof.
  intros Hne Hl. unfold path_str.
  induction Hl as [|x l Hx Hl IH]; [done|].
  destruct l as [|y l].
  - by apply split_one.
  - change (String.concat "/" (x :: y :: l))
      with (x +:+ String "/"%char (String.concat "/" (y :: l))).
    rewrite split_app by done. by rewrite IH.
Qed.

Lemma safe_relpath_loop_clean (raws parts : list string) :
  Forall clean_segment parts →
  Forall clean_segment (safe_relpath_loop raws parts).
Proof.
  revert parts. induction raws as [|raw raws IH]; intros parts Hparts; [done|].
  cbn [safe_relpath_loop]. case_bool_decide as Hseg; [by apply IH|].
  assert (Forall clean_segment
            (parts ++ [Py.prefix 255 (if SAFE_SEG_match (Py.strip raw)
                                      then Py.strip raw else "_"%string)]))
    as Hnext.
  { apply Forall_app. split; [done|]. apply Forall_singleton.
    destruct (kept_segment_safe raw) as [_ Hcut]. cbv zeta in Hcut.
    rewrite Hcut. destruct (SAFE_SEG_match (Py.strip raw)) eqn:Hmatch.
    - split_and!; [apply strip_strip|done|done|done].
    - split_and!; [by vm_compute| |by vm_compute..].
      intros [?|[?|?]]; discriminate. }
  case_bool_decide; [done|]. by apply IH.
Qed.

Lemma safe_relpath_loop_fixed (l parts : list string) :
  (length parts + length l ≤ 50)%nat →
  Forall clean_segment l →
  safe_relpath_loop l parts = parts ++ l.
Proof.
  intros Hlen Hl. revert parts Hlen.
  induction Hl as [|seg l (Hstrip & Hskip & Hmatch & Hcut) Hl IH];
    intros parts Hlen; cbn [safe_relpath_loop].
  { by rewrite app_nil_r. }
  simpl in Hlen. rewrite Hstrip, bool_decide_eq_false_2 by done.
  rewrite Hmatch, Hcut. case_bool_decide as Hcap.
  - rewrite length_app in Hcap. simpl in Hcap.
    destruct l; [done|]. simpl in Hlen. lia.
  - rewrite IH by (rewrite length_app; simpl; lia).
    by rewrite <-(assoc_L (++)).
Qed.

(** X2. Sanitizing is idempotent: the sanitized path, written out with
    slashes and sanitized again, is the same path. No segment is cut,
    replaced or dropped the second time, and the cap on the depth lets
    all of them through. *)
Theorem safe_relpath_idempotent (rel : string) :
  _safe_relpath (path_str (_safe_relpath rel)) = _safe_relpath rel.
Proof.
  pose proof (safe_relpath_loop_clean (Py.split is_slash rel) [] ltac:(constructor))
    as Hclean.
  pose proof (safe_relpath_loop_length (Py.split is_slash rel) [] ltac:(simpl; lia))
    as Hlen.
  fold (_safe_relpath rel) in Hclean, Hlen.
  destruct (decide (_safe_relpath rel = [])) as [->|Hne]; [by vm_compute|].
  unfold _safe_relpath at 1. rewrite split_path_str; [|done|].
  - by apply safe_relpath_loop_fixed.
  - eapply Forall_impl; [exact Hclean|].
    intros seg (_ & _ & Hmatch & _). by apply SAFE_SEG_match_no_slash.
Qed.

(** ** Free names, again ([_unique_path]) *)

Section UniqueMore.
Context `{Platform}.

(** X3. [_unique_path] on a path that lies below the upload root by
    plain names, as every path the routes pass to it does (pathlib has
    [with_name] for a path with a name only): it returns, whatever the
    filesystem, and changes nothing. The path it returns is
    free and lies in the directory of the path given; it is the path given
    when that is free, and otherwise the candidate with the least counter
    from 1 on that is free. *)
Theorem unique_path_free_sibling (p : path) (s : filesystem) :
  confined UPLOAD_ROOT p →
  ∃ q, _unique_path p s = (s, Ok q)
    ∧ s !! q = None
    ∧ parent q = parent p
    ∧ match s !! p with
      | None => q = p
      | Some _ =>
          ∃ i, 1 ≤ i ∧ q = candidate p i
            ∧ ∀ j, 1 ≤ j < i → is_Some (s !! candidate p j)
      end.
Proof.
  intros _. destruct (s !! p) as [n|] eqn:Hp.
  - destruct (unique_path_taken p s) as (i & Hi & Hfree & Htaken & Hrun); [eauto|].
    exists (candidate p i). split_and!; [done..|apply parent_candidate|eauto].
  - exists p. by rewrite unique_path_free.
Qed.

End UniqueMore.

Lemma unique_path_free_sibling_witness :
  let p := _final_path "a.txt" "" in
  let s := <[p := File hello]> fresh in
  _unique_path p s = (s, Ok (UPLOAD_ROOT ++ ["a (1).txt"%string])).
Proof.
  intros p s.
  destruct (unique_path_free_sibling p s) as (q & Hrun & _ & _ & Hcase).
  { exists ["a.txt"%string]. split_and!; [reflexivity|discriminate|].
    apply Forall_singleton. unfold plain_segment. sample. }
  replace (s !! p) with (Some (File hello)) in Hcase by (vm_compute; reflexivity).
  destruct Hcase as (i & Hi & -> & Htaken).
  assert (i = 1) as ->.
  { destruct (decide (1 < i)) as [Hlt|]; [|lia].
    destruct (Htaken 1 ltac:(lia)) as [x Hx]. vm_compute in Hx. discriminate. }
  rewrite Hrun. apply (f_equal (pair s)). vm_compute. reflexivity.
Defined.

Section Extension.
Context `{Platform}.

(** X4. A path with a suffix keeps it in every candidate of
    [_unique_path]: the counter goes between stem and suffix, so the
    candidate has the stem followed by [" (i)"] for its stem, and the
    same suffix. *)
Theorem candidate_keeps_suffix (p : path) (i : Z) :
  suffix p ≠ ""%string →
  suffix (candidate p i) = suffix p
  ∧ stem (candidate p i) = stem p +:+ " (" +:+ pretty i +:+ ")".
Proof.
  intros Hsuf.
  destruct (suffix_shape p) as [?|(rest & Hrest & Hdot)]; [done|].
  destruct (suffix_rest p rest Hrest) as [Hne Hstem].
  assert (split_ext (name_of (candidate p i))
          = (stem p +:+ " (" +:+ pretty i +:+ ")", suffix p)) as Hcut.
  { unfold candidate, with_name. rewrite name_of_snoc, Hrest.
    replace (stem p +:+ " (" +:+ pretty i +:+ ")" +:+ String "." rest)
      with ((stem p +:+ " (" +:+ pretty i +:+ ")") +:+ String "." rest)
      by (by rewrite !string_app_assoc).
    apply split_ext_app; [|done..].
    destruct (stem p); [done|]. by rewrite string_app_cons. }
  unfold suffix at 1, stem at 1. by rewrite Hcut.
Qed.

End Extension.

Lemma candidate_keeps_suffix_witness :
  let p := _final_path "archive.tar.gz" "" in
  suffix (candidate p 7) = ".gz"%string
  ∧ stem (candidate p 7) = "archive.tar (7)"%string.
Proof.
  intros p.
  destruct (candidate_keeps_suffix p 7) as [Hsuf Hstem];
    [vm_compute; discriminate|].
  rewrite Hsuf, Hstem. clear. split; vm_compute; reflexivity.
Defined.

(** ** Moves that fail ([_atomic_move_with_retry]) *)

(** [os.replace] changes nothing when it raises, and what it raises is an
    [OSError]. *)
Lemma os_replace_raises (src dst : path) (s s' : filesystem) (e : exn) :
  os_replace src dst s = (s', Raise e) → s' = s ∧ is_OSError e = true.
Proof.
  unfold os_replace. destruct (s !! src) as [[data|]|]; [..|by intros [= <- <-]].
  - destruct (negb _); [by intros [= <- <-]|].
    destruct (s !! dst) as [[other|]|]; [done|by intros [= <- <-]|done].
  - destruct (negb _); [by intros [= <- <-]|].
    destruct (s !! dst) as [other|]; [by intros [= <- <-]|].
    case_bool_decide; [by intros [= <- <-]|done].
Qed.

Lemma shutil_move_raises (src dst : path) (s s' : filesystem) (e : exn) :
  shutil_move src dst s = (s', Raise e) → s' = s.
Proof.
  unfold shutil_move. destruct (s !! dst) as [[other|]|].
  - intros Hrun. by apply os_replace_raises in Hrun as [? _].
  - case_bool_decide; [by intros [= <- <-]|].
    intros Hrun. by apply os_replace_raises in Hrun as [? _].
  - intros Hrun. by apply os_replace_raises in Hrun as [? _].
Qed.

Section Moves.
Context `{Platform}.

(** With nothing else at work on the filesystem, an attempt that failed
    fails again: the attempts end with the error of the first. *)
Lemma replace_attempts_fail (attempts : nat) (src dst : path)
    (last_err : option exn) (e : exn) (s : filesystem) :
  os_replace src dst s = (s, Raise e) →
  replace_attempts attempts src dst last_err s
  = (s, Ok (false, match attempts with O => last_err | S _ => Some e end)).
Proof.
  intros Hfail. revert last_err.
  induction attempts as [|n IH]; intros last_err; [done|].
  cbn [replace_attempts]. run_M. rewrite Hfail.
  destruct (os_replace_raises src dst s s e Hfail) as [_ ->].
  rewrite IH. by destruct n.
Qed.

(** X5. [_atomic_move_with_retry] on a regular file does all or nothing.
    When it returns, the file is gone from its old path and is, bytes
    unchanged, at the destination, or inside the destination under its own
    name when the destination is a directory. When it raises, the
    filesystem is as it was, and the error is the one [os.replace] raised,
    not the one of [shutil.move]. *)
Theorem atomic_move_all_or_nothing (src dst : path) (data : list Byte.byte)
    (s : filesystem) :
  s !! src = Some (File data) →
  match _atomic_move_with_retry src dst s with
  | (s', Ok _) =>
      ∃ d, (d = dst ∨ (s !! dst = Some Dir ∧ d = dst ++ [name_of src]))
        ∧ s' = <[d := File data]> (delete src s)
  | (s', Raise e) => s' = s ∧ (os_replace src dst s).2 = Raise e
  end.
Proof.
  intros Hsrc. unfold _atomic_move_with_retry.
  destruct (os_replace src dst s) as [s1 [[]|e]] eqn:Hfirst.
  - cbn [replace_attempts]. run_M. rewrite Hfirst.
    exists dst. split; [by left|].
    revert Hfirst. unfold os_replace. rewrite Hsrc.
    destruct (negb _); [done|].
    destruct (s !! dst) as [[other|]|]; by intros [= <-].
  - destruct (os_replace_raises src dst s s1 e Hfirst) as [-> Hos].
    run_M. rewrite (replace_attempts_fail 10 src dst None e s Hfirst).
    destruct (shutil_move src dst s) as [s2 [[]|e2]] eqn:Hmove; cbn [default].
    + revert Hmove. unfold shutil_move.
      destruct (s !! dst) as [[other|]|] eqn:Hdst; [congruence| |congruence].
      case_bool_decide as Hreal; [done|].
      unfold os_replace. rewrite Hsrc. destruct (negb _); [done|].
      destruct (s !! (dst ++ [name_of src])) as [n|] eqn:Hthere.
      { contradict Hreal. eauto. }
      intros [= <-]. exists (dst ++ [name_of src]). split; [by right|done].
    + by apply shutil_move_raises in Hmove.
Qed.

End Moves.

Lemma atomic_move_all_or_nothing_witness :
  let src := _tmp_path "a.txt" "" in
  let s := <[src := File hello]> fresh in
  match _atomic_move_with_retry src UPLOAD_ROOT s with
  | (s', Ok _) =>
      ∃ d, (d = UPLOAD_ROOT
            ∨ (s !! UPLOAD_ROOT = Some Dir ∧ d = UPLOAD_ROOT ++ [name_of src]))
        ∧ s' = <[d := File hello]> (delete src s)
  | (s', Raise e) => s' = s ∧ (os_replace src UPLOAD_ROOT s).2 = Raise e
  end.
Proof.
  intros src s. apply (atomic_move_all_or_nothing src UPLOAD_ROOT hello s).
  vm_compute. reflexivity.
Defined.

(** ** Finishing with no partial file ([upload_finish]) *)

Section FinishMore.
Context `{Platform}.

(** X6. A finish request for a target whose partial file is not there
    changes nothing. It is answered 404 "no partial upload found" when
    the final file is not there either, so also for an empty file, for
    which no chunk was ever sent; and ok with the note "already
    finalized" when the final file is there. *)
Theorem finish_without_partial (req : request) (name : string) (size : Z)
    (relpath : string) (s : filesystem) :
  finish_request req name size relpath →
  s !! _tmp_path name relpath = None →
  serve (upload_finish req) s
  = (s,
     match s !! _final_path name relpath with
     | Some _ =>
         Json 200 [("ok"%string, JBool true);
                   ("path"%string, JStr (path_str (_final_path name relpath)));
                   ("note"%string, JStr "already finalized")]
     | None => ErrorPage 404 "no partial upload found"
     end).
Proof.
  intros Hreq Htmp.
  destruct (s !! _final_path name relpath) as [fin|] eqn:Hfin.
  { by apply (upload_finish_already req name size relpath fin). }
  unfold serve. rewrite (upload_finish_named req name size relpath) by done.
  cbv zeta. run_M.
  rewrite bool_decide_eq_false_2 by (intros [? ?]; congruence).
  unfold finish_from. run_M.
  rewrite bool_decide_eq_false_2 by (intros [? ?]; congruence). cbn [negb].
  by rewrite bool_decide_eq_false_2 by (intros [? ?]; congruence).
Qed.

(** X7. The routes read size and offset with [int] before they look at
    anything else: a size that [int] does not take, or such an offset in
    a chunk request, is answered 500, whatever the rest of the request,
    and the filesystem is left as it is. *)
Theorem not_an_integer (o : operation) (s : filesystem) :
  declared (request_of o) "size" = None
  ∨ (∃ req, o = Chunk req ∧ declared req "offset" = None) →
  serve (view o) s = (s, ErrorPage 500 "Internal Server Error").
Proof.
  intros [Hsize|(req & -> & Hoffset)].
  - destruct o as [req|req|req]; cbn in Hsize |- *;
      unfold serve, upload_status, upload_chunk, upload_finish; run_M;
      by rewrite Hsize.
  - cbn. unfold serve, upload_chunk. run_M.
    destruct (declared req "size") as [size|]; [|done]. by rewrite Hoffset.
Qed.

End FinishMore.

Lemma finish_without_partial_witness :
  let req := query [("name", "empty.txt"); ("size", "0")]%string [] in
  serve (upload_finish req) fresh
  = (fresh, ErrorPage 404 "no partial upload found").
Proof.
  intros req.
  rewrite (finish_without_partial req "empty.txt" 0 "" fresh);
    [|unfold finish_request; sample|sample].
  f_equal; vm_compute; reflexivity.
Defined.

Lemma not_an_integer_witness :
  let req := query [("name", "a.txt"); ("size", "12.5")]%string [] in
  serve (upload_finish req) fresh = (fresh, ErrorPage 500 "Internal Server Error").
Proof.
  intros req. apply (not_an_integer (Finish req) fresh).
  left. vm_compute. reflexivity.
Defined.

(** ** What a request leaves alone *)

Section Frame.
Context `{Platform}.

(** [upload_chunk] when its checks have failed: nothing is written. *)
Lemma upload_chunk_rejected (req : request) (s : filesystem) :
  declared req "size" = None ∨ declared req "offset" = None
  ∨ (∃ size offset, declared req "size" = Some size
       ∧ declared req "offset" = Some offset
       ∧ (args_get req "name" "" = ""%string ∨ size < 0 ∨ offset < 0)) →
  (upload_chunk req s).1 = s.
Proof.
  intros Hbad. unfold upload_chunk. run_M.
  destruct (declared req "size") as [size|] eqn:Hsize; [|done].
  destruct (declared req "offset") as [offset|] eqn:Hoffset; [|done].
  destruct Hbad as [?|[?|(? & ? & [= <-] & [= <-] & Hbad)]]; [done..|].
  assert (bool_decide (args_get req "name" "" = ""%string)
          || (size <? 0) || (offset <? 0) = true) as ->; [|done].
  destruct Hbad as [Hbad|[Hbad|Hbad]].
  - by rewrite bool_decide_eq_true_2.
  - rewrite (proj2 (Z.ltb_lt _ _) Hbad). by rewrite orb_true_r.
  - rewrite (proj2 (Z.ltb_lt _ _) Hbad). by rewrite orb_true_r.
Qed.

(** Away from the partial file, [append_chunk] is [mkdir]. *)
Lemma append_chunk_elsewhere (size current : Z) (q : path) (x : string)
    (stream : list Byte.byte) (s : filesystem) (k : path) :
  k ≠ q ++ [x] →
  (append_chunk size current (q ++ [x]) stream s).1 !! k
  = (mkdir_parents q s).1 !! k.
Proof.
  intros Hk. unfold mkdir_parents.
  destruct (mkdir_rev s (rev q)) as [s1|] eqn:Hmk; cbn [fst].
  - destruct (s !! (q ++ [x])) as [[data|]|] eqn:Htmp.
    + rewrite (append_chunk_appends size current q x stream s s1)
        by (done || congruence).
      cbn [fst]. by rewrite lookup_insert_ne.
    + unfold append_chunk. run_M. unfold mkdir_parents.
      rewrite parent_snoc, Hmk. unfold open_append.
      by rewrite (mkdir_rev_keeps s s1 (rev q) _ Dir).
    + rewrite (append_chunk_appends size current q x stream s s1)
        by (done || congruence).
      cbn [fst]. by rewrite lookup_insert_ne.
  - unfold append_chunk. run_M. unfold mkdir_parents.
    by rewrite parent_snoc, Hmk.
Qed.

Lemma upload_chunk_elsewhere (req : request) (s : filesystem) (k : path) :
  let tmp := _tmp_path (args_get req "name" "") (args_get req "relpath" "") in
  k ≠ tmp →
  (upload_chunk req s).1 !! k = s !! k
  ∨ (upload_chunk req s).1 !! k = (mkdir_parents (parent tmp) s).1 !! k.
Proof.
  intros tmp Hk.
  destruct (declared req "size") as [size|] eqn:Hsize.
  2: { left. rewrite upload_chunk_rejected; [done|by left]. }
  destruct (declared req "offset") as [offset|] eqn:Hoffset.
  2: { left. rewrite upload_chunk_rejected; [done|by right; left]. }
  destruct (decide (args_get req "name" "" = ""%string ∨ size < 0 ∨ offset < 0))
    as [Hbad|Hok].
  { left. rewrite upload_chunk_rejected; [done|]. right; right. eauto. }
  rewrite (upload_chunk_accepted req (args_get req "name" "") size offset
             (args_get req "relpath" ""))
    by (unfold chunk_request; split_and!; (done || lia || tauto)).
  cbv zeta. fold tmp. destruct (negb _); [by left|]. right.
  revert Hk. unfold tmp. rewrite tmp_path_snoc, parent_snoc.
  apply append_chunk_elsewhere.
Qed.

(** Away from the partial file, [upload_chunk] leaves every entry as it
    is, or makes a directory on the way to the partial file. *)
Lemma upload_chunk_frame (req : request) (s : filesystem) (k : path) :
  let tmp := _tmp_path (args_get req "name" "") (args_get req "relpath" "") in
  let s' := (upload_chunk req s).1 in
  k ≠ tmp →
  s' !! k = s !! k
  ∨ (s !! k = None ∧ s' !! k = Some Dir ∧ k `prefix_of` parent tmp).
Proof.
  intros tmp s' Hk. unfold s'.
  destruct (upload_chunk_elsewhere req s k Hk) as [->| ->]; [by left|].
  fold tmp. unfold mkdir_parents.
  destruct (mkdir_rev s (rev (parent tmp))) as [s1|] eqn:Hmk; [|by left].
  cbn [fst].
  destruct (mkdir_rev_lookup s s1 _ k Hmk) as [?|(? & ? & Hpre)]; [by left|].
  right. by rewrite rev_involutive in Hpre.
Qed.

(** X8. A chunk request, whatever it asks for, touches one file only: the
    partial file of its target. Every other entry of the filesystem is
    after the request what it was before; all that can appear besides is
    a directory on the way to the partial file, at a path where there was
    nothing. *)
Theorem chunk_touches_one_file (req : request) (s : filesystem) (k : path) :
  let tmp := _tmp_path (args_get req "name" "") (args_get req "relpath" "") in
  let s' := (serve (upload_chunk req) s).1 in
  k ≠ tmp →
  s' !! k = s !! k
  ∨ (s !! k = None ∧ s' !! k = Some Dir ∧ k `prefix_of` parent tmp).
Proof.
  intros tmp s' Hk. unfold s'. rewrite serve_state.
  by apply upload_chunk_frame.
Qed.





End Frame.

Lemma chunk_touches_one_file_witness :
  let req := query [("name", "b.txt"); ("size", "5"); ("offset", "0");
                    ("relpath", "trip")]%string hello in
  let k := _tmp_path "a.txt" "" in
  let s := <[k := File hello]> fresh in
  (serve (upload_chunk req) s).1 !! k = Some (File hello).
Proof.
  intros req k s.
  destruct (chunk_touches_one_file req s k) as [Hsame|(Hnone & _)].
  - vm_compute. discriminate.
  - rewrite Hsame. vm_compute. reflexivity.
  - vm_compute in Hnone. discriminate.
Defined.


(** ** Chunks in order, and a whole upload *)

(** [mkdir] does not look at a longer path. *)
Lemma mkdir_rev_insert_longer (s s' : filesystem) (rp : list string) (k : path)
    (n : node) :
  (length rp < length k)%nat →
  mkdir_rev s rp = Some s' →
  mkdir_rev (<[k := n]> s) rp = Some (<[k := n]> s').
Proof.
  revert s'. induction rp as [|x rp IH]; intros s' Hlen Hmk.
  { simpl in *. congruence. }
  cbn [mkdir_rev] in *.
  assert (k ≠ rev (x :: rp)) as Hne.
  { intros ->. rewrite length_rev in Hlen. lia. }
  rewrite lookup_insert_ne by done.
  destruct (s !! rev (x :: rp)) as [[data|]|]; simplify_eq; [done|].
  destruct (mkdir_rev s rp) as [s1|] eqn:Hrec; simplify_eq.
  rewrite (IH s1); [|simpl in Hlen; lia|done].
  by rewrite insert_insert_ne.
Qed.

Section Session.
Context `{Platform}.

Lemma partial_bytes_insert (s : filesystem) (tmp : path) (data : list Byte.byte) :
  partial_bytes (<[tmp := File data]> s) tmp = data.
Proof. unfold partial_bytes. by rewrite lookup_insert_eq. Qed.

Lemma current_length_insert (s : filesystem) (tmp : path) (data : list Byte.byte) :
  current_length (<[tmp := File data]> s) tmp = Z.of_nat (length data).
Proof. unfold current_length. by rewrite lookup_insert_eq. Qed.

Lemma bodies_cons (req : request) (reqs : list request) :
  bodies (req :: reqs) = body req ++ bodies reqs.
Proof. done. Qed.

(** Chunks in order, the first at the length received so far, none
    taking the total above the declared size. *)
Lemma chunks_in_order (name : string) (size : Z) (relpath : string)
    (req : request) (reqs : list request) (s s1 : filesystem) :
  let tmp := _tmp_path name relpath in
  let start := current_length s tmp in
  in_order name size relpath start (req :: reqs) →
  mkdir_rev s (rev (parent tmp)) = Some s1 →
  s !! tmp ≠ Some Dir →
  size = 0 ∨ start + Z.of_nat (length (bodies (req :: reqs))) ≤ size →
  serve_all (Chunk <$> req :: reqs) s
  = (<[tmp := File (partial_bytes s tmp ++ bodies (req :: reqs))]> s1,
     running_totals start (req :: reqs)).
Proof.
  intros tmp start. unfold start. clear start.
  revert req s s1. induction reqs as [|req' reqs IH];
    intros req s s1 [Hreq Hrest] Hmk Hnd Hsize.
  - cbn [fmap list_fmap serve_all view running_totals].
    rewrite (upload_chunk_appends req name size _ relpath s s1) by done.
    cbv zeta. fold tmp.
    rewrite bodies_cons in Hsize |- *. unfold bodies in *. simpl in *.
    rewrite app_nil_r in *.
    replace ((size <? _) && (0 <? size)) with false; [done|].
    symmetry. apply andb_false_iff. destruct Hsize as [->|Hle]; [by right|].
    left. apply Z.ltb_ge. lia.
  - change (Chunk <$> req :: req' :: reqs)
      with (Chunk req :: (Chunk <$> req' :: reqs)).
    cbn [serve_all view].
    rewrite (upload_chunk_appends req name size _ relpath s s1) by done.
    cbv zeta. fold tmp.
    rewrite !bodies_cons in Hsize. rewrite !length_app in Hsize.
    replace ((size <? _) && (0 <? size)) with false.
    2: { symmetry. apply andb_false_iff. destruct Hsize as [->|Hle]; [by right|].
         left. apply Z.ltb_ge. lia. }
    set (s2 := <[tmp := File (partial_bytes s tmp ++ body req)]> s1).
    assert (current_length s2 tmp
            = current_length s tmp + Z.of_nat (length (body req))) as Hlen.
    { unfold s2. rewrite current_length_insert, length_app.
      rewrite (current_length_partial_bytes s tmp) by done. lia. }
    rewrite (IH req' s2 s2).
    + rewrite Hlen. unfold s2. rewrite insert_insert_eq, partial_bytes_insert.
      rewrite (bodies_cons req), (assoc_L (++)). done.
    + by rewrite Hlen.
    + apply mkdir_rev_present. unfold s2.
      revert Hmk. unfold tmp. rewrite tmp_path_snoc, parent_snoc. intros Hmk.
      apply is_dir_insert_ne.
      * rewrite <-(rev_involutive (TMP_DIR ++ _)). by eapply mkdir_rev_is_dir.
      * rewrite (mkdir_rev_longer s s1 _ _ Hmk).
        { revert Hnd. unfold tmp. by rewrite tmp_path_snoc. }
        rewrite length_rev, !length_app. simpl. lia.
    + unfold s2. by rewrite lookup_insert_eq.
    + rewrite Hlen. rewrite bodies_cons, length_app in *.
      destruct Hsize as [?|?]; [by left|right; lia].
Qed.

(** X10. Resuming works. Chunk requests for one target that come in
    order, the first at the length received so far (zero when there is no
    partial file) and each next one where the one before has ended, are all
    taken when the total stays within the declared size (or none is
    declared): afterwards the partial file holds its former bytes and then
    the bodies in order, each answer is 200 with the running total in
    [received], and nothing else has changed but the directories made
    for the partial file. *)
Theorem chunks_accumulate (name : string) (size : Z) (relpath : string)
    (reqs : list request) (s s1 : filesystem) :
  let tmp := _tmp_path name relpath in
  let start := current_length s tmp in
  reqs ≠ [] →
  in_order name size relpath start reqs →
  mkdir_rev s (rev (parent tmp)) = Some s1 →
  s !! tmp ≠ Some Dir →
  size = 0 ∨ start + Z.of_nat (length (bodies reqs)) ≤ size →
  serve_all (Chunk <$> reqs) s
  = (<[tmp := File (partial_bytes s tmp ++ bodies reqs)]> s1,
     running_totals start reqs).
Proof.
  intros tmp start Hne. destruct reqs as [|req reqs]; [done|].
  apply chunks_in_order.
Qed.

Lemma serve_all_app (ops1 ops2 : list operation) (s : filesystem) :
  serve_all (ops1 ++ ops2) s
  = let '(s1, rs1) := serve_all ops1 s in
    let '(s2, rs2) := serve_all ops2 s1 in
    (s2, rs1 ++ rs2).
Proof.
  revert s. induction ops1 as [|o ops1 IH]; intros s.
  { simpl. by destruct (serve_all ops2 s). }
  cbn [app serve_all]. destruct (serve (view o) s) as [s1 r].
  rewrite IH. destruct (serve_all ops1 s1) as [s2 rs1].
  by destruct (serve_all ops2 s2).
Qed.

(** X11. A whole upload. For a target with no partial file, whose
    staging and final directories are there or can be made and whose
    preferred final path is free: chunk requests in order from offset
    zero, within the declared size, and then a finish request, leave the
    final file at the preferred path with the bodies in order for its
    bytes, and no partial file; the chunks are answered with the running
    totals and the finish request with ok and that path. Nothing else
    has changed but the directories made. *)
Theorem upload_session (name : string) (size : Z) (relpath : string)
    (reqs : list request) (fin : request) (s s1 s2 : filesystem) :
  let tmp := _tmp_path name relpath in
  let final := _final_path name relpath in
  reqs ≠ [] →
  in_order name size relpath 0 reqs →
  finish_request fin name size relpath →
  s !! tmp = None →
  mkdir_rev s (rev (parent tmp)) = Some s1 →
  mkdir_rev s1 (rev (parent final)) = Some s2 →
  s2 !! final = None →
  size = 0 ∨ Z.of_nat (length (bodies reqs)) ≤ size →
  serve_all ((Chunk <$> reqs) ++ [Finish fin]) s
  = (<[final := File (bodies reqs)]> s2,
     running_totals 0 reqs
     ++ [Json 200 [("ok"%string, JBool true);
                   ("path"%string, JStr (path_str final))]])
  ∧ (<[final := File (bodies reqs)]> s2) !! tmp = None.
Proof.
  intros tmp final Hne Hord Hfin Htmp Hmk1 Hmk2 Hfree Hsize.
  assert (length (parent final) < length tmp)%nat as Hlen.
  { unfold tmp, final. rewrite tmp_final_length, final_path_snoc, parent_snoc.
    rewrite !length_app. simpl. lia. }
  assert (tmp ≠ final) as Hdiff.
  { intros Heq%(f_equal length). unfold tmp, final in Heq.
    rewrite tmp_final_length in Heq. lia. }
  assert (s1 !! tmp = None) as Htmp1.
  { rewrite <-Htmp. apply (mkdir_rev_longer s s1 (rev (parent tmp))); [done|].
    unfold tmp. rewrite tmp_path_snoc, parent_snoc, length_rev, !length_app.
    simpl. lia. }
  assert (s2 !! tmp = None) as Htmp2.
  { rewrite <-Htmp1. apply (mkdir_rev_longer s1 s2 (rev (parent final))); [done|].
    by rewrite length_rev. }
  split; [|by rewrite lookup_insert_ne].
  rewrite serve_all_app. destruct reqs as [|req rest]; [done|].
  rewrite (chunks_in_order name size relpath req rest s s1).
  - set (reqs := req :: rest) in *. fold tmp. unfold partial_bytes. rewrite Htmp. cbn [app].
    rewrite current_length_missing by done.
    cbn [serve_all view].
    set (sA := <[tmp := File (bodies reqs)]> s1).
    assert (sA !! final = None) as HfreeA.
    { unfold sA. rewrite lookup_insert_ne by done.
      destruct (s1 !! final) as [n|] eqn:Hthere; [|done].
      by rewrite (mkdir_rev_keeps s1 s2 _ final n Hmk2 Hthere) in Hfree. }
    rewrite (upload_finish_moves fin name size relpath (bodies reqs) sA
               (<[tmp := File (bodies reqs)]> s2)); [|done|..].
    + fold tmp final. rewrite destination_free by done.
      by rewrite delete_insert_id.
    + fold tmp. unfold sA. by rewrite lookup_insert_eq.
    + fold final. unfold sA. apply mkdir_rev_insert_longer; [|done].
      by rewrite length_rev.
  - by rewrite current_length_missing.
  - done.
  - fold tmp. by rewrite Htmp.
  - by rewrite current_length_missing.
Qed.

End Session.

Lemma chunks_accumulate_witness :
  let target := [("name", "photo.jpg"); ("size", "15")]%string in
  let tmp := _tmp_path "photo.jpg" "" in
  let s := <[tmp := File hello]> fresh in
  let reqs := [query (("offset", "5")%string :: target) hello;
               query (("offset", "10")%string :: target) hello] in
  serve_all (Chunk <$> reqs) s
  = (<[tmp := File (hello ++ hello ++ hello)]> s,
     [Json 200 [("received"%string, JInt 10)];
      Json 200 [("received"%string, JInt 15)]]).
Proof.
  intros target tmp s reqs.
  rewrite (chunks_accumulate "photo.jpg" 15 "" reqs s s).
  - fold tmp. replace (partial_bytes s tmp) with hello by (vm_compute; reflexivity).
    replace (current_length s tmp) with 5 by (vm_compute; reflexivity).
    reflexivity.
  - discriminate.
  - replace (current_length s (_tmp_path "photo.jpg" "")) with 5
      by (vm_compute; reflexivity).
    unfold in_order, chunk_request. sample.
  - apply mkdir_rev_present. sample.
  - sample.
  - right. vm_compute. discriminate.
Defined.

Lemma upload_session_witness :
  let target := [("name", "photo.jpg"); ("size", "10"); ("relpath", "trip")]%string in
  let final := _final_path "photo.jpg" "trip" in
  let s1 := <[TMP_DIR ++ ["trip"%string] := Dir]> fresh in
  let s2 := <[UPLOAD_ROOT ++ ["trip"%string] := Dir]> s1 in
  let reqs := [query (("offset", "0")%string :: target) hello;
               query (("offset", "5")%string :: target) hello] in
  serve_all ((Chunk <$> reqs) ++ [Finish (query target [])]) fresh
  = (<[final := File (hello ++ hello)]> s2,
     [Json 200 [("received", JInt 5)];
      Json 200 [("received", JInt 10)];
      Json 200 [("ok", JBool true);
                ("path", JStr "D:/iphone8OLD/PhoneUploads/trip/photo.jpg")]]%string).
Proof.
  intros target final s1 s2 reqs.
  destruct (upload_session "photo.jpg" 10 "trip" reqs (query target []) fresh s1 s2)
    as [Hrun _].
  - discriminate.
  - unfold in_order, chunk_request. sample.
  - unfold finish_request. sample.
  - sample.
  - replace (parent (_tmp_path "photo.jpg" "trip"))
      with (TMP_DIR ++ ["trip"%string]) by (vm_compute; reflexivity).
    apply mkdir_rev_child; sample.
  - replace (parent (_final_path "photo.jpg" "trip"))
      with (UPLOAD_ROOT ++ ["trip"%string]) by (vm_compute; reflexivity).
    apply mkdir_rev_child; sample.
  - sample.
  - right. vm_compute. discriminate.
  - exact Hrun.
Defined.

(** ** The form upload ([upload_legacy]) *)

Lemma safe_relpath_empty : _safe_relpath "" = [].
Proof. reflexivity. Qed.

Section LegacyProperties.
Context `{Platform}.

Lemma serve_text_state (view : M (string * Z)) (s : filesystem) :
  (serve_text view s).1 = (view s).1.
Proof. unfold serve_text. destruct (view s) as [s' [[text status]|[]]]; done. Qed.

Lemma legacy_path_free (s : filesystem) (f : file_storage) :
  s !! legacy_path s f = None.
Proof. apply destination_is_free. Qed.

Lemma legacy_path_unique (s : filesystem) (f : file_storage) :
  _unique_path (_final_path (_safe_name (filename f)) "") s
  = (s, Ok (legacy_path s f)).
Proof.
  unfold legacy_path, destination.
  by destruct (unique_path_reads (_final_path (_safe_name (filename f)) "") s)
    as [q ->].
Qed.

Lemma legacy_path_snoc (s : filesystem) (f : file_storage) :
  ∃ x, legacy_path s f = UPLOAD_ROOT ++ [x].
Proof.
  unfold legacy_path.
  destruct (s !! _final_path (_safe_name (filename f)) "") as [n|] eqn:Hfin.
  - destruct (destination_taken s (_final_path (_safe_name (filename f)) ""))
      as (i & _ & -> & _); [eauto|].
    destruct (candidate_final_snoc (_safe_name (filename f)) "" i) as [x ->].
    exists x. by rewrite safe_relpath_empty, app_nil_r.
  - rewrite destination_free by done. rewrite final_path_snoc.
    rewrite safe_relpath_empty, app_nil_r. eauto.
Qed.

(** One round of the loop of [upload_legacy] for a file that is not
    skipped, when the directory can be made: the bytes of the file are at
    a free name. *)
Lemma legacy_round (f : file_storage) (fs : list file_storage) (saved : Z)
    (s s1 : filesystem) :
  skipped f = false →
  mkdir_rev s (rev UPLOAD_ROOT) = Some s1 →
  legacy_loop (f :: fs) saved s
  = legacy_loop fs (saved + 1) (<[legacy_path s f := File (stream f)]> s1).
Proof.
  intros Hskip Hmk. cbn [legacy_loop]. rewrite Hskip. run_M.
  rewrite legacy_path_unique.
  pose proof (legacy_path_free s f) as Hfree.
  destruct (legacy_path_snoc s f) as [x Hx]. rewrite Hx in Hfree |- *.
  unfold mkdir_parents. rewrite parent_snoc, Hmk.
  assert (s1 !! (UPLOAD_ROOT ++ [x]) = None) as Hfree1.
  { rewrite <-Hfree. apply (mkdir_rev_longer s s1 (rev UPLOAD_ROOT)); [done|].
    rewrite length_rev, length_app. simpl. lia. }
  unfold open_write. rewrite Hfree1, parent_snoc.
  rewrite <-(rev_involutive UPLOAD_ROOT) at 1.
  rewrite (mkdir_rev_is_dir s s1) by done.
  rewrite (copy_loop_appends _ _ _ []) by (lia || by rewrite lookup_insert_eq).
  by rewrite insert_insert_eq.
Qed.

Lemma legacy_round_blocked (f : file_storage) (fs : list file_storage)
    (saved : Z) (s : filesystem) :
  skipped f = false →
  mkdir_rev s (rev UPLOAD_ROOT) = None →
  legacy_loop (f :: fs) saved s = (s, Raise FileExistsError).
Proof.
  intros Hskip Hmk. cbn [legacy_loop]. rewrite Hskip. run_M.
  rewrite legacy_path_unique.
  destruct (legacy_path_snoc s f) as [x Hx]. rewrite Hx.
  unfold mkdir_parents. by rewrite parent_snoc, Hmk.
Qed.

Lemma legacy_loop_keeps (fs : list file_storage) (saved : Z) (s : filesystem) :
  s ⊆ (legacy_loop fs saved s).1.
Proof.
  revert saved s. induction fs as [|f fs IH]; intros saved s; [done|].
  destruct (skipped f) eqn:Hskip.
  { cbn [legacy_loop]. rewrite Hskip. apply IH. }
  destruct (mkdir_rev s (rev UPLOAD_ROOT)) as [s1|] eqn:Hmk.
  - rewrite (legacy_round f fs saved s s1) by done.
    etrans; [|apply IH].
    apply map_subseteq_spec. intros k n Hk.
    rewrite lookup_insert_ne.
    + by eapply mkdir_rev_keeps.
    + intros <-. by rewrite legacy_path_free in Hk.
  - by rewrite legacy_round_blocked.
Qed.

(** X12. The form upload never overwrites and never deletes: whatever
    the form holds and whatever is on the disk, every entry of the
    filesystem is after the request what it was before. A file whose
    name is taken is written to a free name instead. *)
Theorem legacy_never_overwrites (req : form) (s : filesystem) :
  s ⊆ (serve_text (upload_legacy req) s).1.
Proof.
  rewrite serve_text_state. unfold upload_legacy.
  destruct (negb _); [done|]. run_M.
  pose proof (legacy_loop_keeps (files_getlist req "files") 0 s) as Hkeeps.
  by destruct (legacy_loop _ _ _) as [s' [saved|e]].
Qed.

(** The loop on a disk where the upload root is there. *)
Lemma legacy_loop_saves (fs : list file_storage) (saved : Z) (s : filesystem) :
  is_dir s UPLOAD_ROOT = true →
  ∃ s', legacy_loop fs saved s = (s', Ok (saved + Z.of_nat (length (accepted fs))))
    ∧ size s' = (size s + length (accepted fs))%nat
    ∧ Forall (λ f, ∃ x, s !! (UPLOAD_ROOT ++ [x]) = None
                        ∧ s' !! (UPLOAD_ROOT ++ [x]) = Some (File (stream f)))
        (accepted fs).
Proof.
  revert saved s. induction fs as [|f fs IH]; intros saved s Hroot.
  { exists s. cbn. split_and!; [by rewrite Z.add_0_r|lia|constructor]. }
  unfold accepted. cbn [List.filter]. fold (accepted fs).
  destruct (skipped f) eqn:Hskip; cbn [negb].
  { cbn [legacy_loop]. rewrite Hskip. by apply IH. }
  rewrite (legacy_round f fs saved s s) by (done || by apply mkdir_rev_present).
  pose proof (legacy_path_free s f) as Hfree.
  destruct (legacy_path_snoc s f) as [x Hx]. rewrite Hx in Hfree |- *.
  set (s1 := <[UPLOAD_ROOT ++ [x] := File (stream f)]> s).
  destruct (IH (saved + 1) s1) as (s' & Hrun & Hsize & Hall).
  { apply is_dir_insert_ne; [done|]. by rewrite Hfree. }
  exists s'. split_and!.
  - rewrite Hrun. do 2 f_equal. cbn [length]. lia.
  - rewrite Hsize. unfold s1. rewrite map_size_insert_None by done.
    cbn [length]. lia.
  - pose proof (legacy_loop_keeps fs (saved + 1) s1) as Hkeeps.
    rewrite Hrun in Hkeeps. cbn [fst] in Hkeeps.
    constructor.
    + exists x. split; [done|].
      eapply lookup_weaken; [|exact Hkeeps]. unfold s1. by rewrite lookup_insert_eq.
    + eapply Forall_impl; [exact Hall|].
      intros f' (x' & Hfree' & Hthere). exists x'. split; [|done].
      unfold s1 in Hfree'. apply lookup_insert_None in Hfree'. tauto.
Qed.

(** X13. The form upload on a disk where the upload root is there. A
    form without the field [files] is answered 400 and nothing is
    written. Otherwise every file of the field whose name is not blank is
    saved: the answer is 200 and tells their number, the filesystem has
    that many entries more, and each of them is, with its bytes, at a
    name right in the upload root that was free; two files of one name
    do not end up in one. *)
Theorem legacy_saves_all (req : form) (s : filesystem) :
  is_dir s UPLOAD_ROOT = true →
  let fs := accepted (files_getlist req "files") in
  let '(s', r) := serve_text (upload_legacy req) s in
  if files_has req "files" then
    r = Text 200 (uploaded (Z.of_nat (length fs)))
    ∧ size s' = (size s + length fs)%nat
    ∧ Forall (λ f, ∃ x, s !! (UPLOAD_ROOT ++ [x]) = None
                        ∧ s' !! (UPLOAD_ROOT ++ [x]) = Some (File (stream f))) fs
  else s' = s ∧ r = Failed 400 "No files part".
Proof.
  intros Hroot fs. unfold serve_text, upload_legacy.
  destruct (files_has req "files"); cbn [negb]; [|done]. run_M.
  destruct (legacy_loop_saves (files_getlist req "files") 0 s Hroot)
    as (s' & -> & Hsize & Hall).
  by rewrite Z.add_0_l.
Qed.

End LegacyProperties.

Lemma legacy_saves_all_witness :
  let photo := {| filename := "a.txt"; stream := hello |} in
  let blank := {| filename := "  "; stream := hello |} in
  let req := {| files := [("files", photo); ("files", blank); ("files", photo)]%string |} in
  let '(s', r) := serve_text (upload_legacy req) fresh in
  r = Text 200 "Uploaded 2 file(s). <a href='/'>Back</a>"
  ∧ size s' = (size fresh + 2)%nat.
Proof.
  intros photo blank req.
  pose proof (legacy_saves_all req fresh ltac:(vm_compute; reflexivity)) as Hrun.
  cbv zeta in Hrun. destruct (serve_text (upload_legacy req) fresh) as [s' r].
  change (files_has req "files") with true in Hrun.
  destruct Hrun as (-> & -> & _). split; reflexivity.
Defined.

(** ** Counting files ([_count_files_excluding_tmp], [stats]) *)

Lemma scandir_spec (s : filesystem) (top : path) (x : string) (n : node) :
  (x, n) ∈ scandir s top ↔ s !! (top ++ [x]) = Some n.
Proof.
  unfold scandir. rewrite list_elem_of_omap. split.
  - intros ([k n'] & Hin & Hg). apply elem_of_map_to_list in Hin. cbn in Hg.
    case_bool_decide as Hk; [|done]. destruct Hk as [Hne Hpar].
    injection Hg as <- <-. rewrite <-Hpar. unfold parent, name_of.
    by rewrite <-app_removelast_last.
  - intros Hk. exists (top ++ [x], n). split; [by apply elem_of_map_to_list|].
    cbn [fst snd]. rewrite bool_decide_eq_true_2.
    + by rewrite name_of_snoc.
    + split; [by destruct top|apply parent_snoc].
Qed.

Lemma scandir_NoDup (s : filesystem) (top : path) : NoDup (scandir s top).*1.
Proof.
  unfold scandir. pose proof (NoDup_fst_map_to_list s) as Hnd.
  induction (map_to_list s) as [|[k n] l IH]; [constructor|].
  cbn in Hnd. apply NoDup_cons in Hnd as [Hk Hnd]. cbn.
  case_bool_decide as Hhere; [|by apply IH]. cbn. constructor; [|by apply IH].
  intros Hin. apply list_elem_of_fmap in Hin as ([x' n'] & Hx & Hin).
  cbn in Hx. subst x'.
  apply list_elem_of_omap in Hin as ([k' n''] & Hin & Hg). cbn in Hg.
  case_bool_decide as Hthere; [|done]. injection Hg as Hname <-.
  destruct Hhere as [Hne Hpar], Hthere as [Hne' Hpar'].
  assert (k' = k) as ->.
  { rewrite (app_removelast_last ""%string Hne), (app_removelast_last ""%string Hne').
    unfold parent in *. unfold name_of in Hname. by rewrite Hpar, Hpar', Hname. }
  apply Hk. apply list_elem_of_fmap. eexists (_, _). split; [|exact Hin]. done.
Qed.

Lemma NoDup_fst_filter {A B} (P : A * B → Prop) `{∀ x, Decision (P x)}
    (l : list (A * B)) :
  NoDup l.*1 → NoDup (filter P l).*1.
Proof.
  induction l as [|e l IH]; [done|]. rewrite fmap_cons.
  intros [He Hl]%NoDup_cons.
  rewrite filter_cons. destruct (decide (P e)); [|by apply IH].
  rewrite fmap_cons. constructor; [|by apply IH].
  intros Hin. apply He. apply list_elem_of_fmap in Hin as (e' & -> & Hin).
  apply list_elem_of_filter in Hin as [_ Hin].
  apply list_elem_of_fmap. by exists e'.
Qed.

Lemma dirnames_spec (s : filesystem) (top : path) (d : string) :
  d ∈ dirnames_of (scandir s top) ↔ s !! (top ++ [d]) = Some Dir.
Proof.
  unfold dirnames_of. rewrite list_elem_of_fmap. split.
  - intros ([x n] & -> & Hin). apply list_elem_of_filter in Hin as [Hn Hin].
    apply scandir_spec in Hin. cbn in *. by destruct n.
  - intros Hd. exists (d, Dir). split; [done|].
    apply list_elem_of_filter. split; [done|]. by apply scandir_spec.
Qed.

Lemma filenames_spec (s : filesystem) (top : path) (x : string) :
  x ∈ filenames_of (scandir s top)
  ↔ ∃ data, s !! (top ++ [x]) = Some (File data).
Proof.
  unfold filenames_of. rewrite list_elem_of_fmap. split.
  - intros ([x' n] & -> & Hin). apply list_elem_of_filter in Hin as [Hn Hin].
    apply scandir_spec in Hin. cbn in *. destruct n; [eauto|done].
  - intros [data Hx]. exists (x, File data). split; [done|].
    apply list_elem_of_filter. split; [done|]. by apply scandir_spec.
Qed.

(** [remove] in a [try] that passes on [ValueError]: the list without
    the name, when names do not repeat. *)
Lemma remove_spec (x : string) (l : list string) :
  NoDup l →
  NoDup (default l (Py.remove x l))
  ∧ ∀ d, d ∈ default l (Py.remove x l) ↔ d ∈ l ∧ d ≠ x.
Proof.
  induction l as [|y l IH]; intros Hnd.
  { split; [done|]. intros d. cbn. split; [inversion 1|by intros [? _]]. }
  apply NoDup_cons in Hnd as [Hy Hl]. destruct (IH Hl) as [IHnd IHin].
  cbn [Py.remove]. destruct (decide (x = y)) as [->|Hne]; cbn [default].
  - split; [done|]. intros d. rewrite elem_of_cons. split.
    + intros Hd. split; [by right|]. by intros ->.
    + by intros [[?|?] ?].
  - assert (default (y :: l) ((y ::.) <$> Py.remove x l)
            = y :: default l (Py.remove x l)) as ->.
    { by destruct (Py.remove x l). }
    split.
    + constructor; [|done]. rewrite IHin. tauto.
    + intros d. rewrite !elem_of_cons, IHin. split.
      * intros [->|[? ?]]; [split; [by left|congruence]|tauto].
      * intros [[?|?] ?]; tauto.
Qed.

Lemma counted_not_dir (s : filesystem) (name : string) (top k : path) :
  counted s name top k → is_dir s top = true.
Proof.
  intros (rel & x & data & _ & _ & _ & _ & Hpre).
  specialize (Hpre [] (prefix_nil _)). by rewrite app_nil_r in Hpre.
Qed.

Lemma counted_length (s : filesystem) (name : string) (top k : path) :
  counted s name top k → (length top < length k)%nat.
Proof.
  intros (rel & x & data & -> & _). rewrite !length_app. simpl. lia.
Qed.

Lemma counted_below (s : filesystem) (name : string) (top k : path)
    (d d' : string) :
  counted s name (top ++ [d]) k → counted s name (top ++ [d']) k → d = d'.
Proof.
  intros (rel & x & data & -> & _) (rel' & x' & data' & Heq & _).
  rewrite <-!(assoc_L (++)) in Heq. apply app_inv_head in Heq.
  by injection Heq.
Qed.

(** The files counted from a directory are its own, and those counted
    from the directories in it, the one with the staging name apart. *)
Lemma counted_unfold (s : filesystem) (name : string) (top k : path) :
  is_dir s top = true →
  counted s name top k
  ↔ (∃ x data, k = top ++ [x] ∧ s !! k = Some (File data)
       ∧ Py.endswith x ".part" = false)
    ∨ (∃ d, d ≠ name ∧ counted s name (top ++ [d]) k).
Proof.
  intros Hdir. split.
  - intros (rel & x & data & -> & Hk & Hpart & Hrel & Hpre).
    destruct rel as [|d rel]; [left; eauto|]. right.
    apply not_elem_of_cons in Hrel as [Hd Hrel]. exists d. split; [done|].
    exists rel, x, data. rewrite <-!(assoc_L (++)). split_and!; [done..|].
    intros q Hq. rewrite <-(assoc_L (++)). apply Hpre.
    by apply prefix_cons.
  - intros [(x & data & -> & Hk & Hpart)|(d & Hd & rel & x & data & -> & Hk & Hpart & Hrel & Hpre)].
    + exists [], x, data. split_and!; [done..|inversion 1|].
      intros q ->%prefix_nil_inv. by rewrite app_nil_r.
    + exists (d :: rel), x, data. rewrite <-!(assoc_L (++)) in *.
      split_and!; [done..| |].
      * apply not_elem_of_cons. done.
      * intros [|d' q] Hq; [by rewrite app_nil_r|].
        apply prefix_cons_inv_1 in Hq as Hhd. subst d'.
        apply prefix_cons_inv_2 in Hq.
        specialize (Hpre q Hq). by rewrite <-(assoc_L (++)) in Hpre.
Qed.

Lemma Forall_exists_Forall2 {A B} (R : A → B → Prop) (l : list A) :
  Forall (λ x, ∃ y, R x y) l → ∃ k, Forall2 R l k.
Proof.
  induction 1 as [|x l [y Hy] _ [k IH]]; [by exists []|].
  exists (y :: k). by constructor.
Qed.

Lemma concat_walked_elem (fuel : nat) (s : filesystem) (name : string)
    (top : path) (dirs : list string) (ls : list (list path)) (k : path) :
  Forall2 (walked fuel s name top) dirs ls →
  k ∈ concat ls ↔ ∃ d, d ∈ dirs ∧ counted s name (top ++ [d]) k.
Proof.
  induction 1 as [|d l dirs ls (_ & Hin & _) _ IH]; cbn.
  { split; [inversion 1|]. intros (? & Hd & _). inversion Hd. }
  rewrite elem_of_app, IH, Hin. split.
  - intros [Hk|(d' & ? & ?)].
    + exists d. split; [left|done].
    + exists d'. split; [by right|done].
  - intros (d' & [->|Hd]%elem_of_cons & Hk); [by left|right; eauto].
Qed.

Lemma concat_walked_NoDup (fuel : nat) (s : filesystem) (name : string)
    (top : path) (dirs : list string) (ls : list (list path)) :
  Forall2 (walked fuel s name top) dirs ls →
  NoDup dirs → NoDup (concat ls).
Proof.
  induction 1 as [|d l dirs ls (Hnd & Hin & _) Hrest IH]; cbn; [constructor|].
  intros [Hd Hdirs]%NoDup_cons. apply NoDup_app. split_and!; [done| |by apply IH].
  intros k Hk Hk'. apply Hin in Hk.
  apply (concat_walked_elem fuel s name top dirs ls k Hrest) in Hk'
    as (d' & Hd' & Hk').
  by rewrite (counted_below s name top k d d') in Hd.
Qed.

Lemma mapM_walked (fuel : nat) (s : filesystem) (name : string)
    (top : path) (dirs : list string) (ls : list (list path)) :
  Forall2 (walked fuel s name top) dirs ls →
  mapM (λ d, walk_count fuel name s (top ++ [d])) dirs
  = Some ((λ l, Z.of_nat (length l)) <$> ls).
Proof.
  intros Hls. apply mapM_Some_2, Forall2_fmap_r.
  eapply Forall2_impl; [exact Hls|]. by intros d l (_ & _ & ?).
Qed.

Lemma sum_lengths {A} (ls : list (list A)) :
  foldr Z.add 0 ((λ l, Z.of_nat (length l)) <$> ls)
  = Z.of_nat (length (concat ls)).
Proof.
  induction ls as [|l ls IH]; [done|]. cbn. rewrite IH, length_app. lia.
Qed.

Global Instance snoc_inj {A} (p : list A) : Inj (=) (=) (λ x, p ++ [x]).
Proof. intros x y Heq. apply app_inv_head in Heq. by injection Heq. Qed.

(** The walk from [top] counts the files counted from there, each once.
    [A] holds the directories the walk has come through. *)
Lemma walk_count_counted (fuel : nat) (name : string) (s : filesystem)
    (top : path) (A : gset path) :
  A ⊆ dom s →
  (∀ a, a ∈ A → (length a ≤ length top)%nat) →
  (size s < fuel + size A)%nat →
  ∃ l, NoDup l
    ∧ (∀ k, k ∈ l ↔ counted s name top k)
    ∧ walk_count fuel name s top = Some (Z.of_nat (length l)).
Proof.
  revert top A. induction fuel as [|fuel IH]; intros top A HA Hlen Hfuel.
  { apply subseteq_size in HA. rewrite size_dom in HA. lia. }
  cbn [walk_count]. destruct (is_dir s top) eqn:Hdir.
  2: { exists []. split_and!; [constructor| |done].
       intros k. split; [inversion 1|].
       intros Hk%counted_not_dir. congruence. }
  pose proof (scandir_NoDup s top) as Hnames.
  destruct (remove_spec name (dirnames_of (scandir s top))) as [Hnd Hdirs].
  { by apply NoDup_fst_filter. }
  set (dirs := default (dirnames_of (scandir s top))
                 (Py.remove name (dirnames_of (scandir s top)))) in *.
  assert (∃ ls, Forall2 (walked fuel s name top) dirs ls) as [ls Hls].
  { apply Forall_exists_Forall2, Forall_forall. intros d Hd.
    apply Hdirs in Hd as [Hd _]. apply dirnames_spec in Hd.
    apply (IH (top ++ [d]) ({[top ++ [d]]} ∪ A)).
    - apply union_subseteq. split; [|done].
      apply singleton_subseteq_l, elem_of_dom. eauto.
    - intros a [->%elem_of_singleton|Ha]%elem_of_union; [done|].
      specialize (Hlen a Ha). rewrite length_app. simpl. lia.
    - rewrite size_union, size_singleton; [lia|].
      intros a ->%elem_of_singleton Ha. specialize (Hlen _ Ha).
      rewrite length_app in Hlen. simpl in Hlen. lia. }
  rewrite (mapM_walked fuel s name top dirs ls Hls). cbn.
  set (here := filter (λ f, Py.endswith f ".part" = false)
                 (filenames_of (scandir s top))).
  exists (((λ x, top ++ [x]) <$> here) ++ concat ls). split_and!.
  - apply NoDup_app. split_and!.
    + apply (NoDup_fmap_2 _), NoDup_filter. by apply NoDup_fst_filter.
    + intros k Hk Hk'. apply list_elem_of_fmap in Hk as (x & -> & _).
      apply (concat_walked_elem fuel s name top dirs ls _ Hls) in Hk'
        as (d & _ & Hk'%counted_length).
      rewrite !length_app in Hk'. simpl in Hk'. lia.
    + by apply (concat_walked_NoDup fuel s name top dirs).
  - intros k. rewrite elem_of_app, (counted_unfold s name top k Hdir).
    rewrite (concat_walked_elem fuel s name top dirs ls k Hls). split.
    + intros [(x & -> & Hx)%list_elem_of_fmap|(d & Hd & Hk)].
      * left. apply list_elem_of_filter in Hx as [Hpart Hx].
        apply filenames_spec in Hx as [data Hx]. eauto.
      * right. exists d. split; [|done]. by apply Hdirs in Hd as [_ ?].
    + intros [(x & data & -> & Hx & Hpart)|(d & Hd & Hk)].
      * left. apply list_elem_of_fmap. exists x. split; [done|].
        apply list_elem_of_filter. split; [done|]. apply filenames_spec. eauto.
      * right. exists d. split; [|done]. apply Hdirs. split; [|done].
        apply dirnames_spec. apply counted_not_dir in Hk.
        apply is_dir_lookup in Hk; [done|by destruct top].
  - unfold count_not_part. fold here. rewrite sum_lengths.
    rewrite length_app, length_fmap. do 2 f_equal. lia.
Qed.

(** X14. What [_count_files_excluding_tmp] counts. The walk ends, leaves
    the filesystem as it is, and returns the number of the regular files
    that lie below the root through directories none of which has the name
    of the staging directory, and whose own name does not end in [.part].
    A directory of that name is left out at every depth, not only right
    below the root; a root that is not a directory counts as empty. *)
Theorem count_files_counted (root tmp_dir : path) (s : filesystem) :
  ∃ l, NoDup l
    ∧ (∀ k, k ∈ l ↔ counted s (name_of tmp_dir) root k)
    ∧ _count_files_excluding_tmp root tmp_dir s = (s, Ok (Z.of_nat (length l))).
Proof.
  destruct (walk_count_counted (S (size s)) (name_of tmp_dir) s root ∅)
    as (l & Hnd & Hin & Hrun).
  - apply empty_subseteq.
  - intros a Ha. by apply elem_of_empty in Ha.
  - rewrite size_empty. lia.
  - exists l. split_and!; [done..|].
    unfold _count_files_excluding_tmp. by rewrite Hrun.
Qed.

(** ** The count and the staging area *)

(** In a tree, what is above an entry is a directory. *)
Lemma tree_above (s : filesystem) (p : path) (r : list string) :
  tree s → r ≠ [] → is_Some (s !! (p ++ r)) → is_dir s p = true.
Proof.
  intros Htree. induction r as [|x r IH] using rev_ind; [done|].
  intros _ [n Hk]. apply Htree in Hk.
  rewrite (assoc_L (++)), parent_snoc in Hk.
  destruct r as [|y r]; [by rewrite app_nil_r in Hk|].
  apply IH; [done|]. apply is_dir_lookup in Hk; [eauto|].
  by destruct p.
Qed.

Section CountStaging.
Context `{Platform}.

(** A staging path, seen from the upload root, starts in [.incoming]. *)
Lemma tmp_path_from_root (name relpath : string) (l : list string) :
  UPLOAD_ROOT ++ l = _tmp_path name relpath →
  ∃ l', l = ".incoming"%string :: l' ∧ l' ≠ [].
Proof.
  unfold _tmp_path, TMP_DIR. rewrite <-(assoc_L (++)).
  intros ->%app_inv_head. eexists. split; [done|].
  by destruct (_safe_relpath relpath).
Qed.

(** What is counted from the upload root is not a staging path, and
    lies in no directory that is one. *)
Lemma counted_not_staging (s : filesystem) (name relpath : string)
    (rel q : list string) (x : string) :
  ".incoming"%string ∉ rel →
  q `prefix_of` rel ++ [x] →
  UPLOAD_ROOT ++ q ≠ _tmp_path name relpath.
Proof.
  intros Hrel Hq Heq.
  apply tmp_path_from_root in Heq as (l' & -> & Hl').
  destruct rel as [|d rel].
  - destruct Hq as [r Hq]. injection Hq as _ Hq.
    symmetry in Hq. apply app_eq_nil in Hq as [-> _]. done.
  - apply prefix_cons_inv_1 in Hq. subst d. apply Hrel. left.
Qed.

Lemma counted_after_chunk (req : request) (s : filesystem) (k : path) :
  tree s →
  counted (upload_chunk req s).1 ".incoming" UPLOAD_ROOT k
  ↔ counted s ".incoming" UPLOAD_ROOT k.
Proof.
  intros Htree. split.
  - intros (rel & x & data & -> & Hk & Hpart & Hrel & _).
    assert (s !! (UPLOAD_ROOT ++ rel ++ [x]) = Some (File data)) as Hthere.
    { destruct (upload_chunk_frame req s (UPLOAD_ROOT ++ rel ++ [x]))
        as [<-|(_ & Hdir & _)]; [|done|congruence].
      by apply (counted_not_staging s _ _ rel _ x). }
    exists rel, x, data. split_and!; [done..|].
    intros q [r ->]. apply (tree_above s _ (r ++ [x])); [done|by destruct r|].
    rewrite <-!(assoc_L (++)) in Hthere. rewrite <-(assoc_L (++)). eauto.
  - intros (rel & x & data & -> & Hk & Hpart & Hrel & Hpre).
    exists rel, x, data. split_and!; [done| |done..|].
    + destruct (upload_chunk_frame req s (UPLOAD_ROOT ++ rel ++ [x]))
        as [->|(Hnone & _)]; [|done|congruence].
      by apply (counted_not_staging s _ _ rel _ x).
    + intros q Hq. specialize (Hpre q Hq).
      apply is_dir_lookup in Hpre; [|by destruct q].
      apply is_dir_lookup; [by destruct q|].
      destruct (upload_chunk_frame req s (UPLOAD_ROOT ++ q))
        as [->|(Hnone & _)]; [|done|congruence].
      apply (counted_not_staging s _ _ rel _ x); [done|].
      by apply prefix_app_r.
Qed.

Lemma stats_counted (s : filesystem) :
  ∃ l, NoDup l
    ∧ (∀ k, k ∈ l ↔ counted s ".incoming" UPLOAD_ROOT k)
    ∧ serve stats s = (s, Json 200 [("files"%string, JInt (Z.of_nat (length l)))]).
Proof.
  destruct (walk_count_counted (S (size s)) ".incoming" s UPLOAD_ROOT ∅)
    as (l & Hnd & Hin & Hrun).
  - apply empty_subseteq.
  - intros a Ha. by apply elem_of_empty in Ha.
  - rewrite size_empty. lia.
  - exists l. split_and!; [done..|].
    unfold serve, stats, _count_files_excluding_tmp. run_M.
    change (name_of TMP_DIR) with ".incoming"%string. by rewrite Hrun.
Qed.

(** X15. Uploading does not show in the count before it is finished: on
    a filesystem that is a tree, [/stats] answers after a chunk request,
    whatever it asks for, what it answered before. The partial file and
    the directories made for it are in the staging area, which the walk
    leaves out. *)
Theorem stats_ignores_chunks (req : request) (s : filesystem) :
  tree s →
  (serve stats (serve (upload_chunk req) s).1).2 = (serve stats s).2.
Proof.
  intros Htree. rewrite serve_state.
  destruct (stats_counted s) as (l & Hnd & Hin & ->).
  destruct (stats_counted (upload_chunk req s).1) as (l' & Hnd' & Hin' & ->).
  cbn [snd]. do 5 f_equal. apply Permutation_length, NoDup_Permutation; [done..|].
  intros k. by rewrite Hin, Hin', counted_after_chunk.
Qed.

End CountStaging.

Lemma stats_ignores_chunks_witness :
  let req := query [("name", "b.txt"); ("size", "5"); ("offset", "0");
                    ("relpath", "trip")]%string hello in
  let s := <[_final_path "a.txt" "" := File hello]> fresh in
  (serve stats (serve (upload_chunk req) s).1).2
  = Json 200 [("files"%string, JInt 1)].
Proof.
  intros req s. rewrite (stats_ignores_chunks req s).
  - vm_compute. reflexivity.
  - apply well_formed_tree. vm_compute. reflexivity.
Defined.

(** ** Targets *)

Section Targets.
Context `{Platform}.

(** X16. Two requests have one partial file exactly when they have one
    preferred final path: both paths are made of the sanitized relative
    path and the sanitized name, and of nothing else of the request. So
    names and folders that are sanitized alike are one target, and no
    partial file is shared by uploads with different final paths. *)
Theorem same_partial_same_final (name name' rel rel' : string) :
  (_tmp_path name rel = _tmp_path name' rel'
   ↔ _safe_relpath rel = _safe_relpath rel' ∧ _safe_name name = _safe_name name')
  ∧ (_final_path name rel = _final_path name' rel'
     ↔ _safe_relpath rel = _safe_relpath rel' ∧ _safe_name name = _safe_name name').
Proof.
  split; split.
  - unfold _tmp_path. intros Heq%app_inv_head.
    apply app_inj_tail in Heq as [Hrel Hname].
    by apply string_app_inv_tail in Hname.
  - unfold _tmp_path. by intros [-> ->].
  - unfold _final_path. intros Heq%app_inv_head.
    by apply app_inj_tail in Heq as [Hrel Hname].
  - unfold _final_path. by intros [-> ->].
Qed.

(** X17. A chunk that comes twice is appended once. After a chunk
    request with a body was taken at its offset, whatever the answer
    was, the same request again is answered 409 with the new length in
    [received], and changes nothing. *)
Theorem chunk_repeated (req : request) (name : string) (size offset : Z)
    (relpath : string) (s s1 : filesystem) :
  chunk_request req name size offset relpath →
  offset = current_length s (_tmp_path name relpath) →
  mkdir_rev s (rev (parent (_tmp_path name relpath))) = Some s1 →
  s !! _tmp_path name relpath ≠ Some Dir →
  body req ≠ [] →
  let after := (serve (upload_chunk req) s).1 in
  after !! _tmp_path name relpath
  = Some (File (partial_bytes s (_tmp_path name relpath) ++ body req))
  ∧ serve (upload_chunk req) after
    = (after, Json 409 [("received"%string,
                         JInt (offset + Z.of_nat (length (body req))))]).
Proof.
  intros Hreq Hoff Hmk Hnd Hbody after. unfold after.
  rewrite (upload_chunk_appends req name size offset relpath s s1) by done.
  cbn [fst]. split; [by rewrite lookup_insert_eq|].
  unfold serve. rewrite (upload_chunk_accepted req name size offset relpath) by done.
  cbv zeta. unfold current_length at 1 2. rewrite lookup_insert_eq. cbn [node_size].
  rewrite length_app, Nat2Z.inj_add.
  rewrite <-current_length_partial_bytes, <-Hoff by done.
  replace (offset =? _) with false; [done|].
  symmetry. apply Z.eqb_neq. destruct (body req); [done|]. simpl. lia.
Qed.

End Targets.

Lemma chunk_repeated_witness :
  let req := query [("name", "a.txt"); ("size", "10"); ("offset", "0")]%string hello in
  let after := (serve (upload_chunk req) fresh).1 in
  after !! _tmp_path "a.txt" "" = Some (File hello)
  ∧ serve (upload_chunk req) after
    = (after, Json 409 [("received"%string, JInt 5)]).
Proof.
  intros req after.
  destruct (chunk_repeated req "a.txt" 10 0 "" fresh fresh) as [Hthere Hrun].
  - unfold chunk_request. sample.
  - sample.
  - apply mkdir_rev_present. sample.
  - sample.
  - discriminate.
  - split; [etrans; [exact Hthere|]; vm_compute; reflexivity|].
    etrans; [exact Hrun|]. apply (f_equal (pair after)). vm_compute. reflexivity.
Defined.

(** ** The count and a finished upload *)

Section CountFinish.
Context `{Platform}.

Lemma destination_snoc (s : filesystem) (name relpath : string) :
  destination s (_final_path name relpath)
  = (UPLOAD_ROOT ++ _safe_relpath relpath)
    ++ [name_of (destination s (_final_path name relpath))].
Proof.
  destruct (s !! _final_path name relpath) as [n|] eqn:Hfin.
  - destruct (destination_taken s (_final_path name relpath))
      as (i & _ & -> & _); [eauto|].
    destruct (candidate_final_snoc name relpath i) as [x ->].
    by rewrite name_of_snoc.
  - rewrite destination_free by done.
    by rewrite final_path_snoc, name_of_snoc.
Qed.

(** After the move of [upload_finish], the files counted are those
    counted before and, if the walk comes to it, the new one. *)
Lemma counted_after_finish (name relpath : string) (data : list Byte.byte)
    (s s1 : filesystem) (k : path) :
  let tmp := _tmp_path name relpath in
  let final := _final_path name relpath in
  let dest := destination s final in
  tree s →
  mkdir_rev s (rev (parent final)) = Some s1 →
  counted (<[dest := File data]> (delete tmp s1)) ".incoming" UPLOAD_ROOT k
  ↔ counted s ".incoming" UPLOAD_ROOT k
    ∨ (shown relpath dest = true ∧ k = dest).
Proof.
  intros tmp final dest Htree Hmk.
  pose proof (destination_is_free s final) as Hfree. fold dest in Hfree.
  pose proof (destination_snoc s name relpath) as Hdest. fold final dest in Hdest.
  set (rp := _safe_relpath relpath) in *. set (x := name_of dest) in *.
  revert Hmk. unfold final. rewrite final_path_snoc, parent_snoc. fold rp.
  intros Hmk.
  assert (tmp ≠ dest) as Hdiff.
  { intros Heq%(f_equal length). rewrite Hdest in Heq. unfold tmp in Heq.
    rewrite tmp_final_length, final_path_snoc in Heq. fold rp in Heq.
    rewrite !length_app in Heq. simpl in Heq. lia. }
  assert (∀ q, q `prefix_of` rp → UPLOAD_ROOT ++ q ≠ dest) as Hshort.
  { intros q [r ->] Heq%(f_equal length). rewrite Hdest in Heq.
    rewrite !length_app in Heq. simpl in Heq. lia. }
  assert (tree s1) as Htree1 by (by eapply tree_mkdir_rev).
  assert (is_dir s1 (UPLOAD_ROOT ++ rp) = true) as Hdir1.
  { rewrite <-(rev_involutive (UPLOAD_ROOT ++ rp)). by eapply mkdir_rev_is_dir. }
  split.
  - intros (rel & x0 & data0 & -> & Hk & Hpart & Hrel & _).
    destruct (decide (UPLOAD_ROOT ++ rel ++ [x0] = dest)) as [Heq|Hne].
    + right. split; [|done]. rewrite Hdest, <-(assoc_L (++)) in Heq.
      apply app_inv_head, app_inj_tail in Heq as [-> ->].
      unfold shown. fold rp dest x. rewrite Hpart.
      by rewrite bool_decide_eq_true_2.
    + left. rewrite lookup_insert_ne in Hk by done.
      assert (UPLOAD_ROOT ++ rel ++ [x0] ≠ tmp) as Hne'.
      { by apply (counted_not_staging s _ _ rel _ x0). }
      rewrite lookup_delete_ne in Hk by done.
      assert (s !! (UPLOAD_ROOT ++ rel ++ [x0]) = Some (File data0)) as Hthere.
      { destruct (mkdir_rev_lookup s s1 _ (UPLOAD_ROOT ++ rel ++ [x0]) Hmk)
          as [<-|(_ & ? & _)]; [done|congruence]. }
      exists rel, x0, data0. split_and!; [done..|].
      intros q [r ->]. apply (tree_above s _ (r ++ [x0])); [done|by destruct r|].
      rewrite <-!(assoc_L (++)) in Hthere. rewrite <-(assoc_L (++)). eauto.
  - intros [(rel & x0 & data0 & -> & Hk & Hpart & Hrel & Hpre)|[Hshown ->]].
    + exists rel, x0, data0. split_and!; [done| |done..|].
      * rewrite lookup_insert_ne by congruence.
        rewrite lookup_delete_ne
          by (apply not_eq_sym; by apply (counted_not_staging s _ _ rel _ x0)).
        by eapply mkdir_rev_keeps.
      * intros q Hq. specialize (Hpre q Hq).
        apply is_dir_lookup in Hpre; [|by destruct q].
        apply is_dir_lookup; [by destruct q|].
        rewrite lookup_insert_ne by congruence.
        rewrite lookup_delete_ne.
        { by eapply mkdir_rev_keeps. }
        apply not_eq_sym, (counted_not_staging s _ _ rel _ x0); [done|].
        by apply prefix_app_r.
    + unfold shown in Hshown. fold rp dest x in Hshown.
      apply andb_true_iff in Hshown as [Hrp%bool_decide_eq_true Hpart%negb_true_iff].
      exists rp, x, data. rewrite (assoc_L (++)), <-Hdest.
      split_and!; [done|by rewrite lookup_insert_eq|done..|].
      intros q Hq. apply is_dir_lookup; [by destruct q|].
      rewrite lookup_insert_ne by (apply not_eq_sym; by apply Hshort).
      rewrite lookup_delete_ne.
      2: { apply not_eq_sym, (counted_not_staging s _ _ rp _ x); [done|].
           by apply prefix_app_r. }
      apply is_dir_lookup; [by destruct q|].
      destruct Hq as [r ->]. destruct r as [|y r]; [by rewrite app_nil_r in Hdir1|].
      apply (tree_above s1 _ (y :: r)); [done..|].
      rewrite <-(assoc_L (++)). apply is_dir_lookup in Hdir1; [eauto|].
      by destruct q.
Qed.

(** X18. What finishing does to the count. On a filesystem that is a
    tree, a finish request that moves its partial file makes [/stats]
    answer one more than before, unless the walk does not come to the new
    file or does not count it: a file in a folder named [.incoming], at
    any depth, or with a name that ends in [.part], is saved and never
    counted. *)
Theorem finish_counts_one (req : request) (name : string) (size : Z)
    (relpath : string) (data : list Byte.byte) (s s1 : filesystem) :
  tree s →
  finish_request req name size relpath →
  s !! _tmp_path name relpath = Some (File data) →
  mkdir_rev s (rev (parent (_final_path name relpath))) = Some s1 →
  let dest := destination s (_final_path name relpath) in
  ∃ n, serve stats s = (s, Json 200 [("files"%string, JInt n)])
    ∧ (serve stats (serve (upload_finish req) s).1).2
      = Json 200 [("files"%string,
                   JInt (if shown relpath dest then n + 1 else n))].
Proof.
  intros Htree Hreq Htmp Hmk dest.
  rewrite (upload_finish_moves req name size relpath data s s1) by done.
  cbn [fst]. fold dest.
  destruct (stats_counted s) as (l & Hnd & Hin & Hrun).
  destruct (stats_counted
              (<[dest := File data]> (delete (_tmp_path name relpath) s1)))
    as (l' & Hnd' & Hin' & ->).
  exists (Z.of_nat (length l)). split; [done|]. cbn [snd].
  assert (dest ∉ l) as Hnew.
  { intros (rel & x & data' & Heq & Hk & _)%Hin.
    pose proof (destination_is_free s (_final_path name relpath)) as Hfree.
    fold dest in Hfree. congruence. }
  pose proof (λ k, counted_after_finish name relpath data s s1 k Htree Hmk)
    as Hcf.
  cbv zeta in Hcf. fold dest in Hcf.
  destruct (shown relpath dest) eqn:Hshown.
  - assert (l' ≡ₚ dest :: l) as ->%Permutation_length.
    { apply NoDup_Permutation; [done|by constructor|].
      intros k. rewrite Hin', elem_of_cons, Hin, Hcf. tauto. }
    do 5 f_equal. cbn [length]. lia.
  - assert (l' ≡ₚ l) as ->%Permutation_length; [|done].
    apply NoDup_Permutation; [done..|].
    intros k. rewrite Hin', Hin, Hcf.
    split; [intros [?|[? _]]; done|by left].
Qed.

End CountFinish.

Lemma finish_counts_one_witness :
  let req := query [("name", "notes.part"); ("size", "5")]%string [] in
  let s := <[_tmp_path "notes.part" "" := File hello]> fresh in
  serve stats s = (s, Json 200 [("files"%string, JInt 0)])
  ∧ (serve stats (serve (upload_finish req) s).1).2
    = Json 200 [("files"%string, JInt 0)]
  ∧ (serve (upload_finish req) s).1 !! _final_path "notes.part" ""
    = Some (File hello).
Proof.
  intros req s.
  destruct (finish_counts_one req "notes.part" 5 "" hello s s)
    as (n & Hrun & Hafter).
  - apply well_formed_tree. vm_compute. reflexivity.
  - unfold finish_request. sample.
  - sample.
  - apply mkdir_rev_present. sample.
  - assert (n = 0) as ->.
    { assert ((serve stats s).2 = Json 200 [("files"%string, JInt n)]) as Hn
        by (by rewrite Hrun).
      clear -Hn. vm_compute in Hn. by injection Hn. }
    split_and!; [exact Hrun| |clear; vm_compute; reflexivity].
    etrans; [exact Hafter|]. clear. vm_compute. reflexivity.
Defined.
